(** * magic-graph: the schema generator of [src/generator.js]

    A shallow embedding of the generator that derives a GraphQL schema
    (types, query root, mutation root) from Sequelize models, and the
    properties of its merge order, pagination, filters, eventing and
    HasMany cascade.

    Conventions of the embedding.
    - A JavaScript object that is only read by key (the [models] registry,
      a field set, the [customs] overrides) is a [gmap string _];
      [Object.assign (a, b, c)] is then [c ∪ (b ∪ a)] (stdpp's union is
      left-biased, the later source of [Object.assign] wins).
    - A JavaScript object that is enumerated ([for ... in], [Object.keys])
      is an association list in enumeration order.
    - A promise is represented by its eventual state ([Outcome]); the
      observable effects of a resolver are the list of store calls it
      issued and events it published, in program order. *)

From stdpp Require Import gmap strings list fin_maps relations pretty.
From Stdlib Require Import ZArith Lia Ascii.

Open Scope string_scope.
Open Scope Z_scope.

(** ** GraphQL type expressions and field descriptors *)

Inductive GraphQLType :=
| GraphQLInt
| GraphQLString
| GraphQLScalar (name : string)      (* any other scalar of the type mapper *)
| GraphQLNamed (name : string)       (* an object or input-object type, by its name *)
| GraphQLList (t : GraphQLType)
| GraphQLNonNull (t : GraphQLType)
| GraphQLUndefined.                  (* [types[k]] for a key that is not registered *)

(** The functions a field's [resolve] can hold. *)
Inductive Resolve :=
| resolverOfAssociation (associationName : string)  (* resolver(relation) *)
| resolverOfModel (modelName : string)              (* resolver(models[name]) *)
| restfulResolve (modelName : string)
| addResolve (modelName : string)
| updateResolve (modelName : string)
| deleteResolve (modelName : string)
| userFunction (id : string).                       (* a function supplied by the user *)

Record Field := {
  f_name : option string;                (* only custom modules carry a name *)
  f_type : GraphQLType;
  f_args : gmap string GraphQLType;
  f_resolve : option Resolve;
}.

Global Instance GraphQLType_eq_dec : EqDecision GraphQLType.
Proof. solve_decision. Defined.
Global Instance Resolve_eq_dec : EqDecision Resolve.
Proof. solve_decision. Defined.
Global Instance Field_eq_dec : EqDecision Field.
Proof. solve_decision. Defined.

(** ** Sequelize models, as far as the generator reads them *)

Inductive AssociationType := BelongsTo | HasOne | HasMany | BelongsToMany.

Global Instance AssociationType_eq_dec : EqDecision AssociationType.
Proof. solve_decision. Defined.

Record Association := {
  associationType : AssociationType;
  target : string;                       (* relation.target.name *)
}.

Record Attribute := {
  attr_type : string;                    (* the Sequelize data type, by name *)
  attr_allowNull : option bool;          (* attribute.allowNull, possibly unset *)
  attr_primaryKey : bool;
}.

(** A value of [options.resolvers.query] / [.mutation]: a ready field
    descriptor, or a plain function. *)
Inductive InlineOverride :=
| overrideField (f : Field)
| overrideFunction (id : string).

Record ModelOptions := {
  name_plural : option string;                             (* options.name.plural *)
  resolvers_query : option (list (string * InlineOverride));
  resolvers_mutation : option (list (string * InlineOverride));
}.

Record Model := {
  name : string;
  primaryKeyAttributes : list string;
  rawAttributes : list (string * Attribute);
  associations : list (string * Association);
  options : option ModelOptions;
}.

(** ** Results of synchronous code *)

Inductive Res (A : Type) :=
| Ok (a : A)
| Throw                                   (* a TypeError, or a failed assertion *)
| OutOfFuel.                              (* the recursion did not return *)
Arguments Ok {A} a.
Arguments Throw {A}.
Arguments OutOfFuel {A}.

(** ** getDeepAssociations (generator.js, 421-434) *)

Inductive Include := mkInclude (model : Model) (include : list Include).

Definition inc_model (i : Include) : Model := let 'mkInclude m _ := i in m.
Definition inc_include (i : Include) : list Include := let 'mkInclude _ l := i in l.

Definition isHasMany (relation : Association) : bool :=
  bool_decide (associationType relation = HasMany).

(** The [for ... in associations] loop; [rec] is the recursive call and
    [acc] is [includeArrayModels]. *)
Fixpoint collectIncludes (rec : string → Res (list Include)) (models : gmap string Model)
    (assocs : list (string * Association)) (acc : list Include) : Res (list Include) :=
  match assocs with
  | [] => Ok acc
  | (_, relation) :: rest =>
      if isHasMany relation then
        match rec (target relation) with
        | Ok inc =>
            match models !! target relation with
            | Some tm => collectIncludes rec models rest (acc ++ [mkInclude tm inc])%list
            | None => Throw
            end
        | Throw => Throw
        | OutOfFuel => OutOfFuel
        end
      else collectIncludes rec models rest acc
  end.

Fixpoint getDeepAssociations (fuel : nat) (modelName : string)
    (models : gmap string Model) : Res (list Include) :=
  match fuel with
  | O => OutOfFuel
  | S fuel' =>
      match models !! modelName with
      | None => Throw                     (* models[modelName].associations *)
      | Some m =>
          collectIncludes (λ t, getDeepAssociations fuel' t models) models
            (associations m) []
      end
  end.

(** The HasMany associations of a model, in enumeration order. *)
Definition hasManyOf (m : Model) : list (string * Association) :=
  filter (λ p, isHasMany p.2 = true) (associations m).

(** [hasManyEdge models a b]: entity [a] declares a HasMany association
    whose target is [b]. *)
Definition hasManyEdge (models : gmap string Model) (a b : string) : Prop :=
  ∃ m an r, models !! a = Some m ∧ (an, r) ∈ associations m ∧
            associationType r = HasMany ∧ target r = b.

(** No entity reachable from [a] through HasMany edges lies on a cycle. *)
Definition acyclicFrom (models : gmap string Model) (a : string) : Prop :=
  ∀ b, rtc (hasManyEdge models) a b → ¬ tc (hasManyEdge models) b b.

(** Every entity reachable from [a] is registered (no dangling target). *)
Definition closedFrom (models : gmap string Model) (a : string) : Prop :=
  ∀ b, rtc (hasManyEdge models) a b → is_Some (models !! b).

(** A HasMany chain [n0 -> n1 -> ... -> nk]: every entity but the last has
    exactly one HasMany association, to its successor; the last has none. *)
Fixpoint isChain (models : gmap string Model) (ns : list string) : Prop :=
  match ns with
  | [] => True
  | a :: rest =>
      ∃ m, models !! a = Some m ∧
        match rest with
        | [] => hasManyOf m = []
        | b :: _ => (∃ an r, hasManyOf m = [(an, r)] ∧ target r = b) ∧
                    isChain models rest
        end
  end.

(** The cascade expected for the head of a chain. *)
Fixpoint chainCascade (models : gmap string Model) (ns : list string) : list Include :=
  match ns with
  | [] => []
  | _ :: rest =>
      match rest with
      | [] => []
      | b :: _ =>
          match models !! b with
          | Some mb => [mkInclude mb (chainCascade models rest)]
          | None => []
          end
      end
  end.

(** ** JavaScript strings and values *)

(** [s.includes(sub)] *)
Fixpoint includes (sub s : string) : bool :=
  if String.prefix sub s then true
  else match s with
       | EmptyString => false
       | String _ s' => includes sub s'
       end.

(** [s.slice(-n)]: the last [n] characters. *)
Definition sliceLast (n : nat) (s : string) : string :=
  String.substring (String.length s - n)%nat n s.

(** [s.replace(pat, '')] for a string pattern: the first occurrence goes. *)
Fixpoint removeFirst (pat s : string) : string :=
  if String.prefix pat s
  then String.substring (String.length pat) (String.length s - String.length pat)%nat s
  else match s with
       | EmptyString => EmptyString
       | String c s' => String c (removeFirst pat s')
       end.

(** JSON values, as the [where] argument and the mutation inputs carry
    them, together with the one non-JSON object the generator builds:
    [{ [Op.like]: value }], where [Op] is the operator table of the
    registry. Numbers are the integers, printed in decimal. *)
Inductive JValue :=
| JUndefined
| JNull
| JBool (b : bool)
| JNum (z : Z)
| JStr (s : string)
| JArr (l : list JValue)
| JObj (o : list (string * JValue))
| JOpLike (value : JValue).

Abbreviation JObject := (list (string * JValue)).

(** [o[key]] *)
Fixpoint obj_get (o : JObject) (key : string) : JValue :=
  match o with
  | [] => JUndefined
  | (k, v) :: rest => if String.eqb k key then v else obj_get rest key
  end.

(** [o[key] = v]: an existing property keeps its place. *)
Fixpoint obj_set (o : JObject) (key : string) (v : JValue) : JObject :=
  match o with
  | [] => [(key, v)]
  | (k, w) :: rest =>
      if String.eqb k key then (k, v) :: rest else (k, w) :: obj_set rest key v
  end.

(** [key in o] *)
Fixpoint obj_has (o : JObject) (key : string) : bool :=
  match o with
  | [] => false
  | (k, _) :: rest => if String.eqb k key then true else obj_has rest key
  end.

Definition obj_keys (o : JObject) : list string := o.*1.

(** [String(value)]. Inside [Array.prototype.join], [null] and [undefined]
    give the empty string. *)
Fixpoint toString (v : JValue) : string :=
  match v with
  | JUndefined => "undefined"
  | JNull => "null"
  | JBool true => "true"
  | JBool false => "false"
  | JNum z => pretty z
  | JStr s => s
  | JArr l =>
      (fix join (l : list JValue) : string :=
         match l with
         | [] => ""
         | x :: rest =>
             let sx := match x with
                       | JUndefined | JNull => ""
                       | _ => toString x
                       end in
             match rest with
             | [] => sx
             | _ :: _ => sx ++ "," ++ join rest
             end
         end) l
  | JObj _ => "[object Object]"
  | JOpLike _ => "[object Object]"
  end.

(** ** JavaScript numbers

    GraphQL's [Int] is a signed 32-bit integer; JavaScript computes on
    doubles, so a product of two such integers is rounded to the nearest
    double (ties to even) once it leaves the range of exact integers. *)

Definition isInt32 (z : Z) : Prop := - 2 ^ 31 <= z < 2 ^ 31.

Definition roundToDouble (z : Z) : Z :=
  let a := Z.abs z in
  if a <=? 2 ^ 53 then z
  else
    let e := Z.log2 a - 52 in
    let q := Z.shiftr a e in
    let r := a - Z.shiftl q e in
    let half := Z.shiftl 1 (e - 1) in
    let q' := if r <? half then q
              else if half <? r then q + 1
              else if Z.even q then q else q + 1 in
    Z.sgn z * Z.shiftl q' e.

(** [x * y] on integer-valued doubles *)
Definition js_mul (x y : Z) : Z := roundToDouble (x * y).

(** Truthiness of an optional integer argument: [undefined], [null] and
    [0] are falsy. *)
Definition truthyInt (a : option Z) : bool :=
  match a with
  | Some z => negb (z =? 0)
  | None => false
  end.

(** ** Promises, store calls and events *)

Inductive Outcome (A : Type) :=
| Fulfilled (a : A)
| Rejected.
Arguments Fulfilled {A} a.
Arguments Rejected {A}.

(** The request context: its [dataloaderContext] property, an object named
    here by an identifier, when the server supplied one. *)
Record Context := {
  dataloaderContext : option string;
}.

(** [context['dataloaderContext'] || context] *)
Inductive BatchingContext :=
| loaderContext (id : string)
| rawContext (c : Context).

Definition batchingOf (context : Context) : BatchingContext :=
  match dataloaderContext context with
  | Some id => loaderContext id
  | None => rawContext context
  end.

Record Instance := {
  inst_model : string;
  dataValues : JObject;
}.

(** The options of [findAndCountAll]: a property that was never assigned
    is [None]. [o_dataloader] is the property named by
    [EXPECTED_OPTIONS_KEY]. *)
Record FindOptions := {
  o_where : option JObject;
  o_order : option (list (list string));
  o_limit : Z;
  o_offset : Z;
  o_dataloader : BatchingContext;
}.

(** The options of [findOne] in [update<E>]. *)
Record OrmOptions := {
  u_where : JObject;
  u_include : list Include;
  u_dataloader : BatchingContext;
}.

(** The arguments of one [helper.upsertArray] call. *)
Record UpsertCall := {
  up_plural : string;
  up_array : JValue;
  up_parent : option Instance;
  up_foreignKey : string;
  up_parentKey : JValue;
  up_include : list Include;
}.

Inductive StoreCall :=
| callFindAndCountAll (modelName : string) (o : FindOptions)
| callCreate (modelName : string) (values : JValue) (include : list Include)
| callDestroy (modelName : string) (where_ : JObject)
| callFindOne (modelName : string) (o : OrmOptions)
| callUpsertArray (c : UpsertCall)
| callUpdate (i : Instance) (values : JObject)
| callResolver (modelName : string) (where_ : JObject).

Inductive BusId := defaultPubSub | suppliedPubSub.

Inductive Payload :=
| payloadInstance (i : Instance)
| payloadObject (o : JObject)
| payloadValue (v : JValue).

Record Event := {
  ev_bus : BusId;
  ev_topic : string;
  ev_field : string;             (* the one key of the published object *)
  ev_payload : Payload;
}.

Inductive Effect :=
| issued (c : StoreCall)
| published (e : Event).

(** What a call of [helper.upsertArray] hands back. The helper is code of
    the repository outside [generator.js]; what it returns is left open
    here: a promise of the whole reconciliation, or an array holding the
    promises of the operations on the single items, which is a plain
    value and no promise. *)
Inductive HelperReturn :=
| returnsPromise (p : Outcome JValue)
| returnsArray (ps : list (Outcome JValue)).

(** The store, by the eventual state of the promise each call returns,
    and the array-upsert helper [helper.upsertArray], by what it hands
    back; [refetch] is the graphql-sequelize resolver of the model, called
    with the primary-key filter. No call throws on the spot. *)
Record Orm := {
  findAndCountAll : string → FindOptions → Outcome (Z * list Instance);
  create : string → JValue → list Include → Outcome Instance;
  destroy : string → JObject → Outcome Z;
  findOne : string → OrmOptions → Outcome (option Instance);
  update : Instance → JObject → Outcome Instance;
  upsertArray : UpsertCall → HelperReturn;
  refetch : string → JObject → Outcome (option Instance);
}.

Record SchemaOptions := {
  customsDirPath : option string;
  subscriptions : bool;
  pubSub : bool;                 (* was a bus supplied in the options? *)
}.

(** [options['pubSub'] || pubSub] *)
Definition myPubSub (opts : SchemaOptions) : BusId :=
  if pubSub opts then suppliedPubSub else defaultPubSub.

(** What [helper.getProperTypeName] returns. *)
Record Names := { singular : string; plural : string }.
Record ProperTypeName := {
  upperFirst : Names;
  lowerFirst : Names;
  toUpperWithLodashes : Names;
}.

(** ** Asynchronous resolvers

    A resolver's run is the eventual state of the promise it returns
    together with the effects it caused, in program order. *)

Definition Async (A : Type) : Type := Outcome A * list Effect.

Definition ret {A} (a : A) : Async A := (Fulfilled a, []).

(** A synchronous [throw] inside an async function or a [then] callback. *)
Definition throwTypeError {A} : Async A := (Rejected, []).

Definition bind {A B} (m : Async A) (k : A → Async B) : Async B :=
  match m with
  | (Fulfilled a, log) => let '(r, log') := k a in (r, (log ++ log')%list)
  | (Rejected, log) => (Rejected, log)
  end.

Notation "'let*' x ':=' m 'in' k" := (bind m (λ x, k))
  (at level 10, x name, m at level 100, k at level 200).

(** Call the store: the call is issued now, the promise is handed back
    without waiting for it. *)
Definition start {A} (c : StoreCall) (p : Outcome A) : Async (Outcome A) :=
  (Fulfilled p, [issued c]).

(** [await p] / [p.then(...)] *)
Definition await {A} (p : Outcome A) : Async A := (p, []).

Definition publish (e : Event) : Async unit := (Fulfilled tt, [published e]).

Definition when (b : bool) (m : Async unit) : Async unit :=
  if b then m else ret tt.

(** [Promise.all(promises)]: fulfilled with all the values once every
    promise is fulfilled, rejected as soon as one is rejected. *)
Fixpoint promiseAll {A} (promises : list (Outcome A)) : Outcome (list A) :=
  match promises with
  | [] => Fulfilled []
  | Fulfilled a :: rest =>
      match promiseAll rest with
      | Fulfilled l => Fulfilled (a :: l)
      | Rejected => Rejected
      end
  | Rejected :: _ => Rejected
  end.

(** [xs.forEach(x => promises.push(f x))], for calls that are started in turn. *)
Fixpoint startAll {A B} (f : A → Async (Outcome B)) (xs : list A)
    : Async (list (Outcome B)) :=
  match xs with
  | [] => ret []
  | x :: rest => let* p := f x in let* ps := startAll f rest in ret (p :: ps)
  end.

Definition outcome {A} (m : Async A) : Outcome A := m.1.
Definition effects {A} (m : Async A) : list Effect := m.2.

(** The events a run published, in order, and the calls it issued. *)
Definition publishedEvents (log : list Effect) : list Event :=
  omap (λ e, match e with published ev => Some ev | issued _ => None end) log.
Definition issuedCalls (log : list Effect) : list StoreCall :=
  omap (λ e, match e with issued c => Some c | published _ => None end) log.

(** ** The [<e>Restful] resolver (generator.js, 216-246) *)

(** The arguments the resolver reads. [page] and [pageSize] are GraphQL
    [Int]s; [None] stands for an argument that is [undefined] or [null]. *)
Record RestfulArgs := {
  a_where : option JObject;
  a_order : option (list (list string));
  a_page : option Z;
  a_pageSize : option Z;
}.

Record Envelope := {
  info_total : Z;
  info_pageSize : Z;
  info_page : Z;
  results : list Instance;
}.

(** The loop over [args['where']]; [whereObjectParsed] is the very object
    that is enumerated, updated in place. *)
Fixpoint parseWhere (keys : list string) (whereObjectParsed : JObject) : JObject :=
  match keys with
  | [] => whereObjectParsed
  | key :: rest =>
      let value := obj_get whereObjectParsed key in
      parseWhere rest
        (if includes "%" (toString value)
         then obj_set whereObjectParsed key (JOpLike value)
         else whereObjectParsed)
  end.

(** [args['pageSize'] ? parseInt(args['pageSize']) : 10]; [parseInt] of an
    [Int] is that [Int]. *)
Definition restfulLimit (args : RestfulArgs) : Z :=
  if truthyInt (a_pageSize args) then default 10 (a_pageSize args) else 10.

(** [args['page'] ? (args['page'] - 1) * options['limit'] : 0] *)
Definition restfulOffset (args : RestfulArgs) : Z :=
  if truthyInt (a_page args)
  then js_mul (default 0 (a_page args) - 1) (restfulLimit args)
  else 0.

Definition restfulOptions (args : RestfulArgs) (context : Context) : FindOptions :=
  {| o_where := (λ w, parseWhere (obj_keys w) w) <$> a_where args;
     o_order := a_order args;
     o_limit := restfulLimit args;
     o_offset := restfulOffset args;
     o_dataloader := batchingOf context |}.

Definition restfulResolver (orm : Orm) (modelTypeName : string)
    (args : RestfulArgs) (context : Context) : Async Envelope :=
  let options := restfulOptions args context in
  let* p := start (callFindAndCountAll modelTypeName options)
            (findAndCountAll orm modelTypeName options) in
  let* result := await p in
  ret {| info_total := result.1;
         info_pageSize := o_limit options;
         info_page := if truthyInt (a_page args) then default 0 (a_page args) else 1;
         results := result.2 |}.

(** ** The mutation resolvers (generator.js, 307-384) *)

(** [models[inputTypeName].primaryKeyAttributes[0]], used as a property key. *)
Definition primaryKey (m : Model) : string :=
  default "undefined" (head (primaryKeyAttributes m)).

Section Mutations.
Variable getProperTypeName : Model → ProperTypeName.
Variable orm : Orm.
Variable opts : SchemaOptions.
Variable inputTypeName : string.
Variable model : Model.                        (* models[inputTypeName] *)
Variable includeArrayModels : list Include.    (* getDeepAssociations(inputTypeName, models) *)

Definition eventOf (verbUpper verb : string) (payload : Payload) : Event :=
  {| ev_bus := myPubSub opts;
     ev_topic := singular (toUpperWithLodashes (getProperTypeName model)) ++ verbUpper;
     ev_field := singular (lowerFirst (getProperTypeName model)) ++ verb;
     ev_payload := payload |}.

(** [add<E>]; [arg] is [args[inputTypeName]]. *)
Definition addResolver (arg : JValue) : Async Instance :=
  let* p := start (callCreate inputTypeName arg includeArrayModels)
            (create orm inputTypeName arg includeArrayModels) in
  let* newObject := await p in
  let* _ := when (subscriptions opts)
       (publish (eventOf "_ADDED" "Added" (payloadInstance newObject))) in
  ret newObject.

(** [delete<E>]; [where_] is the argument object of the field. *)
Definition deleteResolver (where_ : JObject) : Async Z :=
  let* p := start (callDestroy inputTypeName where_) (destroy orm inputTypeName where_) in
  let* deletedRows := await p in
  let* _ := when ((0 <? deletedRows) && subscriptions opts)
       (publish (eventOf "_DELETED" "Deleted"
                   (payloadValue (obj_get where_ (primaryKey model))))) in
  ret deletedRows.

(** The nested collections of one update: an entry of [includeArrayModels]
    whose model has a plural name that is a key of the input. *)
Definition upsertOf (input : JObject) (object2Update : option Instance)
    (m : Include) : option UpsertCall :=
  match options (inc_model m) with
  | Some o =>
      match name_plural o with
      | Some pl =>
          if negb (String.eqb pl "") && obj_has input pl
          then Some {| up_plural := pl;
                       up_array := obj_get input pl;
                       up_parent := object2Update;
                       up_foreignKey := inputTypeName ++ "_id";
                       up_parentKey := obj_get input (primaryKey model);
                       up_include := inc_include m |}
          else None
      | None => None
      end
  | None => None
  end.

(** What the elements of [promises] settle with. *)
Inductive Settled :=
| upserted (v : JValue)
| upsertedArray (ps : list (Outcome JValue))
| updated (i : Instance).

Definition settleWith {A} (f : A → Settled) (p : Outcome A) : Outcome Settled :=
  match p with
  | Fulfilled a => Fulfilled (f a)
  | Rejected => Rejected
  end.

(** How [Promise.all] takes an element of [promises] that the helper
    handed back: a promise stands for itself, any other value, an array of
    promises too, for a promise already fulfilled with that value. *)
Definition promiseResolve (r : HelperReturn) : Outcome Settled :=
  match r with
  | returnsPromise p => settleWith upserted p
  | returnsArray ps => Fulfilled (upsertedArray ps)
  end.

Definition startUpsert (c : UpsertCall) : Async (Outcome Settled) :=
  start (callUpsertArray c) (promiseResolve (upsertArray orm c)).

(** [object2Update.dataValues] once the update has settled: Sequelize's
    [update] changes the instance in place and fulfils with it. *)
Definition dataValuesAfter (object2Update : Instance) (ups : list Settled) : JObject :=
  match last ups with
  | Some (updated i) => dataValues i
  | _ => dataValues object2Update
  end.

(** [update<E>]; [arg] is [args[inputTypeName]], absent when the caller
    passed none. *)
Definition updateResolver (arg : option JObject) (context : Context)
    : Async (option Instance) :=
  match arg with
  | None => throwTypeError                    (* args[inputTypeName][key] *)
  | Some input =>
      let where_ := [(primaryKey model, obj_get input (primaryKey model))] in
      let ormOptions := {| u_where := where_;
                           u_include := includeArrayModels;
                           u_dataloader := batchingOf context |} in
      let* found := start (callFindOne inputTypeName ormOptions)
                    (findOne orm inputTypeName ormOptions) in
      let* object2Update := await found in
      let* nested := startAll startUpsert
                 (omap (upsertOf input object2Update) includeArrayModels) in
      match object2Update with
      | None => throwTypeError                (* null.update(...) *)
      | Some obj =>
          let* own := start (callUpdate obj input)
                      (settleWith updated (update orm obj input)) in
          let* ups := await (promiseAll (nested ++ [own])%list) in
          let* _ := when (subscriptions opts)
               (publish (eventOf "_UPDATED" "Updated"
                           (payloadObject (dataValuesAfter obj ups)))) in
          let* again := start (callResolver inputTypeName where_)
                        (refetch orm inputTypeName where_) in
          await again
      end
  end.

End Mutations.

(** ** Generated types (generator.js, 31-104) *)

(** A generated [GraphQLObjectType] / [GraphQLInputObjectType]. Its
    [fields] thunk closes over the model and over the registry [types]
    it was created with; the thunk is [fieldsOf] below, run against the
    registry as it is when the schema consumer reads the fields. *)
Record GeneratedType := {
  g_name : string;
  g_isInput : bool;
  g_model : Model;
  g_description : string;
}.

(** [types[k]], as a type expression. *)
Definition typeRef (types : gmap string GeneratedType) (k : string) : GraphQLType :=
  match types !! k with
  | Some g => GraphQLNamed (g_name g)
  | None => GraphQLUndefined
  end.

(** The type of the field of one association. [new GraphQLList] refuses
    an argument that is no type and throws: there is no type, [None], for
    a BelongsToMany or HasMany association whose target is not in
    [types]. Without the list, the undefined type is taken as it is. *)
Definition associationFieldType (types : gmap string GeneratedType)
    (relation : Association) : option GraphQLType :=
  if bool_decide (associationType relation = BelongsToMany) ||
     bool_decide (associationType relation = HasMany)
  then (λ g, GraphQLList (GraphQLNamed (g_name g))) <$> types !! target relation
  else Some (typeRef types (target relation)).

(** The loop over the associations, [fields] being what it has built. *)
Fixpoint associationFieldsLoop (fields : gmap string Field)
    (associations : list (string * Association))
    (types : gmap string GeneratedType) (isInput : bool) : Res (gmap string Field) :=
  match associations with
  | [] => Ok fields
  | (associationName, relation) :: rest =>
      match associationFieldType types relation with
      | Some type =>
          associationFieldsLoop
            (<[associationName :=
                 {| f_name := None; f_type := type; f_args := ∅;
                    f_resolve := if isInput then None
                                 else Some (resolverOfAssociation associationName) |}]>
               fields)
            rest types isInput
      | None => Throw                      (* new GraphQLList(undefined) *)
      end
  end.

Definition generateAssociationFields (associations : list (string * Association))
    (types : gmap string GeneratedType) (isInput : bool) : Res (gmap string Field) :=
  associationFieldsLoop ∅ associations types isInput.

Section Types.
Variable getProperTypeName : Model → ProperTypeName.
(** graphql-sequelize's type mapper, from a Sequelize data type to a scalar. *)
Variable toGraphQL : string → GraphQLType.

(** [attributeFields (model, { exclude, allowNull, cache })] of the
    graphql-sequelize library, which the generator calls: one field for
    each key of [model.rawAttributes] that is not in [exclude], non-null
    when nulls are not allowed and the attribute is a primary key or
    declares [allowNull: false]. The [cache] only shares enum types and
    does not change the set of fields. *)
Definition attributeFields (model : Model) (exclude : list string)
    (allowNull : bool) : gmap string Field :=
  foldl (λ memo '(key, attribute),
           if bool_decide (key ∈ exclude) then memo
           else
             let t := toGraphQL (attr_type attribute) in
             <[key :=
                 {| f_name := None;
                    f_type := if negb allowNull &&
                                 (bool_decide (attr_allowNull attribute = Some false) ||
                                  attr_primaryKey attribute)
                              then GraphQLNonNull t else t;
                    f_args := ∅;
                    f_resolve := None |}]> memo)
        ∅ (rawAttributes model).

Definition generateGraphQLType (model : Model) (isInput : bool) : GeneratedType :=
  let typeName := singular (upperFirst (getProperTypeName model)) in
  {| g_name := if isInput then typeName ++ "Input" else typeName;
     g_isInput := isInput;
     g_model := model;
     g_description := "The name of the model is " ++ name model ++
                      ", this comment is generated automatically." |}.

(** The [fields] thunk of a generated type: the attribute fields first,
    then the association fields, which may throw, assigned over them. *)
Definition fieldsOf (types : gmap string GeneratedType) (g : GeneratedType)
    : Res (gmap string Field) :=
  let attributes := attributeFields (g_model g) ["contrasena"] (g_isInput g) in
  match generateAssociationFields (associations (g_model g)) types (g_isInput g) with
  | Ok associationFields => Ok (associationFields ∪ attributes)
  | Throw => Throw
  | OutOfFuel => OutOfFuel
  end.

(** [generateModelTypes]: [models] in enumeration order, every entry being
    an object with a [name] of its own; both registries come out in
    insertion order. *)
Definition generateModelTypes (models : list (string * Model))
    : list (string * GeneratedType) * list (string * GeneratedType) :=
  let ours := filter (λ p, p.1 ≠ "Sequelize" ∧ p.1 ≠ "sequelize" ∧ p.1 ≠ "Op") models in
  (map (λ p, (p.1, generateGraphQLType p.2 false)) ours,
   map (λ p, (p.1, generateGraphQLType p.2 true)) ours).

End Types.

(** ** The query root (generator.js, 125-253) *)

(** The [query] directory found under [customsDirPath], if there is one:
    its entries in [readdirSync] order, each with the object its module
    exports. *)
Record CustomsDir := {
  queryFiles : option (list (string * Field));
  mutationFiles : option (list (string * Field));
}.

(** Truthiness of [options.customsDirPath] and of [objQuery['name']]. *)
Definition truthyString (s : option string) : bool :=
  match s with
  | Some s => negb (String.eqb s "")
  | None => false
  end.

(** The [forEach] over the files of a custom directory, writing into
    [customs]. *)
Definition discoverCustoms (files : list (string * Field))
    (customs : gmap string Field) : gmap string Field :=
  foldl (λ customs '(file, objQuery),
           if bool_decide (sliceLast 3 file ∈ [".js"; ".ts"]) then
             let objQuery :=
               if truthyString (f_name objQuery) then objQuery
               else {| f_name := Some (removeFirst ".ts" (removeFirst ".js" file));
                       f_type := f_type objQuery;
                       f_args := f_args objQuery;
                       f_resolve := f_resolve objQuery |} in
             <[default "" (f_name objQuery) := objQuery]> customs
           else customs)
        customs files.

Section QueryRoot.
Variable getProperTypeName : Model → ProperTypeName.
Variable defaultArgs : Model → gmap string GraphQLType.
Variable defaultListArgs : gmap string GraphQLType.
Variable models : gmap string Model.
Variable opts : SchemaOptions.
Variable dir : CustomsDir.

(** The loop over [options.resolvers.query]. *)
Definition inlineQueryCustoms (modelType : GeneratedType) (model : Model)
    (inline : list (string * InlineOverride)) : gmap string Field :=
  foldl (λ customs '(key, query),
           match query with
           | overrideField f => <[key := f]> customs
           | overrideFunction id =>
               <[key := {| f_name := None;
                           f_type := GraphQLList (GraphQLNamed (g_name modelType));
                           f_args := defaultListArgs ∪ defaultArgs model;
                           f_resolve := Some (userFunction id) |}]> customs
           end)
        ∅ inline.

Definition queryCustoms (modelType : GeneratedType) (model : Model) : gmap string Field :=
  let customs :=
    match options model with
    | Some o =>
        match resolvers_query o with
        | Some inline => inlineQueryCustoms modelType model inline
        | None => ∅
        end
    | None => ∅
    end in
  if truthyString (customsDirPath opts) then
    match queryFiles dir with
    | Some files => discoverCustoms files customs
    | None => customs
    end
  else customs.

(** The three fields generated for one entity, as the object literal
    lists them. *)
Definition generatedQueryFields (modelTypeName : string) (modelType : GeneratedType)
    (model : Model) : gmap string Field :=
  let lower := lowerFirst (getProperTypeName model) in
  <[singular lower ++ "Restful" :=
      {| f_name := None;
         f_type := GraphQLNamed (singular lower ++ "Result");
         f_args := <["order" := GraphQLList (GraphQLList GraphQLString)]>
                     (<["pageSize" := GraphQLInt]>
                        (<["page" := GraphQLInt]> (defaultArgs model)));
         f_resolve := Some (restfulResolve modelTypeName) |}]>
    (<[plural lower :=
         {| f_name := None;
            f_type := GraphQLList (GraphQLNamed (g_name modelType));
            f_args := defaultListArgs ∪ defaultArgs model;
            f_resolve := Some (resolverOfModel modelTypeName) |}]>
       (<[singular lower :=
            {| f_name := None;
               f_type := GraphQLNamed (g_name modelType);
               f_args := defaultArgs model;
               f_resolve := Some (resolverOfModel modelTypeName) |}]> ∅)).

(** One step of the [reduce]: [Object.assign (fields, generated, customs)]. *)
Definition queryStep (fields : gmap string Field)
    (entry : string * GeneratedType) : Res (gmap string Field) :=
  match models !! entry.1 with
  | None => Throw                          (* models[modelTypeName]['options'] *)
  | Some model =>
      Ok (queryCustoms entry.2 model ∪
          (generatedQueryFields entry.1 entry.2 model ∪ fields))
  end.

Fixpoint queryReduce (fields : gmap string Field)
    (outputTypes : list (string * GeneratedType)) : Res (gmap string Field) :=
  match outputTypes with
  | [] => Ok fields
  | entry :: rest =>
      match queryStep fields entry with
      | Ok fields' => queryReduce fields' rest
      | Throw => Throw
      | OutOfFuel => OutOfFuel
      end
  end.

(** The field set of the [Query] root type. *)
Definition generateQueryRootType (outputTypes : list (string * GeneratedType))
    : Res (gmap string Field) :=
  queryReduce ∅ outputTypes.

End QueryRoot.

(** ** Checking a registry

    The HasMany edges of a registry, listed, so that acyclicity and
    closedness of a concrete registry can be decided by evaluation. *)

Definition allEdges (models : gmap string Model) : list (string * string) :=
  map_to_list models ≫= λ am, (λ p, (am.1, target p.2)) <$> hasManyOf am.2.

(** ** A sample registry: A has many B, B has many C, C belongs to B *)

Definition idAttribute : Attribute :=
  {| attr_type := "INTEGER"; attr_allowNull := Some false; attr_primaryKey := true |}.
Definition textAttribute : Attribute :=
  {| attr_type := "STRING"; attr_allowNull := None; attr_primaryKey := false |}.

Definition modelA : Model :=
  {| name := "A"; primaryKeyAttributes := ["id"];
     rawAttributes := [("id", idAttribute); ("title", textAttribute)];
     associations := [("Bs", {| associationType := HasMany; target := "B" |})];
     options := None |}.
Definition modelB : Model :=
  {| name := "B"; primaryKeyAttributes := ["id"];
     rawAttributes := [("id", idAttribute); ("A_id", textAttribute)];
     associations := [("A", {| associationType := BelongsTo; target := "A" |});
                      ("Cs", {| associationType := HasMany; target := "C" |});
                      ("Ds", {| associationType := BelongsToMany; target := "A" |})];
     options := Some {| name_plural := Some "Bs";
                        resolvers_query := None; resolvers_mutation := None |} |}.
Definition modelC : Model :=
  {| name := "C"; primaryKeyAttributes := ["id"];
     rawAttributes := [("id", idAttribute)];
     associations := [("B", {| associationType := BelongsTo; target := "B" |})];
     options := None |}.

Definition sampleModels : gmap string Model :=
  list_to_map [("A", modelA); ("B", modelB); ("C", modelC)].

Definition sampleRank (s : string) : nat :=
  if String.eqb s "A" then 2%nat else if String.eqb s "B" then 1%nat else 0%nat.

(** A registry with a HasMany cycle: an entity that has many of itself. *)
Definition modelLoop : Model :=
  {| name := "L"; primaryKeyAttributes := ["id"];
     rawAttributes := [("id", idAttribute)];
     associations := [("children", {| associationType := HasMany; target := "L" |})];
     options := None |}.
Definition loopModels : gmap string Model := list_to_map [("L", modelLoop)].

(** What the claim about the cascade says of one entry: it pairs the
    target entity of a HasMany association with the cascade computed for
    that target. *)
Definition cascadeEntry (models : gmap string Model)
    (p : string * Association) (inc : Include) : Prop :=
  associationType p.2 = HasMany ∧
  models !! target p.2 = Some (inc_model inc) ∧
  ∃ fuel : nat, ∀ fuel' : nat, (fuel ≤ fuel')%nat →
    getDeepAssociations fuel' (target p.2) models = Ok (inc_include inc).

(** ** The statements about the [<e>Restful] resolver, in the spec's words *)

(** "limit = pageSize, defaulting to 10 when absent" *)
Definition specLimit (args : RestfulArgs) : Z := default 10 (a_pageSize args).

(** "page defaulting to 1 when absent" *)
Definition specPage (args : RestfulArgs) : Z := default 1 (a_page args).

(** "offset = (page - 1) x limit" *)
Definition specOffset (args : RestfulArgs) : Z := (specPage args - 1) * specLimit args.

(** "the value is rewritten into a pattern match condition instead of
    exact equality" when it contains the wildcard marker; the marker is
    looked for in the string the value converts to. *)
Definition likeIfWildcard (value : JValue) : JValue :=
  if includes "%" (toString value) then JOpLike value else value.

(** A store for the examples: one row with primary key 7 in every table. *)
Definition sampleRow : Instance :=
  {| inst_model := "A"; dataValues := [("id", JNum 7); ("title", JStr "seven")] |}.

Definition sampleOrm : Orm :=
  {| findAndCountAll := λ _ _, Fulfilled (1, [sampleRow]);
     create := λ n values _,
       match values with
       | JObj o => Fulfilled {| inst_model := n; dataValues := o |}
       | _ => Rejected
       end;
     destroy := λ _ where_,
       match obj_get where_ "id" with
       | JNum k => Fulfilled (if k =? 7 then 1 else 0)
       | _ => Rejected
       end;
     findOne := λ _ o,
       match obj_get (u_where o) "id" with
       | JNum k => Fulfilled (if k =? 7 then Some sampleRow else None)
       | _ => Rejected
       end;
     update := λ i values,
       Fulfilled {| inst_model := inst_model i; dataValues := values |};
     upsertArray := λ c,
       returnsPromise match up_array c with
                      | JArr _ => Fulfilled (up_array c)
                      | _ => Rejected
                      end;
     refetch := λ _ where_,
       match obj_get where_ "id" with
       | JNum k => Fulfilled (if k =? 7 then Some sampleRow else None)
       | _ => Rejected
       end |}.

(** The same store with a helper that hands back an array: one promise
    for each item of the collection. The store refuses the row with
    primary key 13, as it would a row against one of its constraints, and
    the promise of that item is rejected. *)
Definition arrayOrm : Orm :=
  {| findAndCountAll := findAndCountAll sampleOrm;
     create := create sampleOrm;
     destroy := destroy sampleOrm;
     findOne := findOne sampleOrm;
     update := update sampleOrm;
     upsertArray := λ c,
       returnsArray match up_array c with
                    | JArr items =>
                        map (λ item, match item with
                                     | JObj o =>
                                         match obj_get o "id" with
                                         | JNum 13 => Rejected
                                         | _ => Fulfilled item
                                         end
                                     | _ => Rejected
                                     end) items
                    | _ => []
                    end;
     refetch := refetch sampleOrm |}.

Definition noContext : Context := {| dataloaderContext := None |}.

(** ** The statements about the mutations *)

Definition isFulfilled {A} (p : Outcome A) : bool :=
  match p with
  | Fulfilled _ => true
  | Rejected => false
  end.

(** A naming for the examples: the entity name as it is, in upper case
    and with its first letter in lower case; the plural adds an s. *)
Definition upperChar (c : ascii) : ascii :=
  let n := nat_of_ascii c in
  if ((97 <=? n) && (n <=? 122))%nat then ascii_of_nat (n - 32) else c.
Definition lowerChar (c : ascii) : ascii :=
  let n := nat_of_ascii c in
  if ((65 <=? n) && (n <=? 90))%nat then ascii_of_nat (n + 32) else c.
Fixpoint mapString (f : ascii → ascii) (s : string) : string :=
  match s with
  | EmptyString => EmptyString
  | String c s' => String (f c) (mapString f s')
  end.
Definition lowerFirstOf (s : string) : string :=
  match s with
  | EmptyString => EmptyString
  | String c s' => String (lowerChar c) s'
  end.
Definition namesOf (s : string) : Names := {| singular := s; plural := s ++ "s" |}.
Definition sampleProperTypeName (m : Model) : ProperTypeName :=
  {| upperFirst := namesOf (name m);
     lowerFirst := namesOf (lowerFirstOf (name m));
     toUpperWithLodashes := namesOf (mapString upperChar (name m)) |}.

Definition withSubscriptions : SchemaOptions :=
  {| customsDirPath := None; subscriptions := true; pubSub := false |}.
Definition withoutSubscriptions : SchemaOptions :=
  {| customsDirPath := None; subscriptions := false; pubSub := false |}.

(** ** The statements about the query root *)

(** The directory-discovered resolvers, as a layer of their own. *)
Definition discoveredQueries (opts : SchemaOptions) (dir : CustomsDir) : gmap string Field :=
  if truthyString (customsDirPath opts) then
    match queryFiles dir with
    | Some files => discoverCustoms files ∅
    | None => ∅
    end
  else ∅.

(** The inline metadata overrides of one entity, as a layer of their own. *)
Definition inlineQueries (defaultArgs : Model → gmap string GraphQLType)
    (defaultListArgs : gmap string GraphQLType)
    (modelType : GeneratedType) (model : Model) : gmap string Field :=
  match options model with
  | Some o =>
      match resolvers_query o with
      | Some inline => inlineQueryCustoms defaultArgs defaultListArgs modelType model inline
      | None => ∅
      end
  | None => ∅
  end.

(** Sample data: an entity X with an inline query override named [x], a
    custom directory holding [x.js], and the generated field [x]. *)
Definition sampleDefaultArgs (m : Model) : gmap string GraphQLType :=
  {[ primaryKey m := GraphQLInt; "where" := GraphQLScalar "SequelizeJSON" ]}.
Definition sampleDefaultListArgs : gmap string GraphQLType :=
  {[ "limit" := GraphQLInt; "order" := GraphQLString;
     "where" := GraphQLScalar "SequelizeJSON"; "offset" := GraphQLInt ]}.
Definition sampleToGraphQL (t : string) : GraphQLType :=
  if String.eqb t "INTEGER" then GraphQLInt else GraphQLString.

Definition inlineX : Field :=
  {| f_name := None; f_type := GraphQLString; f_args := ∅;
     f_resolve := Some (userFunction "inline") |}.
Definition discoveredX : Field :=
  {| f_name := None; f_type := GraphQLString; f_args := ∅;
     f_resolve := Some (userFunction "discovered") |}.

Definition modelX : Model :=
  {| name := "X"; primaryKeyAttributes := ["id"];
     rawAttributes := [("id", idAttribute); ("nombre", textAttribute);
                       ("contrasena", textAttribute)];
     associations := [];
     options := Some {| name_plural := None;
                        resolvers_query := Some [("x", overrideField inlineX)];
                        resolvers_mutation := None |} |}.

Definition modelsX : gmap string Model := list_to_map [("X", modelX)].

Definition customsOn : SchemaOptions :=
  {| customsDirPath := Some "customs"; subscriptions := false; pubSub := false |}.
Definition customsOff : SchemaOptions :=
  {| customsDirPath := None; subscriptions := false; pubSub := false |}.

Definition dirX : CustomsDir :=
  {| queryFiles := Some [("x.js", discoveredX); ("notes.md", inlineX)];
     mutationFiles := None |}.

(** A registry with a dangling target: A has many Ghost, which is not
    registered. *)
Definition modelOrphan : Model :=
  {| name := "A"; primaryKeyAttributes := ["id"];
     rawAttributes := [("id", idAttribute)];
     associations := [("ghosts", {| associationType := HasMany; target := "Ghost" |})];
     options := None |}.
Definition danglingModels : gmap string Model := list_to_map [("A", modelOrphan)].

(** ** The statements about a custom directory *)

(** A file the directory loop keeps: its last three characters are [.js]
    or [.ts]. *)
Definition isScript (file : string) : bool :=
  bool_decide (sliceLast 3 file ∈ [".js"; ".ts"]).

(** The name a module is registered under: its own, when it has one, and
    else the name of its file without the extension. *)
Definition moduleName (file : string) (objQuery : Field) : string :=
  if truthyString (f_name objQuery) then default "" (f_name objQuery)
  else removeFirst ".ts" (removeFirst ".js" file).

(** The module as it is registered: carrying that name. *)
Definition namedModule (file : string) (objQuery : Field) : Field :=
  {| f_name := Some (moduleName file objQuery);
     f_type := f_type objQuery;
     f_args := f_args objQuery;
     f_resolve := f_resolve objQuery |}.

(** ** The mutation root (generator.js, 255-391)

    The resolvers of the three generated fields are [addResolver],
    [updateResolver] and [deleteResolver] above, closed over the model, its
    primary key and the cascade computed here; a field descriptor names
    them by [addResolve], [updateResolve] and [deleteResolve]. The
    descriptions of the fields are not carried by [Field]. *)

Section MutationRoot.
Variable getProperTypeName : Model → ProperTypeName.
Variable models : gmap string Model.
Variable outputTypes : gmap string GeneratedType.
Variable opts : SchemaOptions.
Variable dir : CustomsDir.

(** The loop over [options.resolvers.mutation]. *)
Definition inlineMutationCustoms (inputTypeName : string) (inputType : GeneratedType)
    (inline : list (string * InlineOverride)) : gmap string Field :=
  foldl (λ customs '(keyMutation, mutation),
           match mutation with
           | overrideField f => <[keyMutation := f]> customs
           | overrideFunction id =>
               <[keyMutation :=
                   {| f_name := None;
                      f_type := typeRef outputTypes inputTypeName;
                      f_args := {[ inputTypeName := GraphQLNamed (g_name inputType) ]};
                      f_resolve := Some (userFunction id) |}]> customs
           end)
        ∅ inline.

Definition mutationCustoms (inputTypeName : string) (inputType : GeneratedType)
    (model : Model) : gmap string Field :=
  let customs :=
    match options model with
    | Some o =>
        match resolvers_mutation o with
        | Some inline => inlineMutationCustoms inputTypeName inputType inline
        | None => ∅
        end
    | None => ∅
    end in
  if truthyString (customsDirPath opts) then
    match mutationFiles dir with
    | Some files => discoverCustoms files customs
    | None => customs
    end
  else customs.

Definition generatedMutationFields (inputTypeName : string) (inputType : GeneratedType)
    (model : Model) : gmap string Field :=
  let upper := upperFirst (getProperTypeName model) in
  <["delete" ++ singular upper :=
      {| f_name := None;
         f_type := GraphQLInt;
         f_args := {[ primaryKey model := GraphQLNonNull GraphQLInt ]};
         f_resolve := Some (deleteResolve inputTypeName) |}]>
    (<["update" ++ singular upper :=
         {| f_name := None;
            f_type := typeRef outputTypes inputTypeName;
            f_args := {[ inputTypeName := GraphQLNamed (g_name inputType) ]};
            f_resolve := Some (updateResolve inputTypeName) |}]>
       (<["add" ++ singular upper :=
            {| f_name := None;
               f_type := typeRef outputTypes inputTypeName;
               f_args := {[ inputTypeName := GraphQLNamed (g_name inputType) ]};
               f_resolve := Some (addResolve inputTypeName) |}]> ∅)).

(** One step of the [reduce]. The primary key is read off the model and
    the cascade is computed before anything is merged. *)
Definition mutationStep (fuel : nat) (fields : gmap string Field)
    (entry : string * GeneratedType) : Res (gmap string Field) :=
  match models !! entry.1 with
  | None => Throw                      (* models[inputTypeName].primaryKeyAttributes *)
  | Some model =>
      match getDeepAssociations fuel entry.1 models with
      | Ok includeArrayModels =>
          Ok (mutationCustoms entry.1 entry.2 model ∪
              (generatedMutationFields entry.1 entry.2 model ∪ fields))
      | Throw => Throw
      | OutOfFuel => OutOfFuel
      end
  end.

Fixpoint mutationReduce (fuel : nat) (fields : gmap string Field)
    (inputTypes : list (string * GeneratedType)) : Res (gmap string Field) :=
  match inputTypes with
  | [] => Ok fields
  | entry :: rest =>
      match mutationStep fuel fields entry with
      | Ok fields' => mutationReduce fuel fields' rest
      | Throw => Throw
      | OutOfFuel => OutOfFuel
      end
  end.

(** The field set of the [Mutation] root type. *)
Definition generateMutationRootType (fuel : nat)
    (inputTypes : list (string * GeneratedType)) : Res (gmap string Field) :=
  mutationReduce fuel ∅ inputTypes.

End MutationRoot.

(** ** The subscription root (generator.js, 393-419) *)

(** A subscription field: in place of a resolver it has [subscribe], which
    opens an iterator on the given topics of a bus. *)
Record SubscriptionField := {
  s_type : GraphQLType;
  s_description : string;
  s_bus : BusId;
  s_topics : list string;
}.

(** [s.replace(/ /g, '')] *)
Fixpoint removeSpaces (s : string) : string :=
  match s with
  | EmptyString => EmptyString
  | String c s' =>
      if Ascii.eqb c " " then removeSpaces s' else String c (removeSpaces s')
  end.

Section SubscriptionRoot.
(** lodash's [camelCase], [startCase] and [toUpper]. *)
Variable camelCase : string → string.
Variable startCase : string → string.
Variable toUpper : string → string.
Variable outputTypes : gmap string GeneratedType.
Variable opts : SchemaOptions.

(** The three fields of one entity, as the object literal lists them. *)
Definition subscriptionFieldsOf (inputTypeName : string) : gmap string SubscriptionField :=
  <[removeSpaces (camelCase inputTypeName ++ "Deleted") :=
      {| s_type := GraphQLInt;
         s_description := startCase (camelCase inputTypeName) ++
                          " subscription for deleted event";
         s_bus := myPubSub opts;
         s_topics := [toUpper inputTypeName ++ "_DELETED"] |}]>
    (<[removeSpaces (camelCase inputTypeName ++ "Updated") :=
         {| s_type := typeRef outputTypes inputTypeName;
            s_description := startCase (camelCase inputTypeName) ++
                             " subscription for updated event";
            s_bus := myPubSub opts;
            s_topics := [toUpper inputTypeName ++ "_UPDATED"] |}]>
       (<[removeSpaces (camelCase inputTypeName ++ "Added") :=
            {| s_type := typeRef outputTypes inputTypeName;
               s_description := startCase (camelCase inputTypeName) ++
                                " subscription for added event";
               s_bus := myPubSub opts;
               s_topics := [toUpper inputTypeName ++ "_ADDED"] |}]> ∅)).

(** The names of the three fields of an entity. *)
Definition isSubscriptionKey (n k : string) : Prop :=
  k = removeSpaces (camelCase n ++ "Added") ∨
  k = removeSpaces (camelCase n ++ "Updated") ∨
  k = removeSpaces (camelCase n ++ "Deleted").

(** The field set of the [Subscription] root type. *)
Definition generateSubscriptionRootType (inputTypes : list (string * GeneratedType))
    : gmap string SubscriptionField :=
  foldl (λ fields entry, subscriptionFieldsOf entry.1 ∪ fields) ∅ inputTypes.

End SubscriptionRoot.

(** ** generateSchema (generator.js, 437-451) *)

Record Schema := {
  schema_query : gmap string Field;
  schema_mutation : gmap string Field;
  schema_subscription : option (gmap string SubscriptionField);
}.

Section Schema.
Variable getProperTypeName : Model → ProperTypeName.
Variable defaultArgs : Model → gmap string GraphQLType.
Variable defaultListArgs : gmap string GraphQLType.
Variable camelCase : string → string.
Variable startCase : string → string.
Variable toUpper : string → string.

(** [models] is the registry in enumeration order, [types] the registries
    of generated types when the caller supplies them. *)
Definition generateSchema (fuel : nat) (models : list (string * Model))
    (types : option (list (string * GeneratedType) * list (string * GeneratedType)))
    (opts : SchemaOptions) (dir : CustomsDir) : Res Schema :=
  let modelTypes := default (generateModelTypes getProperTypeName models) types in
  match generateQueryRootType getProperTypeName defaultArgs defaultListArgs
          (list_to_map models) opts dir modelTypes.1 with
  | Ok queries =>
      match generateMutationRootType getProperTypeName (list_to_map models)
              (list_to_map modelTypes.1) opts dir fuel modelTypes.2 with
      | Ok mutations =>
          Ok {| schema_query := queries;
                schema_mutation := mutations;
                schema_subscription :=
                  if subscriptions opts
                  then Some (generateSubscriptionRootType camelCase startCase toUpper
                               (list_to_map modelTypes.1) opts modelTypes.2)
                  else None |}
      | Throw => Throw
      | OutOfFuel => OutOfFuel
      end
  | Throw => Throw
  | OutOfFuel => OutOfFuel
  end.

End Schema.

(** The statements about the mutation root: its layers, as for the query
    root. *)
Definition discoveredMutations (opts : SchemaOptions) (dir : CustomsDir) : gmap string Field :=
  if truthyString (customsDirPath opts) then
    match mutationFiles dir with
    | Some files => discoverCustoms files ∅
    | None => ∅
    end
  else ∅.

Definition inlineMutations (outputTypes : gmap string GeneratedType)
    (inputTypeName : string) (inputType : GeneratedType) (model : Model)
    : gmap string Field :=
  match options model with
  | Some o =>
      match resolvers_mutation o with
      | Some inline => inlineMutationCustoms outputTypes inputTypeName inputType inline
      | None => ∅
      end
  | None => ∅
  end.

(** An entity that is one of the user's: not one of the three reserved
    entries of the registry. *)
Definition isUserEntity (k : string) : Prop :=
  k ≠ "Sequelize" ∧ k ≠ "sequelize" ∧ k ≠ "Op".

(** Sample data for the mutation root: an entity M whose inline mutation
    overrides have the names of its generated [addM] and [updateM]
    fields, and a custom directory holding [addM.js]. *)
Definition modelM : Model :=
  {| name := "M"; primaryKeyAttributes := ["id"];
     rawAttributes := [("id", idAttribute)];
     associations := [];
     options := Some {| name_plural := None;
                        resolvers_query := None;
                        resolvers_mutation :=
                          Some [("addM", overrideField inlineX);
                                ("updateM", overrideField inlineX)] |} |}.
Definition modelsM : gmap string Model := list_to_map [("M", modelM)].
Definition dirM : CustomsDir :=
  {| queryFiles := None;
     mutationFiles := Some [("addM.js", discoveredX)] |}.

(** * Properties *)

(** ** The HasMany cascade *)

Section Cascade.
Variable models : gmap string Model.

Abbreviation edge := (hasManyEdge models).

Lemma collectIncludes_filter rec assocs acc :
  collectIncludes rec models assocs acc =
  collectIncludes rec models (filter (λ p, isHasMany p.2 = true) assocs) acc.
Proof.
  revert acc. induction assocs as [|[an r] rest IH]; intros acc; [done|].
  rewrite filter_cons. cbn [collectIncludes snd].
  destruct (isHasMany r) eqn:Hr.
  - rewrite decide_True by done. cbn [collectIncludes]. rewrite Hr.
    destruct (rec (target r)); [|done..].
    destruct (models !! target r); [apply IH|done].
  - rewrite decide_False by (by intros ?). apply IH.
Qed.

(** The loop does not depend on how much fuel the recursive calls have,
    as long as they return. *)
Lemma collectIncludes_mono rec1 rec2 assocs acc :
  (∀ t, rec1 t ≠ OutOfFuel → rec2 t = rec1 t) →
  collectIncludes rec1 models assocs acc ≠ OutOfFuel →
  collectIncludes rec2 models assocs acc = collectIncludes rec1 models assocs acc.
Proof.
  intros Hrec. revert acc.
  induction assocs as [|[an r] rest IH]; intros acc; [done|].
  cbn [collectIncludes]. destruct (isHasMany r); [|apply IH].
  destruct (rec1 (target r)) as [inc| |] eqn:H1.
  - rewrite Hrec, H1 by (rewrite H1; done).
    destruct (models !! target r); [apply IH|done].
  - rewrite Hrec, H1 by (rewrite H1; done). done.
  - done.
Qed.

Lemma getDeepAssociations_mono (fuel fuel' : nat) a :
  (fuel ≤ fuel')%nat →
  getDeepAssociations fuel a models ≠ OutOfFuel →
  getDeepAssociations fuel' a models = getDeepAssociations fuel a models.
Proof.
  revert fuel' a. induction fuel as [|fuel IH]; intros fuel' a Hle Hdef; [done|].
  destruct fuel' as [|fuel']; [lia|].
  cbn [getDeepAssociations] in *.
  destruct (models !! a) as [m|]; [|done].
  apply collectIncludes_mono; [|done].
  intros t Ht. apply IH; [lia|done].
Qed.

(** What the loop appends: one entry per HasMany association, in order. *)
Lemma collectIncludes_entries rec assocs acc l :
  collectIncludes rec models assocs acc = Ok l →
  ∃ l', l = (acc ++ l')%list ∧
    Forall2 (λ p inc, associationType p.2 = HasMany ∧
                      models !! target p.2 = Some (inc_model inc) ∧
                      rec (target p.2) = Ok (inc_include inc))
            (filter (λ p, isHasMany p.2 = true) assocs) l'.
Proof.
  revert acc. induction assocs as [|[an r] rest IH]; intros acc H.
  - exists []. cbn in H. injection H as <-. by rewrite app_nil_r.
  - rewrite filter_cons. cbn [collectIncludes snd] in *.
    destruct (isHasMany r) eqn:Hr.
    + rewrite decide_True by done.
      destruct (rec (target r)) as [inc| |] eqn:Hrec; [|done..].
      destruct (models !! target r) as [tm|] eqn:Htm; [|done].
      destruct (IH _ H) as (l' & -> & HF).
      exists (mkInclude tm inc :: l'). split.
      * by rewrite <- app_assoc.
      * constructor; [|done]. cbn. rewrite Htm.
        by apply bool_decide_eq_true in Hr.
    + rewrite decide_False by (by intros ?). by apply IH.
Qed.

(** The loop returns once every recursive call does. *)
Lemma collectIncludes_defined rec assocs acc :
  (∀ an r, (an, r) ∈ assocs → associationType r = HasMany →
           rec (target r) ≠ OutOfFuel) →
  collectIncludes rec models assocs acc ≠ OutOfFuel.
Proof.
  revert acc. induction assocs as [|[an r] rest IH]; intros acc Hrec; [done|].
  cbn [collectIncludes]. destruct (isHasMany r) eqn:Hr.
  - apply bool_decide_eq_true in Hr.
    specialize (Hrec an r (list_elem_of_here _ _) Hr) as Hr'.
    destruct (rec (target r)); [|done..].
    destruct (models !! target r); [|done].
    apply IH. intros an' r' Hin' ?. apply (Hrec an' r'); [by right|done].
  - apply IH. intros an' r' Hin' ?. apply (Hrec an' r'); [by right|done].
Qed.

Lemma collectIncludes_no_throw rec assocs acc :
  (∀ an r, (an, r) ∈ assocs → associationType r = HasMany →
           rec (target r) ≠ Throw ∧ is_Some (models !! target r)) →
  collectIncludes rec models assocs acc ≠ Throw.
Proof.
  revert acc. induction assocs as [|[an r] rest IH]; intros acc Hrec; [done|].
  cbn [collectIncludes]. destruct (isHasMany r) eqn:Hr.
  - apply bool_decide_eq_true in Hr.
    destruct (Hrec an r (list_elem_of_here _ _) Hr) as [Hr' [tm Htm]].
    destruct (rec (target r)); [|done..].
    rewrite Htm. apply IH. intros an' r' Hin' ?. apply (Hrec an' r'); [by right|done].
  - apply IH. intros an' r' Hin' ?. apply (Hrec an' r'); [by right|done].
Qed.

Lemma closedFrom_step a b : closedFrom models a → edge a b → closedFrom models b.
Proof. intros Hc He c Hbc. apply Hc. by eapply rtc_l. Qed.

Lemma acyclicFrom_step a b : acyclicFrom models a → edge a b → acyclicFrom models b.
Proof. intros Hc He c Hbc. apply Hc. by eapply rtc_l. Qed.

Lemma getDeepAssociations_no_throw fuel a :
  closedFrom models a → getDeepAssociations fuel a models ≠ Throw.
Proof.
  revert a. induction fuel as [|fuel IH]; intros a Hc; [done|].
  cbn [getDeepAssociations].
  destruct (Hc a (rtc_refl _ _)) as [m Hm]. rewrite Hm.
  apply collectIncludes_no_throw. intros an r Hin Hr.
  assert (edge a (target r)) as He by (by exists m, an, r).
  split.
  - apply IH. by eapply closedFrom_step.
  - apply Hc. by apply rtc_once.
Qed.

(** Registered names without repetition are no more than the registry holds. *)
Lemma registered_length (path : list string) :
  NoDup path → (∀ p, p ∈ path → is_Some (models !! p)) →
  (length path ≤ size models)%nat.
Proof.
  intros Hnd Hin.
  rewrite <- length_map_to_list, <- (length_fmap fst).
  apply submseteq_length, NoDup_submseteq; [done|].
  intros p [m Hm]%Hin. apply list_elem_of_fmap. exists (p, m).
  split; [done|]. by apply elem_of_map_to_list.
Qed.

(** Along a descent, the entities on the way down are pairwise distinct,
    so the descent is no deeper than the registry is large. *)
Lemma getDeepAssociations_defined (n : nat) : ∀ path a,
  acyclicFrom models a →
  NoDup path →
  (∀ p, p ∈ path → tc edge p a) →
  (∀ p, p ∈ path → is_Some (models !! p)) →
  (size models < length path + n)%nat →
  getDeepAssociations n a models ≠ OutOfFuel.
Proof.
  induction n as [|n IH]; intros path a Hacyc Hnd Hreach Hreg Hsize.
  - pose proof (registered_length path Hnd Hreg). lia.
  - cbn [getDeepAssociations].
    destruct (models !! a) as [m|] eqn:Hm; [|done].
    assert (a ∉ path) as Hfresh.
    { intros Hin. apply (Hacyc a (rtc_refl _ _)). by apply Hreach. }
    apply collectIncludes_defined. intros an r Hin Hr.
    assert (edge a (target r)) as He by (by exists m, an, r).
    apply (IH (a :: path)).
    + by eapply acyclicFrom_step.
    + by constructor.
    + intros p [->|Hp]%elem_of_cons; [by apply tc_once|].
      eapply tc_r; [by apply Hreach|done].
    + intros p [->|Hp]%elem_of_cons; [by eexists|by apply Hreg].
    + cbn [length]. lia.
Qed.

Lemma getDeepAssociations_chain a ns :
  isChain models (a :: ns) →
  getDeepAssociations (S (length ns)) a models = Ok (chainCascade models (a :: ns)).
Proof.
  revert a. induction ns as [|b ns IH]; intros a (m & Hm & Hrest).
  - cbn [getDeepAssociations length]. rewrite Hm, collectIncludes_filter.
    unfold hasManyOf in Hrest. by rewrite Hrest.
  - destruct Hrest as [(an & r & Hone & <-) Hchain].
    specialize (IH _ Hchain).
    change (getDeepAssociations (S (length (target r :: ns))) a models)
      with (match models !! a with
            | None => Throw
            | Some m => collectIncludes
                          (λ t, getDeepAssociations (S (length ns)) t models)
                          models (associations m) []
            end).
    rewrite Hm, collectIncludes_filter.
    unfold hasManyOf in Hone. rewrite Hone. cbn [collectIncludes].
    assert (isHasMany r = true) as ->.
    { assert ((an, r) ∈ filter (λ p, isHasMany p.2 = true) (associations m)) as Hin
        by (rewrite Hone; left).
      by apply list_elem_of_filter in Hin as [? _]. }
    rewrite IH. destruct Hchain as (mb & Hmb & _).
    cbn [chainCascade]. by rewrite Hmb.
Qed.

End Cascade.

Section CascadeChecks.
Variable models : gmap string Model.

Lemma hasManyEdge_allEdges a b :
  hasManyEdge models a b ↔ (a, b) ∈ allEdges models.
Proof.
  unfold allEdges, hasManyEdge, hasManyOf. rewrite list_elem_of_bind. split.
  - intros (m & an & r & Hm & Hin & Hr & <-).
    exists (a, m). split; [|by apply elem_of_map_to_list].
    apply list_elem_of_fmap. exists (an, r). split; [done|].
    apply list_elem_of_filter. split; [|done].
    by apply bool_decide_eq_true.
  - intros ([a' m] & Hin & Hm%elem_of_map_to_list).
    apply list_elem_of_fmap in Hin as ([an r] & [= -> ->] & Hin).
    apply list_elem_of_filter in Hin as [Hr%bool_decide_eq_true Hin].
    by exists m, an, r.
Qed.

(** A rank that drops along every edge rules out cycles. *)
Lemma ranked_acyclic (rank : string → nat) a :
  Forall (λ e, (rank e.2 < rank e.1)%nat) (allEdges models) →
  acyclicFrom models a.
Proof.
  intros Hrank b _ Hcyc.
  assert (∀ x y, tc (hasManyEdge models) x y → (rank y < rank x)%nat) as Htc.
  { intros x y Hxy. induction Hxy as [x y He|x y z He _ IH].
    - apply hasManyEdge_allEdges in He.
      by apply (proj1 (Forall_forall _ _) Hrank (x, y)).
    - apply hasManyEdge_allEdges in He.
      pose proof (proj1 (Forall_forall _ _) Hrank (x, y) He). cbn in *. lia. }
  specialize (Htc _ _ Hcyc). lia.
Qed.

Lemma targets_closed a :
  is_Some (models !! a) →
  Forall (λ e, is_Some (models !! e.2)) (allEdges models) →
  closedFrom models a.
Proof.
  intros Ha Hall b Hab. apply rtc_tc in Hab as [<-|Hab]; [done|].
  assert (∃ c, hasManyEdge models c b) as [c He].
  { clear Ha. induction Hab as [x y He|x y z _ _ IH]; [by exists x|done]. }
  apply hasManyEdge_allEdges in He.
  by apply (proj1 (Forall_forall _ _) Hall (c, b)).
Qed.

End CascadeChecks.

(** The result of the cascade, once it returns, has one entry per HasMany
    association of the entity, in their order. *)
Lemma getDeepAssociations_entries models fuel a m l :
  getDeepAssociations fuel a models = Ok l →
  models !! a = Some m →
  Forall2 (cascadeEntry models) (hasManyOf m) l.
Proof.
  intros Hl Hm. destruct fuel as [|fuel]; [done|].
  cbn [getDeepAssociations] in Hl. rewrite Hm in Hl.
  apply collectIncludes_entries in Hl as (l' & -> & HF). cbn [app].
  eapply Forall2_impl; [exact HF|].
  intros [an r] inc (Hr & Htm & Hrec). repeat split; [done..|].
  exists fuel. intros fuel' Hle. cbn [snd] in *.
  rewrite <- Hrec. apply getDeepAssociations_mono; [done|]. by rewrite Hrec.
Qed.

(** C7, as the code has it. For a registry without dangling targets and
    a registered entity whose reachable HasMany graph is acyclic, the
    cascade returns, and what it returns has exactly one entry per
    HasMany association of the entity,
    in their order, each pairing the target entity with the cascade
    computed for that target; associations of another kind give no entry.
    In particular, when A has many B and B has many C, the cascade of A
    holds an entry for B whose nested cascade holds an entry for C. *)
Theorem cascade_one_entry_per_HasMany (models : gmap string Model) (A : string) (m : Model) :
  models !! A = Some m →
  acyclicFrom models A →
  closedFrom models A →
  ∃ l, (∀ fuel : nat, (size models < fuel)%nat →
          getDeepAssociations fuel A models = Ok l) ∧
       (∀ (fuel : nat) l', getDeepAssociations fuel A models = Ok l' → l' = l) ∧
       Forall2 (cascadeEntry models) (hasManyOf m) l ∧
       (∀ p, p ∈ associations m → associationType p.2 ≠ HasMany → p ∉ hasManyOf m) ∧
       (∀ an r bn r' b c,
          (an, r) ∈ associations m → associationType r = HasMany →
          models !! target r = Some b →
          (bn, r') ∈ associations b → associationType r' = HasMany →
          models !! target r' = Some c →
          ∃ incB, incB ∈ l ∧ inc_model incB = b ∧
            ∃ incC, incC ∈ inc_include incB ∧ inc_model incC = c).
Proof.
  intros Hm Hacyc Hclosed.
  pose proof (getDeepAssociations_defined models (S (size models)) [] A Hacyc
                (NoDup_nil_2) (λ p Hp, False_ind _ (not_elem_of_nil p Hp))
                (λ p Hp, False_ind _ (not_elem_of_nil p Hp))
                ltac:(cbn; lia)) as Hdef.
  pose proof (getDeepAssociations_no_throw models (S (size models)) A Hclosed) as Hnt.
  destruct (getDeepAssociations (S (size models)) A models) as [l| |] eqn:Hl; [|done..].
  exists l.
  assert (∀ fuel : nat, (size models < fuel)%nat →
            getDeepAssociations fuel A models = Ok l) as Hfuel.
  { intros fuel Hlt. rewrite <- Hl.
    apply getDeepAssociations_mono; [lia|]. by rewrite Hl. }
  pose proof (getDeepAssociations_entries _ _ _ _ _ Hl Hm) as HF.
  split; [done|]. split.
  { intros fuel l' Hl'.
    assert (getDeepAssociations (fuel + S (size models)) A models = Ok l') as H1.
    { rewrite <- Hl'. apply getDeepAssociations_mono; [lia|]. by rewrite Hl'. }
    rewrite Hfuel in H1 by lia. by injection H1. }
  split; [done|]. split.
  { intros p _ Hp [Hh _]%list_elem_of_filter.
    by apply bool_decide_eq_true in Hh. }
  intros an r bn r' b c Hin Hr Hb Hin' Hr' Hc.
  assert ((an, r) ∈ hasManyOf m) as Hf.
  { apply list_elem_of_filter. split; [by apply bool_decide_eq_true|done]. }
  apply list_elem_of_lookup_1 in Hf as [i Hi].
  destruct (Forall2_lookup_l _ _ _ _ _ HF Hi) as (incB & HiB & _ & HmB & fB & HfB).
  cbn [snd] in *. exists incB. split; [by eapply list_elem_of_lookup_2|].
  split; [congruence|].
  pose proof (getDeepAssociations_entries _ _ _ _ _ (HfB fB (le_n _)) Hb) as HFB.
  assert ((bn, r') ∈ hasManyOf b) as Hf'.
  { apply list_elem_of_filter. split; [by apply bool_decide_eq_true|done]. }
  apply list_elem_of_lookup_1 in Hf' as [j Hj].
  destruct (Forall2_lookup_l _ _ _ _ _ HFB Hj) as (incC & HjC & _ & HmC & _).
  cbn [snd] in *. exists incC. split; [by eapply list_elem_of_lookup_2|congruence].
Qed.

Lemma cascade_one_entry_per_HasMany_witness :
  ∃ l, (∀ fuel : nat, (size sampleModels < fuel)%nat →
          getDeepAssociations fuel "A" sampleModels = Ok l) ∧
       (∀ (fuel : nat) l', getDeepAssociations fuel "A" sampleModels = Ok l' → l' = l) ∧
       Forall2 (cascadeEntry sampleModels) (hasManyOf modelA) l ∧
       (∀ p, p ∈ associations modelA → associationType p.2 ≠ HasMany →
             p ∉ hasManyOf modelA) ∧
       (∀ an r bn r' b c,
          (an, r) ∈ associations modelA → associationType r = HasMany →
          sampleModels !! target r = Some b →
          (bn, r') ∈ associations b → associationType r' = HasMany →
          sampleModels !! target r' = Some c →
          ∃ incB, incB ∈ l ∧ inc_model incB = b ∧
            ∃ incC, incC ∈ inc_include incB ∧ inc_model incC = c).
Proof.
  apply (cascade_one_entry_per_HasMany sampleModels "A" modelA).
  - reflexivity.
  - apply (ranked_acyclic sampleModels sampleRank).
    vm_compute. repeat constructor.
  - apply targets_closed; [by eexists|].
    vm_compute. repeat constructor; by eexists.
Defined.

(** The claim for every entity map, refuted: for the entity that has many
    of itself the cascade returns no list at all, so none with one entry
    per HasMany association. *)
Lemma cascade_one_entry_per_HasMany_counterexample :
  loopModels !! "L" = Some modelLoop ∧
  hasManyOf modelLoop =
    [("children", {| associationType := HasMany; target := "L" |})] ∧
  ¬ ∃ (fuel : nat) l, getDeepAssociations fuel "L" loopModels = Ok l.
Proof.
  split; [reflexivity|]. split; [reflexivity|].
  intros (fuel & l & Hl). revert l Hl.
  induction fuel as [|fuel IH]; intros l Hl; [done|].
  assert (loopModels !! "L" = Some modelLoop) as Hm by reflexivity.
  cbn [getDeepAssociations] in Hl. rewrite Hm in Hl.
  cbn [associations modelLoop collectIncludes target] in Hl.
  change (isHasMany {| associationType := HasMany; target := "L" |}) with true in Hl.
  cbn beta iota in Hl.
  destruct (getDeepAssociations fuel "L" loopModels) as [inner| |] eqn:Hinner;
    [|done..].
  by apply (IH inner).
Qed.

Example cascade_of_A :
  getDeepAssociations 3 "A" sampleModels =
  Ok [mkInclude modelB [mkInclude modelC []]].
Proof. reflexivity. Qed.

(** C9. The cascade terminates for every entity whose reachable HasMany
    graph is acyclic: with more fuel than the registry has entities it
    returns one and the same result, which is a list as soon as no target
    is dangling, the empty list for an entity without HasMany
    associations, and the nested chain for a HasMany chain of any
    length. *)
Theorem cascade_terminates_when_acyclic (models : gmap string Model) (A : string) :
  acyclicFrom models A →
  ∃ r, r ≠ OutOfFuel ∧
       (∀ fuel : nat, (size models < fuel)%nat →
          getDeepAssociations fuel A models = r) ∧
       (closedFrom models A → ∃ l, r = Ok l) ∧
       (∀ m, models !! A = Some m → hasManyOf m = [] → r = Ok []) ∧
       (∀ ns, isChain models (A :: ns) → r = Ok (chainCascade models (A :: ns))).
Proof.
  intros Hacyc.
  pose proof (getDeepAssociations_defined models (S (size models)) [] A Hacyc
                (NoDup_nil_2) (λ p Hp, False_ind _ (not_elem_of_nil p Hp))
                (λ p Hp, False_ind _ (not_elem_of_nil p Hp))
                ltac:(cbn; lia)) as Hdef.
  exists (getDeepAssociations (S (size models)) A models).
  assert (∀ fuel : nat, (size models < fuel)%nat →
            getDeepAssociations fuel A models =
            getDeepAssociations (S (size models)) A models) as Hfuel.
  { intros fuel Hlt. apply getDeepAssociations_mono; [lia|done]. }
  assert (∀ ns, isChain models (A :: ns) →
            getDeepAssociations (S (size models)) A models =
            Ok (chainCascade models (A :: ns))) as Hchain.
  { intros ns Hns. apply getDeepAssociations_chain in Hns.
    rewrite <- (Hfuel (S (size models) + S (length ns))%nat) by lia.
    rewrite <- Hns. apply getDeepAssociations_mono; [lia|]. by rewrite Hns. }
  split; [done|]. split; [done|]. split; [|split; [|done]].
  - intros Hclosed.
    pose proof (getDeepAssociations_no_throw models (S (size models)) A Hclosed).
    destruct (getDeepAssociations (S (size models)) A models); [by eexists|done..].
  - intros m Hm Hnone. apply (Hchain []). by exists m.
Qed.

Lemma cascade_terminates_when_acyclic_witness :
  ∃ r, r ≠ OutOfFuel ∧
       (∀ fuel : nat, (size sampleModels < fuel)%nat →
          getDeepAssociations fuel "A" sampleModels = r) ∧
       (closedFrom sampleModels "A" → ∃ l, r = Ok l) ∧
       (∀ m, sampleModels !! "A" = Some m → hasManyOf m = [] → r = Ok []) ∧
       (∀ ns, isChain sampleModels ("A" :: ns) →
              r = Ok (chainCascade sampleModels ("A" :: ns))).
Proof.
  apply (cascade_terminates_when_acyclic sampleModels "A").
  apply (ranked_acyclic sampleModels sampleRank).
  vm_compute. repeat constructor.
Defined.

(** The sample registry is a chain of depth two below A. *)
Example sample_chain : isChain sampleModels ["A"; "B"; "C"].
Proof.
  exists modelA. split; [done|]. split; [by eexists _, _|].
  exists modelB. split; [done|]. split; [by eexists _, _|].
  by exists modelC.
Qed.

(** Without the acyclicity the recursion does not return: an entity that
    has many of itself exhausts any fuel. *)
Example cascade_of_a_cycle (fuel : nat) :
  getDeepAssociations fuel "L" loopModels = OutOfFuel.
Proof.
  induction fuel as [|fuel IH]; [done|].
  assert (loopModels !! "L" = Some modelLoop) as Hl by reflexivity.
  cbn [getDeepAssociations]. rewrite Hl.
  cbn [associations modelLoop collectIncludes target].
  rewrite IH. reflexivity.
Qed.

(** ** JavaScript objects *)

Lemma obj_get_set_eq o key v : obj_get (obj_set o key v) key = v.
Proof.
  induction o as [|[k w] rest IH]; cbn.
  - by rewrite String.eqb_refl.
  - destruct (String.eqb k key) eqn:E; cbn; by rewrite E.
Qed.

Lemma obj_get_set_ne o key key' v :
  key ≠ key' → obj_get (obj_set o key v) key' = obj_get o key'.
Proof.
  intros Hne. induction o as [|[k w] rest IH]; cbn.
  - by apply String.eqb_neq in Hne as ->.
  - destruct (String.eqb k key) eqn:E; cbn.
    + apply String.eqb_eq in E as ->. by apply String.eqb_neq in Hne as ->.
    + by rewrite IH.
Qed.

Lemma obj_keys_set o key v :
  key ∈ obj_keys o → obj_keys (obj_set o key v) = obj_keys o.
Proof.
  unfold obj_keys. induction o as [|[k w] rest IH]; cbn; intros Hin.
  - by apply not_elem_of_nil in Hin.
  - destruct (String.eqb k key) eqn:E; cbn; [done|].
    apply String.eqb_neq in E. apply elem_of_cons in Hin as [->|Hin]; [done|].
    by rewrite IH.
Qed.

(** ** The [<e>Restful] resolver *)

Lemma likeIfWildcard_idemp v : likeIfWildcard (likeIfWildcard v) = likeIfWildcard v.
Proof.
  unfold likeIfWildcard.
  destruct (includes "%" (toString v)) eqn:E; [reflexivity|by rewrite E].
Qed.

Lemma parseWhere_step key rest o :
  parseWhere (key :: rest) o =
  parseWhere rest
    (if includes "%" (toString (obj_get o key))
     then obj_set o key (likeIfWildcard (obj_get o key)) else o).
Proof.
  cbn [parseWhere]. unfold likeIfWildcard.
  by destruct (includes "%" (toString (obj_get o key))).
Qed.

(** The loop rewrites the keys it visits and leaves the rest alone. *)
Lemma parseWhere_spec keys : ∀ o,
  (∀ k, k ∈ keys → k ∈ obj_keys o) →
  obj_keys (parseWhere keys o) = obj_keys o ∧
  ∀ key, obj_get (parseWhere keys o) key =
         if decide (key ∈ keys) then likeIfWildcard (obj_get o key)
         else obj_get o key.
Proof.
  induction keys as [|k rest IH]; intros o Hin.
  - split; [done|]. intros key. by rewrite decide_False by apply not_elem_of_nil.
  - rewrite parseWhere_step.
    assert (k ∈ obj_keys o) as Hk by (apply Hin; left).
    set (o' := if includes "%" (toString (obj_get o k))
               then obj_set o k (likeIfWildcard (obj_get o k)) else o).
    assert (obj_keys o' = obj_keys o) as Hkeys.
    { unfold o'. destruct (includes "%" _); [by apply obj_keys_set|done]. }
    assert (obj_get o' k = likeIfWildcard (obj_get o k)) as Hgk.
    { unfold o'. destruct (includes "%" _) eqn:E; [apply obj_get_set_eq|].
      unfold likeIfWildcard. by rewrite E. }
    assert (∀ key, key ≠ k → obj_get o' key = obj_get o key) as Hgo.
    { intros key Hne. unfold o'.
      destruct (includes "%" _); [by apply obj_get_set_ne|done]. }
    destruct (IH o') as [IHk IHg].
    { intros k' Hk'. rewrite Hkeys. apply Hin. by right. }
    split; [by rewrite IHk|].
    intros key. rewrite IHg.
    destruct (decide (key = k)) as [->|Hne].
    + rewrite (decide_True (P := k ∈ k :: rest)) by left.
      rewrite Hgk. destruct (decide (k ∈ rest)); [apply likeIfWildcard_idemp|done].
    + rewrite Hgo by done.
      destruct (decide (key ∈ rest)) as [Hr|Hr].
      * by rewrite decide_True by (by right).
      * rewrite decide_False; [done|].
        by intros [?|?]%elem_of_cons.
Qed.

(** C3. In the [<e>Restful] resolver the [where] object handed to the
    store has the keys of the supplied filter; every key whose value
    contains the wildcard marker [%] carries the pattern-match condition
    [{ [Op.like]: value }], every other key carries its value unchanged,
    which the store reads as exact equality. *)
Theorem restful_filter_wildcards (orm : Orm) (modelTypeName : string)
    (args : RestfulArgs) (context : Context) (filter_ : JObject) :
  a_where args = Some filter_ →
  ∃ parsed,
    issuedCalls (effects (restfulResolver orm modelTypeName args context)) =
      [callFindAndCountAll modelTypeName (restfulOptions args context)] ∧
    o_where (restfulOptions args context) = Some parsed ∧
    obj_keys parsed = obj_keys filter_ ∧
    ∀ key, key ∈ obj_keys filter_ →
      let value := obj_get filter_ key in
      (includes "%" (toString value) = true → obj_get parsed key = JOpLike value) ∧
      (includes "%" (toString value) = false → obj_get parsed key = value).
Proof.
  intros Hw. exists (parseWhere (obj_keys filter_) filter_).
  destruct (parseWhere_spec (obj_keys filter_) filter_) as [Hkeys Hget]; [done|].
  split.
  { unfold restfulResolver, start, await, bind, ret. cbn.
    by destruct (findAndCountAll orm _ _). }
  split; [by unfold restfulOptions; rewrite Hw|].
  split; [done|].
  intros key Hin value. rewrite Hget, decide_True by done.
  unfold likeIfWildcard. fold value. split; by intros ->.
Qed.

Lemma restful_filter_wildcards_witness :
  ∃ parsed,
    issuedCalls (effects (restfulResolver sampleOrm "A"
       {| a_where := Some [("title", JStr "se%"); ("id", JNum 7)];
          a_order := None; a_page := None; a_pageSize := None |} noContext)) =
      [callFindAndCountAll "A" (restfulOptions
         {| a_where := Some [("title", JStr "se%"); ("id", JNum 7)];
            a_order := None; a_page := None; a_pageSize := None |} noContext)] ∧
    o_where (restfulOptions
       {| a_where := Some [("title", JStr "se%"); ("id", JNum 7)];
          a_order := None; a_page := None; a_pageSize := None |} noContext) =
      Some parsed ∧
    obj_keys parsed = ["title"; "id"] ∧
    ∀ key, key ∈ ["title"; "id"] →
      let value := obj_get [("title", JStr "se%"); ("id", JNum 7)] key in
      (includes "%" (toString value) = true → obj_get parsed key = JOpLike value) ∧
      (includes "%" (toString value) = false → obj_get parsed key = value).
Proof.
  apply (restful_filter_wildcards sampleOrm "A"
           {| a_where := Some [("title", JStr "se%"); ("id", JNum 7)];
              a_order := None; a_page := None; a_pageSize := None |}
           noContext [("title", JStr "se%"); ("id", JNum 7)]).
  reflexivity.
Defined.

Example parseWhere_sample :
  parseWhere ["title"; "id"; "tags"]
    [("title", JStr "se%"); ("id", JNum 7); ("tags", JArr [JStr "a"; JStr "b%"])] =
  [("title", JOpLike (JStr "se%")); ("id", JNum 7);
   ("tags", JOpLike (JArr [JStr "a"; JStr "b%"]))].
Proof. vm_compute. reflexivity. Qed.

Lemma js_mul_exact x y : Z.abs (x * y) <= 2 ^ 53 → js_mul x y = x * y.
Proof.
  intros H. unfold js_mul, roundToDouble.
  by apply Z.leb_le in H as ->.
Qed.

(** Beyond the exact integers the product is rounded, also for arguments
    that are GraphQL [Int]s. *)
Example js_mul_rounds :
  isInt32 2147483646 ∧ isInt32 2147483647 ∧
  js_mul 2147483646 2147483647 = 4611686011984936960 ∧
  2147483646 * 2147483647 = 4611686011984936962.
Proof. unfold isInt32. vm_compute. repeat split; intros; discriminate. Qed.

Lemma restfulResolver_run (orm : Orm) (modelTypeName : string)
    (args : RestfulArgs) (context : Context) :
  restfulResolver orm modelTypeName args context =
  (match findAndCountAll orm modelTypeName (restfulOptions args context) with
   | Fulfilled result =>
       Fulfilled {| info_total := result.1;
                    info_pageSize := restfulLimit args;
                    info_page := if truthyInt (a_page args)
                                 then default 0 (a_page args) else 1;
                    results := result.2 |}
   | Rejected => Rejected
   end,
   [issued (callFindAndCountAll modelTypeName (restfulOptions args context))]).
Proof.
  unfold restfulResolver, start, await, bind, ret. cbn.
  by destruct (findAndCountAll orm _ _).
Qed.

(** C2, as the code has it. For every call of the [<e>Restful] resolver
    whose [pageSize] and [page], when supplied, are not zero: the store
    query is issued with limit equal to the supplied [pageSize], 10 when
    it is absent, and with offset equal to (page - 1) x limit, page being 1
    when absent, as long as that product is an exact JavaScript integer
    (at most 2^53 in magnitude); the envelope reports that limit as
    [pageSize] and that page. *)
Theorem restful_pagination (orm : Orm) (modelTypeName : string)
    (args : RestfulArgs) (context : Context) :
  a_pageSize args ≠ Some 0 →
  a_page args ≠ Some 0 →
  Z.abs (specOffset args) <= 2 ^ 53 →
  let run := restfulResolver orm modelTypeName args context in
  let options := restfulOptions args context in
  effects run = [issued (callFindAndCountAll modelTypeName options)] ∧
  o_limit options = specLimit args ∧
  o_offset options = specOffset args ∧
  outcome run =
    match findAndCountAll orm modelTypeName options with
    | Fulfilled result =>
        Fulfilled {| info_total := result.1;
                     info_pageSize := specLimit args;
                     info_page := specPage args;
                     results := result.2 |}
    | Rejected => Rejected
    end.
Proof.
  intros Hps Hp Hexact run options.
  assert (restfulLimit args = specLimit args) as Hlimit.
  { unfold restfulLimit, specLimit, truthyInt.
    destruct (a_pageSize args) as [ps|]; [|done].
    destruct (ps =? 0) eqn:E; [|done]. by apply Z.eqb_eq in E as ->. }
  assert ((if truthyInt (a_page args) then default 0 (a_page args) else 1)
          = specPage args) as Hpage.
  { unfold specPage, truthyInt. destruct (a_page args) as [p|]; [|done].
    destruct (p =? 0) eqn:E; [|done]. apply Z.eqb_eq in E as ->. done. }
  assert (restfulOffset args = specOffset args) as Hoffset.
  { unfold restfulOffset. rewrite Hlimit.
    unfold specOffset, specPage, truthyInt in *.
    destruct (a_page args) as [p|]; cbn in *; [|lia].
    destruct (p =? 0) eqn:E; cbn.
    - apply Z.eqb_eq in E as ->. done.
    - by apply js_mul_exact. }
  subst run options. rewrite restfulResolver_run.
  unfold effects, outcome. cbn [fst snd restfulOptions o_limit o_offset].
  rewrite Hlimit, Hoffset, Hpage. done.
Qed.

(** "pageSize=10 with no page yields offset 0 and limit 10" *)
Lemma restful_pagination_witness :
  let args := {| a_where := None; a_order := None;
                 a_page := None; a_pageSize := Some 10 |} in
  let run := restfulResolver sampleOrm "A" args noContext in
  let options := restfulOptions args noContext in
  effects run = [issued (callFindAndCountAll "A" options)] ∧
  o_limit options = 10 ∧
  o_offset options = 0 ∧
  outcome run =
    match findAndCountAll sampleOrm "A" options with
    | Fulfilled result =>
        Fulfilled {| info_total := result.1; info_pageSize := 10;
                     info_page := 1; results := result.2 |}
    | Rejected => Rejected
    end.
Proof.
  apply (restful_pagination sampleOrm "A"
           {| a_where := None; a_order := None;
              a_page := None; a_pageSize := Some 10 |} noContext).
  - discriminate.
  - discriminate.
  - vm_compute. discriminate.
Defined.

(** "page=3 with pageSize=5 yields offset 10 and limit 5" *)
Example restful_page_3_of_5 :
  restfulResolver sampleOrm "A"
    {| a_where := None; a_order := None; a_page := Some 3; a_pageSize := Some 5 |}
    noContext =
  (Fulfilled {| info_total := 1; info_pageSize := 5; info_page := 3;
                results := [sampleRow] |},
   [issued (callFindAndCountAll "A"
      {| o_where := None; o_order := None; o_limit := 5; o_offset := 10;
         o_dataloader := rawContext noContext |})]).
Proof. reflexivity. Qed.

(** A supplied [pageSize] of 0 is not the limit of the store query. *)
Lemma restful_pagination_counterexample :
  let args := {| a_where := None; a_order := None;
                 a_page := None; a_pageSize := Some 0 |} in
  o_limit (restfulOptions args noContext) = 10 ∧
  specLimit args = 0 ∧
  o_limit (restfulOptions args noContext) ≠ specLimit args.
Proof. cbn. repeat split. discriminate. Qed.

(** C10. Falsy arguments are treated as absent ones: a call with
    [pageSize] 0 runs as the call without [pageSize], with limit 10; a
    call with [page] 0 runs as the call without [page], with offset 0 and
    a reported page of 1; and no call reaches the store with limit 0. *)
Theorem restful_falsy_as_absent (orm : Orm) (modelTypeName : string)
    (filter_ : option JObject) (order : option (list (list string)))
    (page pageSize : option Z) (context : Context) :
  let args p ps := {| a_where := filter_; a_order := order;
                      a_page := p; a_pageSize := ps |} in
  restfulResolver orm modelTypeName (args page (Some 0)) context =
    restfulResolver orm modelTypeName (args page None) context ∧
  o_limit (restfulOptions (args page (Some 0)) context) = 10 ∧
  restfulResolver orm modelTypeName (args (Some 0) pageSize) context =
    restfulResolver orm modelTypeName (args None pageSize) context ∧
  o_offset (restfulOptions (args (Some 0) pageSize) context) = 0 ∧
  outcome (restfulResolver orm modelTypeName (args (Some 0) pageSize) context) =
    match findAndCountAll orm modelTypeName
            (restfulOptions (args (Some 0) pageSize) context) with
    | Fulfilled result =>
        Fulfilled {| info_total := result.1;
                     info_pageSize := o_limit (restfulOptions (args (Some 0) pageSize) context);
                     info_page := 1;
                     results := result.2 |}
    | Rejected => Rejected
    end ∧
  o_limit (restfulOptions (args page pageSize) context) ≠ 0.
Proof.
  intros args. repeat split.
  - rewrite restfulResolver_run. reflexivity.
  - unfold restfulOptions, restfulLimit, truthyInt. cbn.
    destruct pageSize as [ps|]; [|done].
    destruct (ps =? 0) eqn:E; [done|]. cbn. by apply Z.eqb_neq in E.
Qed.

(** ** Runs of asynchronous code *)

Lemma bind_start {A B} (c : StoreCall) (p : Outcome A) (k : Outcome A → Async B) :
  bind (start c p) k = ((k p).1, issued c :: (k p).2).
Proof. unfold bind, start. by destruct (k p). Qed.

Lemma bind_await {A B} (p : Outcome A) (k : A → Async B) :
  bind (await p) k = match p with
                     | Fulfilled a => k a
                     | Rejected => (Rejected, [])
                     end.
Proof. unfold bind, await. destruct p; [|done]. by destruct (k a). Qed.

Lemma bind_ret {A B} (a : A) (k : A → Async B) : bind (ret a) k = k a.
Proof. unfold bind, ret. by destruct (k a). Qed.

Lemma bind_publish {B} (e : Event) (k : unit → Async B) :
  bind (publish e) k = ((k tt).1, published e :: (k tt).2).
Proof. unfold bind, publish. by destruct (k tt). Qed.

Lemma promiseAll_rejected {A} (ps : list (Outcome A)) :
  forallb isFulfilled ps = false → promiseAll ps = Rejected.
Proof.
  induction ps as [|[a|] ps IH]; cbn; [done| |done].
  intros H. by rewrite IH.
Qed.

Lemma promiseAll_fulfilled {A} (ps : list (Outcome A)) :
  forallb isFulfilled ps = true → ∃ l, promiseAll ps = Fulfilled l.
Proof.
  induction ps as [|[a|] ps IH]; cbn; [by eexists| |done].
  intros [l ->]%IH. by eexists.
Qed.

Lemma startAll_startUpsert (orm : Orm) (calls : list UpsertCall) :
  startAll (startUpsert orm) calls =
  (Fulfilled (map (λ c, promiseResolve (upsertArray orm c)) calls),
   map (λ c, issued (callUpsertArray c)) calls).
Proof.
  induction calls as [|c calls IH]; [done|].
  cbn [startAll map]. unfold startUpsert at 1.
  rewrite bind_start, IH. unfold bind, ret. cbn [fst snd].
  by rewrite app_nil_r.
Qed.

Lemma isFulfilled_settleWith {A} (f : A → Settled) (p : Outcome A) :
  isFulfilled (settleWith f p) = isFulfilled p.
Proof. by destruct p. Qed.

Lemma publishedEvents_app (l1 l2 : list Effect) :
  publishedEvents (l1 ++ l2) = (publishedEvents l1 ++ publishedEvents l2)%list.
Proof. apply omap_app. Qed.

Lemma publishedEvents_issued c (l : list Effect) :
  publishedEvents (issued c :: l) = publishedEvents l.
Proof. done. Qed.

Lemma publishedEvents_upserts (calls : list UpsertCall) :
  publishedEvents (map (λ c, issued (callUpsertArray c)) calls) = [].
Proof. induction calls as [|c cs IH]; [done|]. by rewrite map_cons, publishedEvents_issued. Qed.

(** The outcome and the effects of a run, one step at a time. *)
Lemma outcome_bind {A B} (m : Async A) (k : A → Async B) :
  outcome (bind m k) = match outcome m with
                       | Fulfilled a => outcome (k a)
                       | Rejected => Rejected
                       end.
Proof. destruct m as [[a|] log]; cbn; [by destruct (k a)|done]. Qed.

Lemma effects_bind {A B} (m : Async A) (k : A → Async B) :
  effects (bind m k) = (effects m ++ match outcome m with
                                     | Fulfilled a => effects (k a)
                                     | Rejected => []
                                     end)%list.
Proof.
  destruct m as [[a|] log]; cbn; [by destruct (k a)|].
  unfold effects. cbn. by rewrite app_nil_r.
Qed.

Lemma outcome_start {A} c (p : Outcome A) : outcome (start c p) = Fulfilled p.
Proof. done. Qed.
Lemma effects_start {A} c (p : Outcome A) : effects (start c p) = [issued c].
Proof. done. Qed.
Lemma outcome_await {A} (p : Outcome A) : outcome (await p) = p.
Proof. done. Qed.
Lemma effects_await {A} (p : Outcome A) : effects (await p) = [].
Proof. done. Qed.
Lemma outcome_ret {A} (a : A) : outcome (ret a) = Fulfilled a.
Proof. done. Qed.
Lemma effects_ret {A} (a : A) : effects (ret a) = [].
Proof. done. Qed.
Lemma outcome_when b m : outcome m = Fulfilled tt → outcome (when b m) = Fulfilled tt.
Proof. by destruct b. Qed.
Lemma outcome_publish e : outcome (publish e) = Fulfilled tt.
Proof. done. Qed.
Lemma effects_when_publish b e :
  effects (when b (publish e)) = if b then [published e] else [].
Proof. by destruct b. Qed.
Lemma outcome_when_publish b e : outcome (when b (publish e)) = Fulfilled tt.
Proof. by destruct b. Qed.

Lemma outcome_startAll_startUpsert (orm : Orm) (calls : list UpsertCall) :
  outcome (startAll (startUpsert orm) calls) =
  Fulfilled (map (λ c, promiseResolve (upsertArray orm c)) calls).
Proof. by rewrite startAll_startUpsert. Qed.

Lemma effects_startAll_startUpsert (orm : Orm) (calls : list UpsertCall) :
  effects (startAll (startUpsert orm) calls) =
  map (λ c, issued (callUpsertArray c)) calls.
Proof. by rewrite startAll_startUpsert. Qed.

Create Rewrite HintDb async.

#[local] Hint Rewrite @outcome_bind @effects_bind @outcome_start @effects_start
  @outcome_await @effects_await @outcome_ret @effects_ret
  outcome_when_publish effects_when_publish
  outcome_startAll_startUpsert effects_startAll_startUpsert : async.

Ltac async_simpl := repeat (progress (autorewrite with async; cbn beta iota)).

(** ** The mutations *)

(** C6. [add<E>] issues one [create]; when it succeeds the mutation
    returns the created record and, with subscriptions enabled, publishes
    exactly one event, on the topic [<E>_ADDED], carrying that record;
    with subscriptions disabled, or when the [create] fails, it publishes
    nothing. *)
Theorem add_publishes_one_ADDED (getProperTypeName : Model → ProperTypeName)
    (orm : Orm) (opts : SchemaOptions) (inputTypeName : string) (model : Model)
    (includeArrayModels : list Include) (arg : JValue) :
  let run := addResolver getProperTypeName orm opts inputTypeName model
               includeArrayModels arg in
  outcome run = create orm inputTypeName arg includeArrayModels ∧
  issuedCalls (effects run) = [callCreate inputTypeName arg includeArrayModels] ∧
  publishedEvents (effects run) =
    match create orm inputTypeName arg includeArrayModels with
    | Fulfilled newObject =>
        if subscriptions opts
        then [{| ev_bus := myPubSub opts;
                 ev_topic :=
                   singular (toUpperWithLodashes (getProperTypeName model)) ++ "_ADDED";
                 ev_field := singular (lowerFirst (getProperTypeName model)) ++ "Added";
                 ev_payload := payloadInstance newObject |}]
        else []
    | Rejected => []
    end.
Proof.
  intros run. subst run. unfold addResolver.
  rewrite bind_start, bind_await.
  destruct (create orm inputTypeName arg includeArrayModels) as [newObject|];
    [|done].
  unfold when. destruct (subscriptions opts).
  - rewrite bind_publish. done.
  - rewrite bind_ret. done.
Qed.

Example add_sample :
  addResolver sampleProperTypeName sampleOrm withSubscriptions "A" modelA []
    (JObj [("title", JStr "new")]) =
  (Fulfilled {| inst_model := "A"; dataValues := [("title", JStr "new")] |},
   [issued (callCreate "A" (JObj [("title", JStr "new")]) []);
    published {| ev_bus := defaultPubSub; ev_topic := "A_ADDED"; ev_field := "aAdded";
                 ev_payload := payloadInstance
                   {| inst_model := "A"; dataValues := [("title", JStr "new")] |} |}]).
Proof. reflexivity. Qed.



Example delete_missing_key :
  deleteResolver sampleProperTypeName sampleOrm withSubscriptions
    "A" modelA [("id", JNum 8)] =
  (Fulfilled 0, [issued (callDestroy "A" [("id", JNum 8)])]).
Proof. reflexivity. Qed.

(** What [update<E>] waits for. Once the record is found, every nested
    upsert and the parent's own update are issued, one after the other and
    before any of them is waited for, whatever they give. [Promise.all]
    then sees, for each upsert, what the helper handed back, and the
    promise of the parent's update: if one of those is rejected the
    mutation fails, nothing is published and nothing more is issued; if
    all are fulfilled the UPDATED event is published (when subscriptions
    are enabled), followed by the re-fetch whose outcome is the
    mutation's. When no record is found, or the lookup fails, the mutation
    fails and nothing is published. *)
Lemma update_waits_for_its_promises (getProperTypeName : Model → ProperTypeName)
    (orm : Orm) (opts : SchemaOptions) (inputTypeName : string) (model : Model)
    (includeArrayModels : list Include) (input : JObject) (context : Context) :
  let where_ := [(primaryKey model, obj_get input (primaryKey model))] in
  let ormOptions := {| u_where := where_; u_include := includeArrayModels;
                       u_dataloader := batchingOf context |} in
  let run := updateResolver getProperTypeName orm opts inputTypeName model
               includeArrayModels (Some input) context in
  match findOne orm inputTypeName ormOptions with
  | Fulfilled (Some object2Update) =>
      let nested := omap (upsertOf inputTypeName model input (Some object2Update))
                         includeArrayModels in
      let allSucceed :=
        forallb isFulfilled (map (λ c, promiseResolve (upsertArray orm c)) nested) &&
        isFulfilled (update orm object2Update input) in
      ∃ after,
        effects run =
          (issued (callFindOne inputTypeName ormOptions) ::
           map (λ c, issued (callUpsertArray c)) nested ++
           [issued (callUpdate object2Update input)] ++ after)%list ∧
        if allSucceed
        then outcome run = refetch orm inputTypeName where_ ∧
             issuedCalls after = [callResolver inputTypeName where_] ∧
             ∃ snapshot,
               after =
                 ((if subscriptions opts
                   then [published
                           {| ev_bus := myPubSub opts;
                              ev_topic :=
                                singular (toUpperWithLodashes
                                            (getProperTypeName model)) ++ "_UPDATED";
                              ev_field :=
                                singular (lowerFirst
                                            (getProperTypeName model)) ++ "Updated";
                              ev_payload := payloadObject snapshot |}]
                   else []) ++ [issued (callResolver inputTypeName where_)])%list
        else outcome run = Rejected ∧ after = [] ∧
             publishedEvents (effects run) = []
  | Fulfilled None =>
      outcome run = Rejected ∧ publishedEvents (effects run) = [] ∧
      effects run =
        issued (callFindOne inputTypeName ormOptions) ::
        map (λ c, issued (callUpsertArray c))
            (omap (upsertOf inputTypeName model input None) includeArrayModels)
  | Rejected =>
      outcome run = Rejected ∧
      effects run = [issued (callFindOne inputTypeName ormOptions)]
  end.
Proof.
  intros where_ ormOptions run.
  subst run. unfold updateResolver. fold where_. fold ormOptions.
  destruct (findOne orm inputTypeName ormOptions) as [[object2Update|]|] eqn:Hfound.
  - set (nested := omap (upsertOf inputTypeName model input (Some object2Update))
                        includeArrayModels).
    set (allSucceed :=
           forallb isFulfilled (map (λ c, promiseResolve (upsertArray orm c)) nested) &&
           isFulfilled (update orm object2Update input)).
    set (promises := (map (λ c, promiseResolve (upsertArray orm c)) nested ++
                      [settleWith updated (update orm object2Update input)])%list).
    assert (forallb isFulfilled promises = allSucceed) as Hall.
    { unfold promises, allSucceed. rewrite forallb_app. cbn [forallb].
      by rewrite isFulfilled_settleWith, andb_true_r. }
    async_simpl. fold nested. fold promises.
    destruct allSucceed.
    + destruct (promiseAll_fulfilled _ Hall) as [ups ->]. async_simpl.
      eexists. split; [cbn [app]; reflexivity|].
      split; [done|]. split; [by destruct (subscriptions opts)|].
      eexists. reflexivity.
    + rewrite (promiseAll_rejected _ Hall).
      exists []. split; [done|]. split; [done|]. split; [done|].
      cbn [app]. rewrite ?app_nil_r.
      rewrite publishedEvents_issued, publishedEvents_app, publishedEvents_upserts.
      reflexivity.
  - async_simpl.
    split; [done|]. cbn [app]. rewrite ?app_nil_r.
    split; [|done]. by rewrite publishedEvents_issued, publishedEvents_upserts.
  - async_simpl. done.
Qed.

(** With a helper that hands back one promise: an update of record 7
    whose nested collection [Bs] is not an array. The upsert fails, the
    parent's update was issued all the same, and nothing is published. *)
Example update_with_a_promise_from_the_helper :
  updateResolver sampleProperTypeName sampleOrm withSubscriptions
    "A" modelA [mkInclude modelB []]
    (Some [("id", JNum 7); ("Bs", JStr "oops")]) noContext =
  (Rejected,
   [issued (callFindOne "A"
      {| u_where := [("id", JNum 7)]; u_include := [mkInclude modelB []];
         u_dataloader := rawContext noContext |});
    issued (callUpsertArray
      {| up_plural := "Bs"; up_array := JStr "oops";
         up_parent := Some sampleRow; up_foreignKey := "A_id";
         up_parentKey := JNum 7; up_include := [] |});
    issued (callUpdate sampleRow [("id", JNum 7); ("Bs", JStr "oops")])]).
Proof. reflexivity. Qed.

(** C4. The claim fails on the code as soon as the helper hands back an
    array of promises in place of a promise: [Promise.all] takes the
    array for a fulfilled value and does not look into it. Here the
    upsert of the one item of the nested collection [Bs] is refused by
    the store, its promise is rejected, and yet the mutation is
    fulfilled and the UPDATED event is published. *)
Theorem update_fulfilled_despite_failed_upsert :
  upsertArray arrayOrm
    {| up_plural := "Bs"; up_array := JArr [JObj [("id", JNum 13)]];
       up_parent := Some sampleRow; up_foreignKey := "A_id";
       up_parentKey := JNum 7; up_include := [] |} = returnsArray [Rejected] ∧
  updateResolver sampleProperTypeName arrayOrm withSubscriptions
    "A" modelA [mkInclude modelB []]
    (Some [("id", JNum 7); ("Bs", JArr [JObj [("id", JNum 13)]])]) noContext =
  (Fulfilled (Some sampleRow),
   [issued (callFindOne "A"
      {| u_where := [("id", JNum 7)]; u_include := [mkInclude modelB []];
         u_dataloader := rawContext noContext |});
    issued (callUpsertArray
      {| up_plural := "Bs"; up_array := JArr [JObj [("id", JNum 13)]];
         up_parent := Some sampleRow; up_foreignKey := "A_id";
         up_parentKey := JNum 7; up_include := [] |});
    issued (callUpdate sampleRow
              [("id", JNum 7); ("Bs", JArr [JObj [("id", JNum 13)]])]);
    published {| ev_bus := defaultPubSub; ev_topic := "A_UPDATED";
                 ev_field := "aUpdated";
                 ev_payload :=
                   payloadObject
                     [("id", JNum 7); ("Bs", JArr [JObj [("id", JNum 13)]])] |};
    issued (callResolver "A" [("id", JNum 7)])]).
Proof. split; reflexivity. Qed.

Example update_sample_success :
  updateResolver sampleProperTypeName sampleOrm withSubscriptions
    "A" modelA [mkInclude modelB []]
    (Some [("id", JNum 7); ("Bs", JArr [])]) noContext =
  (Fulfilled (Some sampleRow),
   [issued (callFindOne "A"
      {| u_where := [("id", JNum 7)]; u_include := [mkInclude modelB []];
         u_dataloader := rawContext noContext |});
    issued (callUpsertArray
      {| up_plural := "Bs"; up_array := JArr [];
         up_parent := Some sampleRow; up_foreignKey := "A_id";
         up_parentKey := JNum 7; up_include := [] |});
    issued (callUpdate sampleRow [("id", JNum 7); ("Bs", JArr [])]);
    published {| ev_bus := defaultPubSub; ev_topic := "A_UPDATED";
                 ev_field := "aUpdated";
                 ev_payload := payloadObject [("id", JNum 7); ("Bs", JArr [])] |};
    issued (callResolver "A" [("id", JNum 7)])]).
Proof. reflexivity. Qed.

(** Without a record to update the mutation fails before the parent's
    update is issued, and nothing is published. *)
Example update_sample_not_found :
  updateResolver sampleProperTypeName sampleOrm withSubscriptions
    "A" modelA [mkInclude modelB []]
    (Some [("id", JNum 8); ("Bs", JArr [])]) noContext =
  (Rejected,
   [issued (callFindOne "A"
      {| u_where := [("id", JNum 8)]; u_include := [mkInclude modelB []];
         u_dataloader := rawContext noContext |});
    issued (callUpsertArray
      {| up_plural := "Bs"; up_array := JArr [];
         up_parent := None; up_foreignKey := "A_id";
         up_parentKey := JNum 8; up_include := [] |})]).
Proof. reflexivity. Qed.

(** ** Generated types *)

Lemma attributeFields_is_Some toGraphQL model exclude allowNull k :
  is_Some (attributeFields toGraphQL model exclude allowNull !! k) ↔
  k ∈ (rawAttributes model).*1 ∧ k ∉ exclude.
Proof.
  unfold attributeFields.
  generalize (rawAttributes model). intros attrs.
  assert (∀ memo : gmap string Field,
            is_Some (foldl (λ memo '(key, attribute),
                       if bool_decide (key ∈ exclude) then memo
                       else <[key :=
                               {| f_name := None;
                                  f_type := if negb allowNull &&
                                     (bool_decide (attr_allowNull attribute = Some false) ||
                                      attr_primaryKey attribute)
                                    then GraphQLNonNull (toGraphQL (attr_type attribute))
                                    else toGraphQL (attr_type attribute);
                                  f_args := ∅; f_resolve := None |}]> memo)
                     memo attrs !! k) ↔
            is_Some (memo !! k) ∨ (k ∈ attrs.*1 ∧ k ∉ exclude)) as H.
  { induction attrs as [|[key a] attrs IH]; intros memo; cbn [foldl fmap list_fmap].
    - rewrite elem_of_nil. naive_solver.
    - rewrite IH, elem_of_cons. cbn [fst]. case_bool_decide as Hex.
      + naive_solver.
      + rewrite lookup_insert_is_Some'. naive_solver. }
  rewrite H, lookup_empty. split; [intros [[? [=]]|]; done|by right].
Qed.

(** The loop only adds fields, under the names of the associations. *)
Lemma associationFieldsLoop_is_Some fields associations types isInput result k :
  associationFieldsLoop fields associations types isInput = Ok result →
  (is_Some (result !! k) ↔ is_Some (fields !! k) ∨ k ∈ associations.*1).
Proof.
  revert fields. induction associations as [|[an r] rest IH]; intros fields;
    cbn [associationFieldsLoop fmap list_fmap].
  - intros [= <-]. rewrite elem_of_nil. naive_solver.
  - destruct (associationFieldType types r) as [type|]; [|done].
    intros Hrest. rewrite (IH _ Hrest), elem_of_cons, lookup_insert_is_Some'.
    cbn [fst]. naive_solver.
Qed.

(** It leaves the other names alone. *)
Lemma associationFieldsLoop_keeps fields associations types isInput result k :
  associationFieldsLoop fields associations types isInput = Ok result →
  k ∉ associations.*1 → result !! k = fields !! k.
Proof.
  revert fields. induction associations as [|[an r] rest IH]; intros fields;
    cbn [associationFieldsLoop fmap list_fmap].
  - by intros [= <-].
  - destruct (associationFieldType types r) as [type|]; [|done].
    intros Hrest Hk. apply not_elem_of_cons in Hk as [Hne Hk]. cbn [fst] in Hne.
    rewrite (IH _ Hrest Hk). by rewrite lookup_insert_ne.
Qed.

(** It returns exactly when every association has a type. *)
Lemma associationFieldsLoop_result fields associations types isInput :
  match associationFieldsLoop fields associations types isInput with
  | Ok _ => Forall (λ p, is_Some (associationFieldType types p.2)) associations
  | Throw => Exists (λ p, associationFieldType types p.2 = None) associations
  | OutOfFuel => False
  end.
Proof.
  revert fields. induction associations as [|[an r] rest IH]; intros fields;
    cbn [associationFieldsLoop].
  - constructor.
  - destruct (associationFieldType types r) as [type|] eqn:Ht; [|by left].
    match goal with |- context [associationFieldsLoop ?f rest] => specialize (IH f) end.
    destruct (associationFieldsLoop _ rest types isInput); [|by right|done].
    constructor; [cbn [snd]; by rewrite Ht|done].
Qed.

(** C8. In the output type and in the input type of every entity, no
    field comes from the sensitive attribute [contrasena]: whenever the
    fields of the type are computed, a field of that name is there only if
    an association has that name, and is then that association's field.
    For an entity without associations the fields are computed and are,
    in each of the two types, exactly the attributes other than
    [contrasena]. *)
Theorem generated_types_exclude_sensitive
    (getProperTypeName : Model → ProperTypeName) (toGraphQL : string → GraphQLType)
    (model : Model) (types : gmap string GeneratedType) (isInput : bool) :
  let g := generateGraphQLType getProperTypeName model isInput in
  attributeFields toGraphQL model ["contrasena"] isInput !! "contrasena" = None ∧
  (∀ fields, fieldsOf toGraphQL types g = Ok fields →
     ∃ associationFields,
       generateAssociationFields (associations model) types isInput
         = Ok associationFields ∧
       fields !! "contrasena" = associationFields !! "contrasena" ∧
       ∀ k, is_Some (fields !! k) ↔
            (k ∈ (rawAttributes model).*1 ∧ k ≠ "contrasena") ∨
            k ∈ (associations model).*1) ∧
  (associations model = [] →
   ∃ fields, fieldsOf toGraphQL types g = Ok fields ∧
     ∀ k, is_Some (fields !! k) ↔
          k ∈ (rawAttributes model).*1 ∧ k ≠ "contrasena").
Proof.
  intros g.
  assert (attributeFields toGraphQL model ["contrasena"] isInput !! "contrasena"
          = None) as Hnone.
  { apply eq_None_not_Some. rewrite attributeFields_is_Some.
    intros [_ Hnot]. apply Hnot. left. }
  assert (∀ fields, fieldsOf toGraphQL types g = Ok fields →
     ∃ associationFields,
       generateAssociationFields (associations model) types isInput
         = Ok associationFields ∧
       fields !! "contrasena" = associationFields !! "contrasena" ∧
       ∀ k, is_Some (fields !! k) ↔
            (k ∈ (rawAttributes model).*1 ∧ k ≠ "contrasena") ∨
            k ∈ (associations model).*1) as Hfields.
  { intros fields. unfold fieldsOf. cbn [g generateGraphQLType g_model g_isInput].
    destruct (generateAssociationFields (associations model) types isInput)
      as [associationFields| |] eqn:Ha; [|done..].
    intros [= <-]. exists associationFields. split; [done|]. split.
    - by apply lookup_union_l.
    - intros k. rewrite lookup_union_is_Some, attributeFields_is_Some.
      rewrite (associationFieldsLoop_is_Some _ _ _ _ _ k Ha), lookup_empty.
      rewrite list_elem_of_singleton. split; [|tauto].
      intros [[[? [=]]|?]|?]; tauto. }
  split; [done|]. split; [done|].
  intros Hno.
  assert (fieldsOf toGraphQL types g =
          Ok (∅ ∪ attributeFields toGraphQL model ["contrasena"] isInput)) as Hok.
  { unfold fieldsOf. cbn [g generateGraphQLType g_model g_isInput].
    by rewrite Hno. }
  eexists. split; [exact Hok|].
  intros k. destruct (Hfields _ Hok) as (_ & _ & _ & Hdom).
  rewrite Hdom, Hno, fmap_nil, elem_of_nil. tauto.
Qed.

Lemma generated_types_exclude_sensitive_witness :
  associations modelX = [] ∧
  ∃ fields,
    fieldsOf sampleToGraphQL ∅
      (generateGraphQLType sampleProperTypeName modelX true) = Ok fields ∧
    ∀ k, is_Some (fields !! k) ↔
         k ∈ ["id"; "nombre"; "contrasena"] ∧ k ≠ "contrasena".
Proof.
  split; [reflexivity|].
  exact (proj2 (proj2
           (generated_types_exclude_sensitive sampleProperTypeName sampleToGraphQL
              modelX ∅ true)) eq_refl).
Defined.

Example fields_of_X_output :
  fieldsOf sampleToGraphQL ∅ (generateGraphQLType sampleProperTypeName modelX false) =
  Ok {[ "id" := {| f_name := None; f_type := GraphQLNonNull GraphQLInt;
                   f_args := ∅; f_resolve := None |};
        "nombre" := {| f_name := None; f_type := GraphQLString;
                       f_args := ∅; f_resolve := None |} ]}.
Proof. vm_compute. reflexivity. Qed.

(** ** The query root *)

(** Writing the discovered modules into [customs] puts them on top of it. *)
Lemma discoverCustoms_union files (customs : gmap string Field) :
  discoverCustoms files customs = discoverCustoms files ∅ ∪ customs.
Proof.
  unfold discoverCustoms. revert customs.
  induction files as [|[file objQuery] files IH]; intros customs; cbn [foldl].
  - by rewrite (left_id_L ∅ (∪)).
  - rewrite IH. symmetry. rewrite IH. symmetry.
    case_bool_decide; [|by rewrite (right_id_L ∅ (∪))].
    rewrite (insert_union_singleton_l customs), (insert_union_singleton_l ∅).
    by rewrite (right_id_L ∅ (∪)), (assoc_L (∪)).
Qed.

Lemma queryCustoms_layers defaultArgs defaultListArgs opts dir modelType model :
  queryCustoms defaultArgs defaultListArgs opts dir modelType model =
  discoveredQueries opts dir ∪ inlineQueries defaultArgs defaultListArgs modelType model.
Proof.
  unfold queryCustoms, discoveredQueries. fold (inlineQueries defaultArgs defaultListArgs modelType model).
  destruct (truthyString (customsDirPath opts)); [|by rewrite (left_id_L ∅ (∪))].
  destruct (queryFiles dir) as [files|]; [|by rewrite (left_id_L ∅ (∪))].
  apply discoverCustoms_union.
Qed.

Lemma queryReduce_snoc getProperTypeName defaultArgs defaultListArgs models opts dir
    fields outputTypes entry :
  queryReduce getProperTypeName defaultArgs defaultListArgs models opts dir
    fields (outputTypes ++ [entry]) =
  match queryReduce getProperTypeName defaultArgs defaultListArgs models opts dir
          fields outputTypes with
  | Ok earlier =>
      queryStep getProperTypeName defaultArgs defaultListArgs models opts dir earlier entry
  | Throw => Throw
  | OutOfFuel => OutOfFuel
  end.
Proof.
  revert fields. induction outputTypes as [|e rest IH]; intros fields; cbn.
  - by destruct (queryStep _ _ _ _ _ _ fields entry).
  - destruct (queryStep _ _ _ _ _ _ fields e); [apply IH|done..].
Qed.

(** C1, as the code has it. After the step of the [reduce] for an entity,
    the field set of the query root is layered: on top the
    directory-discovered modules, below them the inline metadata overrides
    of that entity, below them its three generated fields, below them
    what the earlier entities gave. So when
    an inline override, a discovered module and a generated field share a
    name, the discovered module wins; an inline override wins over the
    generated field of its entity when no discovered module has its name;
    and a generated field is used only when neither claims its name. *)
Theorem custom_override_precedence
    (getProperTypeName : Model → ProperTypeName)
    (defaultArgs : Model → gmap string GraphQLType)
    (defaultListArgs : gmap string GraphQLType)
    (models : gmap string Model) (opts : SchemaOptions) (dir : CustomsDir)
    (earlierTypes : list (string * GeneratedType))
    (modelTypeName : string) (modelType : GeneratedType) (model : Model)
    (earlier : gmap string Field) :
  models !! modelTypeName = Some model →
  generateQueryRootType getProperTypeName defaultArgs defaultListArgs models opts dir
    earlierTypes = Ok earlier →
  let discovered := discoveredQueries opts dir in
  let inline := inlineQueries defaultArgs defaultListArgs modelType model in
  let generated := generatedQueryFields getProperTypeName defaultArgs defaultListArgs
                     modelTypeName modelType model in
  ∃ fields,
    generateQueryRootType getProperTypeName defaultArgs defaultListArgs models opts dir
      (earlierTypes ++ [(modelTypeName, modelType)]) = Ok fields ∧
    fields = discovered ∪ (inline ∪ (generated ∪ earlier)) ∧
    ∀ x,
      (∀ d, discovered !! x = Some d → fields !! x = Some d) ∧
      (∀ q, discovered !! x = None → inline !! x = Some q → fields !! x = Some q) ∧
      (∀ f, discovered !! x = None → inline !! x = None →
            generated !! x = Some f → fields !! x = Some f) ∧
      (discovered !! x = None → inline !! x = None → generated !! x = None →
       fields !! x = earlier !! x).
Proof.
  intros Hmodel Hearlier discovered inline generated.
  exists (discovered ∪ (inline ∪ (generated ∪ earlier))).
  split; [|split; [done|]].
  - unfold generateQueryRootType in *. rewrite queryReduce_snoc, Hearlier.
    unfold queryStep. cbn [fst snd]. rewrite Hmodel, queryCustoms_layers.
    by rewrite (assoc_L (∪) discovered).
  - intros x. repeat split.
    + intros d Hd. by apply lookup_union_Some_l.
    + intros q Hd Hq. rewrite lookup_union_r by done. by apply lookup_union_Some_l.
    + intros f Hd Hq Hf. rewrite !lookup_union_r by done.
      by apply lookup_union_Some_l.
    + intros Hd Hq Hg. by rewrite !lookup_union_r.
Qed.

Lemma custom_override_precedence_witness :
  ∃ fields,
    generateQueryRootType sampleProperTypeName sampleDefaultArgs sampleDefaultListArgs
      modelsX customsOn dirX
      ([] ++ [("X", generateGraphQLType sampleProperTypeName modelX false)]) = Ok fields ∧
    fields =
      discoveredQueries customsOn dirX ∪
      (inlineQueries sampleDefaultArgs sampleDefaultListArgs
         (generateGraphQLType sampleProperTypeName modelX false) modelX ∪
       (generatedQueryFields sampleProperTypeName sampleDefaultArgs sampleDefaultListArgs
          "X" (generateGraphQLType sampleProperTypeName modelX false) modelX ∪ ∅)) ∧
    ∀ x,
      (∀ d, discoveredQueries customsOn dirX !! x = Some d → fields !! x = Some d) ∧
      (∀ q, discoveredQueries customsOn dirX !! x = None →
            inlineQueries sampleDefaultArgs sampleDefaultListArgs
              (generateGraphQLType sampleProperTypeName modelX false) modelX !! x = Some q →
            fields !! x = Some q) ∧
      (∀ f, discoveredQueries customsOn dirX !! x = None →
            inlineQueries sampleDefaultArgs sampleDefaultListArgs
              (generateGraphQLType sampleProperTypeName modelX false) modelX !! x = None →
            generatedQueryFields sampleProperTypeName sampleDefaultArgs
              sampleDefaultListArgs "X"
              (generateGraphQLType sampleProperTypeName modelX false) modelX !! x = Some f →
            fields !! x = Some f) ∧
      (discoveredQueries customsOn dirX !! x = None →
       inlineQueries sampleDefaultArgs sampleDefaultListArgs
         (generateGraphQLType sampleProperTypeName modelX false) modelX !! x = None →
       generatedQueryFields sampleProperTypeName sampleDefaultArgs
         sampleDefaultListArgs "X"
         (generateGraphQLType sampleProperTypeName modelX false) modelX !! x = None →
       fields !! x = (∅ : gmap string Field) !! x).
Proof.
  apply (custom_override_precedence sampleProperTypeName sampleDefaultArgs
           sampleDefaultListArgs modelsX customsOn dirX []
           "X" (generateGraphQLType sampleProperTypeName modelX false) modelX ∅).
  - reflexivity.
  - reflexivity.
Defined.

(** The claim as the spec states it, refuted: entity X generates the
    field [x], declares the inline override [x], and the custom directory
    holds [x.js]; the field [x] of the query root is the discovered
    module, not the inline override. *)
Lemma custom_override_precedence_counterexample :
  ∃ fields,
    generateQueryRootType sampleProperTypeName sampleDefaultArgs sampleDefaultListArgs
      modelsX customsOn dirX
      [("X", generateGraphQLType sampleProperTypeName modelX false)] = Ok fields ∧
    is_Some (generatedQueryFields sampleProperTypeName sampleDefaultArgs
               sampleDefaultListArgs "X"
               (generateGraphQLType sampleProperTypeName modelX false) modelX !! "x") ∧
    inlineQueries sampleDefaultArgs sampleDefaultListArgs
      (generateGraphQLType sampleProperTypeName modelX false) modelX !! "x"
      = Some inlineX ∧
    fields !! "x" =
      Some {| f_name := Some "x"; f_type := GraphQLString; f_args := ∅;
              f_resolve := Some (userFunction "discovered") |} ∧
    fields !! "x" ≠ Some inlineX.
Proof.
  eexists. split; [vm_compute; reflexivity|].
  split; [by eexists|]. split; [reflexivity|]. split; [reflexivity|].
  vm_compute. discriminate.
Qed.

(** Without the custom directory the inline override is what suppresses
    the generated field. *)
Example inline_override_over_generated :
  ∃ fields,
    generateQueryRootType sampleProperTypeName sampleDefaultArgs sampleDefaultListArgs
      modelsX customsOff dirX
      [("X", generateGraphQLType sampleProperTypeName modelX false)] = Ok fields ∧
    fields !! "x" = Some inlineX.
Proof. eexists. split; reflexivity. Qed.

(** ** The helpers on strings, on the file names of a custom directory *)

Example sliceLast_js : sliceLast 3 "x.js" = ".js" ∧ sliceLast 3 "ts" = "ts".
Proof. split; reflexivity. Qed.

Example removeFirst_extension :
  removeFirst ".ts" (removeFirst ".js" "userCount.js") = "userCount" ∧
  removeFirst ".ts" (removeFirst ".js" "my.jsfile.js") = "myfile.js".
Proof. split; reflexivity. Qed.

(** A file that is not a script is skipped; a module without a name takes
    the name of its file. *)
Example discoverCustoms_sample :
  discoveredQueries customsOn dirX =
  {[ "x" := {| f_name := Some "x"; f_type := GraphQLString; f_args := ∅;
               f_resolve := Some (userFunction "discovered") |} ]}.
Proof. vm_compute. reflexivity. Qed.

(** * Further properties of the generator *)

(** ** When the cascade returns *)

(** A cascade that returned went through every HasMany target with less
    fuel. *)
Lemma getDeepAssociations_Ok_step models (fuel : nat) a l :
  getDeepAssociations fuel a models = Ok l →
  is_Some (models !! a) ∧
  ∀ b, hasManyEdge models a b →
       ∃ (fuel' : nat) l', (fuel' < fuel)%nat ∧
                           getDeepAssociations fuel' b models = Ok l'.
Proof.
  intros Hl. destruct fuel as [|fuel]; [done|].
  cbn [getDeepAssociations] in Hl.
  destruct (models !! a) as [m|] eqn:Hm; [|done].
  split; [by eexists|].
  intros b (m' & an & r & Hm' & Hin & Hr & <-).
  assert (m' = m) as -> by congruence.
  apply collectIncludes_entries in Hl as (l' & _ & HF).
  assert ((an, r) ∈ filter (λ p, isHasMany p.2 = true) (associations m)) as Hf.
  { apply list_elem_of_filter. split; [by apply bool_decide_eq_true|done]. }
  apply list_elem_of_lookup_1 in Hf as [i Hi].
  destruct (Forall2_lookup_l _ _ _ _ _ HF Hi) as (inc & _ & _ & _ & Hrec).
  exists fuel, (inc_include inc). split; [lia|done].
Qed.

Lemma getDeepAssociations_Ok_reach models a b :
  rtc (hasManyEdge models) a b →
  ∀ (fuel : nat) l, getDeepAssociations fuel a models = Ok l →
    ∃ (fuel' : nat) l', getDeepAssociations fuel' b models = Ok l'.
Proof.
  induction 1 as [a|a c b He _ IH]; intros fuel l Hl; [by eauto|].
  destruct (getDeepAssociations_Ok_step _ _ _ _ Hl) as [_ Hstep].
  destruct (Hstep c He) as (fuel' & l' & _ & Hl'). by eapply IH.
Qed.

Lemma getDeepAssociations_Ok_descend models a b :
  tc (hasManyEdge models) a b →
  ∀ (fuel : nat) l, getDeepAssociations fuel a models = Ok l →
    ∃ (fuel' : nat) l', (fuel' < fuel)%nat ∧
                        getDeepAssociations fuel' b models = Ok l'.
Proof.
  induction 1 as [a b He|a c b He _ IH]; intros fuel l Hl.
  - destruct (getDeepAssociations_Ok_step _ _ _ _ Hl) as [_ Hstep].
    by apply Hstep.
  - destruct (getDeepAssociations_Ok_step _ _ _ _ Hl) as [_ Hstep].
    destruct (Hstep c He) as (fuel' & l' & Hlt & Hl').
    destruct (IH _ _ Hl') as (fuel'' & l'' & Hlt' & Hl'').
    exists fuel'', l''. split; [lia|done].
Qed.

Lemma getDeepAssociations_Ok_closed models (fuel : nat) a l :
  getDeepAssociations fuel a models = Ok l → closedFrom models a.
Proof.
  intros Hl b Hab.
  destruct (getDeepAssociations_Ok_reach _ _ _ Hab _ _ Hl) as (fuel' & l' & Hl').
  by apply getDeepAssociations_Ok_step in Hl' as [? _].
Qed.

Lemma getDeepAssociations_Ok_acyclic models (fuel : nat) a l :
  getDeepAssociations fuel a models = Ok l → acyclicFrom models a.
Proof.
  intros Hl b Hab Hcyc.
  destruct (getDeepAssociations_Ok_reach _ _ _ Hab _ _ Hl) as (fuel' & l' & Hl').
  clear Hl Hab. revert l' Hl'.
  induction (lt_wf fuel') as [fuel' _ IH]. intros l' Hl'.
  destruct (getDeepAssociations_Ok_descend _ _ _ Hcyc _ _ Hl')
    as (fuel'' & l'' & Hlt & Hl'').
  by eapply IH.
Qed.

(** X1. The cascade of an entity returns a list, for some amount of fuel,
    exactly when every entity reachable from it through HasMany
    associations is registered and none of them lies on a HasMany cycle. *)
Theorem cascade_returns_iff_closed_acyclic (models : gmap string Model) (A : string) :
  (∃ (fuel : nat) l, getDeepAssociations fuel A models = Ok l) ↔
  closedFrom models A ∧ acyclicFrom models A.
Proof.
  split.
  - intros (fuel & l & Hl). split.
    + by eapply getDeepAssociations_Ok_closed.
    + by eapply getDeepAssociations_Ok_acyclic.
  - intros [Hclosed Hacyc].
    pose proof (getDeepAssociations_defined models (S (size models)) [] A Hacyc
                  (NoDup_nil_2) (λ p Hp, False_ind _ (not_elem_of_nil p Hp))
                  (λ p Hp, False_ind _ (not_elem_of_nil p Hp))
                  ltac:(cbn; lia)) as Hdef.
    pose proof (getDeepAssociations_no_throw models (S (size models)) A Hclosed).
    exists (S (size models)).
    destruct (getDeepAssociations (S (size models)) A models); [by eexists|done..].
Qed.

(** X2. In a registry without dangling targets, an entity that reaches a
    HasMany cycle has no cascade: the recursion does not return, whatever
    the fuel. *)
Theorem cascade_diverges_on_cycle (models : gmap string Model) (A b : string) :
  closedFrom models A →
  rtc (hasManyEdge models) A b →
  tc (hasManyEdge models) b b →
  ∀ fuel : nat, getDeepAssociations fuel A models = OutOfFuel.
Proof.
  intros Hclosed Hab Hcyc fuel.
  pose proof (getDeepAssociations_no_throw models fuel A Hclosed) as Hnt.
  destruct (getDeepAssociations fuel A models) as [l| |] eqn:Hl; [|done..].
  exfalso. by apply (getDeepAssociations_Ok_acyclic _ _ _ _ Hl b Hab).
Qed.

Lemma cascade_diverges_on_cycle_witness :
  closedFrom loopModels "L" ∧
  ∀ fuel : nat, getDeepAssociations fuel "L" loopModels = OutOfFuel.
Proof.
  assert (closedFrom loopModels "L") as Hclosed.
  { apply targets_closed; [by eexists|]. vm_compute. repeat constructor; by eexists. }
  split; [done|].
  apply (cascade_diverges_on_cycle loopModels "L" "L" Hclosed (rtc_refl _ _)).
  apply tc_once, hasManyEdge_allEdges. vm_compute. left.
Defined.

(** X3. When the HasMany graph below an entity is acyclic but reaches a
    target that is not registered, the cascade throws: with more fuel than
    the registry has entities the result is the TypeError. *)
Theorem cascade_throws_on_dangling_target (models : gmap string Model) (A b : string) :
  acyclicFrom models A →
  rtc (hasManyEdge models) A b →
  models !! b = None →
  ∀ fuel : nat, (size models < fuel)%nat →
    getDeepAssociations fuel A models = Throw.
Proof.
  intros Hacyc Hab Hb fuel Hfuel.
  pose proof (getDeepAssociations_defined models fuel [] A Hacyc
                (NoDup_nil_2) (λ p Hp, False_ind _ (not_elem_of_nil p Hp))
                (λ p Hp, False_ind _ (not_elem_of_nil p Hp))
                ltac:(cbn; lia)) as Hdef.
  destruct (getDeepAssociations fuel A models) as [l| |] eqn:Hl; [|done..].
  apply getDeepAssociations_Ok_closed in Hl.
  destruct (Hl b Hab) as [? ?]. congruence.
Qed.

Lemma cascade_throws_on_dangling_target_witness :
  danglingModels !! "Ghost" = None ∧
  ∀ fuel : nat, (size danglingModels < fuel)%nat →
    getDeepAssociations fuel "A" danglingModels = Throw.
Proof.
  split; [reflexivity|].
  apply (cascade_throws_on_dangling_target danglingModels "A" "Ghost").
  - apply (ranked_acyclic danglingModels sampleRank).
    vm_compute. repeat constructor.
  - apply rtc_once, hasManyEdge_allEdges. vm_compute. left.
  - reflexivity.
Defined.

(** ** The fields of the generated types *)

(** An association is without a type when it is a list of a target
    that the registry does not have. *)
Lemma associationFieldType_None types r :
  associationFieldType types r = None ↔
  (associationType r = HasMany ∨ associationType r = BelongsToMany) ∧
  types !! target r = None.
Proof.
  unfold associationFieldType.
  destruct (associationType r) eqn:Hkind; cbn [bool_decide orb];
    repeat (case_bool_decide; try done); cbn [orb];
    try rewrite fmap_None; naive_solver.
Qed.

(** With distinct association names, as the properties of an object are,
    every association has its own field. *)
Lemma associationFieldsLoop_lookup fields associations types isInput result an r :
  NoDup associations.*1 →
  (an, r) ∈ associations →
  associationFieldsLoop fields associations types isInput = Ok result →
  ∃ type, associationFieldType types r = Some type ∧
    result !! an =
    Some {| f_name := None; f_type := type; f_args := ∅;
            f_resolve := if isInput then None
                         else Some (resolverOfAssociation an) |}.
Proof.
  revert fields. induction associations as [|[an' r'] rest IH]; intros fields Hnd Hin;
    [by apply not_elem_of_nil in Hin|].
  cbn [associationFieldsLoop fmap list_fmap fst] in *.
  apply NoDup_cons in Hnd as [Hfresh Hnd].
  destruct (associationFieldType types r') as [type|] eqn:Ht; [|done].
  intros Hrest. apply elem_of_cons in Hin as [[= -> ->]|Hin].
  - exists type. split; [done|].
    rewrite (associationFieldsLoop_keeps _ _ _ _ _ _ Hrest Hfresh).
    by rewrite lookup_insert_eq.
  - by apply (IH _ Hnd Hin Hrest).
Qed.

(** Whatever the names, the resolver of a field that the loop wrote is
    fixed by its name and by the variant of the type. *)
Lemma associationFieldsLoop_resolve fields associations types isInput result k f :
  associationFieldsLoop fields associations types isInput = Ok result →
  result !! k = Some f →
  (fields !! k = Some f ∧ k ∉ associations.*1) ∨
  (k ∈ associations.*1 ∧
   f_resolve f = if isInput then None else Some (resolverOfAssociation k)).
Proof.
  revert fields. induction associations as [|[an r] rest IH]; intros fields;
    cbn [associationFieldsLoop fmap list_fmap fst].
  - intros [= <-] Hf. left. split; [done|]. apply not_elem_of_nil.
  - destruct (associationFieldType types r) as [type|]; [|done].
    intros Hrest Hf. destruct (IH _ Hrest Hf) as [[Hk Hnot]|[Hin Hres]].
    + destruct (decide (an = k)) as [->|Hne].
      * rewrite lookup_insert_eq in Hk. injection Hk as <-.
        right. split; [left|done].
      * rewrite lookup_insert_ne in Hk by done. left. split; [done|].
        apply not_elem_of_cons. by split.
    + right. split; [by right|done].
Qed.

Lemma attributeFields_resolve toGraphQL model exclude allowNull k f :
  attributeFields toGraphQL model exclude allowNull !! k = Some f →
  f_resolve f = None.
Proof.
  unfold attributeFields.
  induction (rawAttributes model) as [|[key a] rest IH] using rev_ind.
  - cbn [foldl]. by rewrite lookup_empty.
  - rewrite foldl_snoc. case_bool_decide; [done|].
    destruct (decide (key = k)) as [->|Hne].
    + rewrite lookup_insert_eq. by intros [= <-].
    + by rewrite lookup_insert_ne.
Qed.

(** The registry of one variant holds, under the name of every entity
    that is not one of the three reserved entries, the type generated for
    it. *)
Lemma generated_registry_lookup getProperTypeName (models : list (string * Model))
    (isInput : bool) t mt :
  NoDup models.*1 →
  (t, mt) ∈ models →
  t ≠ "Sequelize" → t ≠ "sequelize" → t ≠ "Op" →
  (list_to_map
     (map (λ p, (p.1, generateGraphQLType getProperTypeName p.2 isInput))
          (filter (λ p, p.1 ≠ "Sequelize" ∧ p.1 ≠ "sequelize" ∧ p.1 ≠ "Op") models))
   : gmap string GeneratedType) !! t =
  Some (generateGraphQLType getProperTypeName mt isInput).
Proof.
  intros Hnd Hin H1 H2 H3.
  induction models as [|[k mk] rest IH]; [by apply not_elem_of_nil in Hin|].
  cbn [fmap list_fmap fst] in Hnd. apply NoDup_cons in Hnd as [Hk Hnd].
  rewrite filter_cons. apply elem_of_cons in Hin as [[= <- <-]|Hin].
  - rewrite decide_True by done. cbn. by rewrite lookup_insert_eq.
  - assert (k ≠ t) as Hne.
    { intros ->. apply Hk, list_elem_of_fmap. by exists (t, mt). }
    destruct (decide _); [|by apply IH].
    cbn. rewrite lookup_insert_ne by done. by apply IH.
Qed.

(** X4. Types refer to each other through the registry, read when the
    fields are read. When the target of every HasMany and BelongsToMany
    association of an entity is in the registry, the fields of the type
    generated for the entity are computed, and the field of an association
    whose target is a registered entity has the target's generated type of
    the same variant, inside a list for HasMany and BelongsToMany,
    wherever the target stands in the enumeration of the models, and even
    when an attribute has the name of the association. The field has the
    association's resolver in the output type and none in the input
    type. *)
Theorem association_field_refers_to_target_type
    (getProperTypeName : Model → ProperTypeName) (toGraphQL : string → GraphQLType)
    (models : list (string * Model)) (m mt : Model) (an : string) (r : Association)
    (isInput : bool) :
  let registries := generateModelTypes getProperTypeName models in
  let types : gmap string GeneratedType :=
    list_to_map (if isInput then registries.2 else registries.1) in
  let targetType :=
    GraphQLNamed (if isInput
                  then singular (upperFirst (getProperTypeName mt)) ++ "Input"
                  else singular (upperFirst (getProperTypeName mt))) in
  NoDup models.*1 →
  NoDup (associations m).*1 →
  (∀ an' r', (an', r') ∈ associations m →
     associationType r' = HasMany ∨ associationType r' = BelongsToMany →
     is_Some (types !! target r')) →
  (an, r) ∈ associations m →
  (target r, mt) ∈ models →
  target r ≠ "Sequelize" → target r ≠ "sequelize" → target r ≠ "Op" →
  ∃ fields,
    fieldsOf toGraphQL types (generateGraphQLType getProperTypeName m isInput)
      = Ok fields ∧
    fields !! an =
    Some {| f_name := None;
            f_type := match associationType r with
                      | HasMany | BelongsToMany => GraphQLList targetType
                      | BelongsTo | HasOne => targetType
                      end;
            f_args := ∅;
            f_resolve := if isInput then None
                         else Some (resolverOfAssociation an) |}.
Proof.
  intros registries types targetType Hmodels Hnames Hlists Hin Htarget H1 H2 H3.
  unfold fieldsOf. cbn [generateGraphQLType g_model g_isInput].
  pose proof (associationFieldsLoop_result ∅ (associations m) types isInput) as Hres.
  unfold generateAssociationFields.
  destruct (associationFieldsLoop ∅ (associations m) types isInput)
    as [associationFields| |] eqn:Hloop; [|exfalso|done].
  - eexists. split; [done|]. apply lookup_union_Some_l.
    destruct (associationFieldsLoop_lookup _ _ _ _ _ an r Hnames Hin Hloop)
      as (type & Htype & ->).
    assert (types !! target r
            = Some (generateGraphQLType getProperTypeName mt isInput)) as Hreg.
    { unfold types, registries, generateModelTypes.
      destruct isInput; cbn [fst snd];
        by rewrite (generated_registry_lookup _ _ _ _ mt). }
    unfold associationFieldType, typeRef in Htype. rewrite Hreg in Htype.
    cbn [fmap option_fmap option_map generateGraphQLType g_name] in Htype.
    destruct (associationType r); cbn in Htype; by injection Htype as <-.
  - apply Exists_exists in Hres as ([an' r'] & Hin' & Hnone). cbn [snd] in Hnone.
    apply associationFieldType_None in Hnone as [Hkind Hnone].
    destruct (Hlists an' r' Hin' Hkind) as [? ?]. congruence.
Qed.

Lemma association_field_refers_to_target_type_witness :
  ∃ fields,
    fieldsOf sampleToGraphQL
      (list_to_map (generateModelTypes sampleProperTypeName
                      [("A", modelA); ("B", modelB); ("C", modelC)]).1)
      (generateGraphQLType sampleProperTypeName modelA false) = Ok fields ∧
    fields !! "Bs" =
    Some {| f_name := None; f_type := GraphQLList (GraphQLNamed "B");
            f_args := ∅; f_resolve := Some (resolverOfAssociation "Bs") |}.
Proof.
  apply (association_field_refers_to_target_type sampleProperTypeName sampleToGraphQL
           [("A", modelA); ("B", modelB); ("C", modelC)] modelA modelB "Bs"
           {| associationType := HasMany; target := "B" |} false).
  - apply (bool_decide_unpack _). vm_compute. exact I.
  - apply (bool_decide_unpack _). vm_compute. exact I.
  - intros an' r' Hin _. apply list_elem_of_singleton in Hin as [= -> ->].
    vm_compute. eauto.
  - left.
  - right. left.
  - discriminate.
  - discriminate.
  - discriminate.
Defined.

(** X5. No field of an input type has a resolver; in an output type the
    fields with a resolver are exactly the association fields, each with
    the resolver of its own association. *)
Theorem field_resolvers_by_variant
    (getProperTypeName : Model → ProperTypeName) (toGraphQL : string → GraphQLType)
    (types : gmap string GeneratedType) (model : Model) (isInput : bool)
    (fields : gmap string Field) (k : string) (f : Field) :
  fieldsOf toGraphQL types (generateGraphQLType getProperTypeName model isInput)
    = Ok fields →
  fields !! k = Some f →
  f_resolve f =
    if isInput then None
    else if bool_decide (k ∈ (associations model).*1)
         then Some (resolverOfAssociation k) else None.
Proof.
  unfold fieldsOf. cbn [generateGraphQLType g_model g_isInput].
  destruct (generateAssociationFields (associations model) types isInput)
    as [associationFields| |] eqn:Hloop; [|done..].
  intros [= <-] Hf. apply lookup_union_Some_raw in Hf as [Hf|[Hnone Hf]].
  - destruct (associationFieldsLoop_resolve _ _ _ _ _ _ _ Hloop Hf)
      as [[Hempty _]|[Hin ->]]; [by rewrite lookup_empty in Hempty|].
    by rewrite bool_decide_eq_true_2.
  - assert (k ∉ (associations model).*1) as Hin.
    { intros Hin.
      assert (is_Some (associationFields !! k)) as [? ?]; [|congruence].
      apply (associationFieldsLoop_is_Some _ _ _ _ _ k Hloop). by right. }
    rewrite (attributeFields_resolve _ _ _ _ _ _ Hf).
    rewrite bool_decide_eq_false_2 by done. by destruct isInput.
Qed.

Lemma field_resolvers_by_variant_witness :
  f_resolve {| f_name := None; f_type := GraphQLList (GraphQLNamed "B");
               f_args := ∅; f_resolve := Some (resolverOfAssociation "Bs") |}
  = Some (resolverOfAssociation "Bs") ∧
  f_resolve {| f_name := None; f_type := GraphQLNonNull GraphQLInt;
               f_args := ∅; f_resolve := None |} = None.
Proof.
  split.
  - eapply (field_resolvers_by_variant sampleProperTypeName sampleToGraphQL
              (list_to_map (generateModelTypes sampleProperTypeName
                              [("A", modelA); ("B", modelB); ("C", modelC)]).1)
              modelA false _ "Bs").
    + vm_compute. reflexivity.
    + vm_compute. reflexivity.
  - eapply (field_resolvers_by_variant sampleProperTypeName sampleToGraphQL
              (list_to_map (generateModelTypes sampleProperTypeName
                              [("A", modelA); ("B", modelB); ("C", modelC)]).1)
              modelA false _ "id").
    + vm_compute. reflexivity.
    + vm_compute. reflexivity.
Defined.

(** X27. Reading the fields of a generated type throws exactly when one
    of the entity's HasMany or BelongsToMany associations has a target
    that the registry does not hold: the list type cannot be built around
    a missing type. A missing target of a BelongsTo or HasOne association
    does not make it throw. *)
Theorem fields_throw_iff_list_target_missing
    (getProperTypeName : Model → ProperTypeName) (toGraphQL : string → GraphQLType)
    (types : gmap string GeneratedType) (model : Model) (isInput : bool) :
  let g := generateGraphQLType getProperTypeName model isInput in
  (fieldsOf toGraphQL types g = Throw ↔
   ∃ an r, (an, r) ∈ associations model ∧
           (associationType r = HasMany ∨ associationType r = BelongsToMany) ∧
           types !! target r = None) ∧
  ((∃ fields, fieldsOf toGraphQL types g = Ok fields) ↔
   ∀ an r, (an, r) ∈ associations model →
           associationType r = HasMany ∨ associationType r = BelongsToMany →
           is_Some (types !! target r)).
Proof.
  intros g. unfold fieldsOf, generateAssociationFields.
  cbn [g generateGraphQLType g_model g_isInput].
  pose proof (associationFieldsLoop_result ∅ (associations model) types isInput)
    as Hres.
  destruct (associationFieldsLoop ∅ (associations model) types isInput)
    as [associationFields| |]; [| |done].
  - rewrite Forall_forall in Hres.
    assert (∀ an r, (an, r) ∈ associations model →
              associationType r = HasMany ∨ associationType r = BelongsToMany →
              is_Some (types !! target r)) as Hall.
    { intros an r Hin Hkind. destruct (types !! target r) eqn:Hreg; [by eexists|].
      destruct (Hres (an, r) Hin) as [type Htype]. cbn [snd] in Htype.
      assert (associationFieldType types r = None) as Hnone
        by by apply associationFieldType_None.
      congruence. }
    split; split; [done| |by intros _|by intros _; eexists].
    intros (an & r & Hin & Hkind & Hnone).
    destruct (Hall an r Hin Hkind) as [? ?]. congruence.
  - apply Exists_exists in Hres as ([an r] & Hin & Hnone). cbn [snd] in Hnone.
    apply associationFieldType_None in Hnone as [Hkind Hnone].
    split; split; [by intros _; exists an, r|done|by intros [? ?]|].
    intros Hall. destruct (Hall an r Hin Hkind) as [? ?]. congruence.
Qed.

Example fields_of_orphan_throw :
  fieldsOf sampleToGraphQL ∅ (generateGraphQLType sampleProperTypeName modelOrphan false)
  = Throw.
Proof. reflexivity. Qed.

(** X6. The two registries pair up: they list the same entities, in the
    order of the models and without the entries [Sequelize], [sequelize]
    and [Op]; under each name stand the output type and the input type of
    the same model, the input type named as the output type with the
    suffix [Input]. *)
Theorem generated_registries_pair_up
    (getProperTypeName : Model → ProperTypeName) (models : list (string * Model)) :
  let registries := generateModelTypes getProperTypeName models in
  registries.1.*1 =
    filter (λ k, k ≠ "Sequelize" ∧ k ≠ "sequelize" ∧ k ≠ "Op") models.*1 ∧
  Forall2 (λ o i, o.1 = i.1 ∧
                  g_model o.2 = g_model i.2 ∧
                  g_isInput o.2 = false ∧ g_isInput i.2 = true ∧
                  g_name i.2 = g_name o.2 ++ "Input")
          registries.1 registries.2.
Proof.
  unfold generateModelTypes. cbn [fst snd].
  induction models as [|[k m] rest [IH1 IH2]]; [by split; [|constructor]|].
  rewrite filter_cons. cbn [fmap list_fmap fst]. rewrite filter_cons. cbn [fst].
  destruct (decide (k ≠ "Sequelize" ∧ k ≠ "sequelize" ∧ k ≠ "Op")); [|done].
  cbn [map fmap list_fmap fst snd]. split; [by f_equal|].
  constructor; [|done]. done.
Qed.

(** ** Custom directories *)

Lemma discoverCustoms_snoc files file objQuery (customs : gmap string Field) :
  discoverCustoms (files ++ [(file, objQuery)]) customs =
  if isScript file
  then <[moduleName file objQuery := namedModule file objQuery]>
         (discoverCustoms files customs)
  else discoverCustoms files customs.
Proof.
  unfold discoverCustoms. rewrite foldl_snoc. unfold isScript.
  case_bool_decide; [|done].
  unfold namedModule, moduleName, truthyString.
  destruct objQuery as [[nm|] t a r]; cbn [f_name f_type f_args f_resolve];
    [|reflexivity].
  destruct (negb (String.eqb nm "")); reflexivity.
Qed.

(** X7. Files that are not scripts do not count: the custom resolvers of
    a directory are those of its [.js] and [.ts] files alone. *)
Theorem discoverCustoms_ignores_other_files (files : list (string * Field))
    (customs : gmap string Field) :
  discoverCustoms files customs =
  discoverCustoms (filter (λ p, isScript p.1 = true) files) customs.
Proof.
  induction files as [|[file objQuery] files IH] using rev_ind; [done|].
  rewrite filter_app, filter_cons, filter_nil. cbn [fst].
  rewrite discoverCustoms_snoc. destruct (isScript file) eqn:Hs.
  - rewrite decide_True by done. by rewrite discoverCustoms_snoc, Hs, IH.
  - rewrite decide_False by (by intros ?). by rewrite app_nil_r.
Qed.

(** X8. A script of the directory is registered under the name its module
    declares, or, when the module declares none (or the empty one), under
    its file name without the extension; the registered module carries
    that name. It stays unless a later script takes the same name. *)
Theorem discovered_module_registered (before after : list (string * Field))
    (file : string) (objQuery : Field) (customs : gmap string Field) :
  isScript file = true →
  (∀ file' objQuery', (file', objQuery') ∈ after → isScript file' = true →
                       moduleName file' objQuery' ≠ moduleName file objQuery) →
  discoverCustoms (before ++ (file, objQuery) :: after) customs
    !! moduleName file objQuery = Some (namedModule file objQuery).
Proof.
  intros Hs. induction after as [|[file' objQuery'] after IH] using rev_ind;
    intros Hlater.
  - by rewrite discoverCustoms_snoc, Hs, lookup_insert_eq.
  - rewrite app_comm_cons, app_assoc, discoverCustoms_snoc.
    assert (discoverCustoms (before ++ (file, objQuery) :: after) customs
              !! moduleName file objQuery = Some (namedModule file objQuery)) as IH'.
    { apply IH. intros f o Hin. apply Hlater, elem_of_app. by left. }
    destruct (isScript file') eqn:Hs'; [|done].
    rewrite lookup_insert_ne; [done|].
    apply Hlater; [|done]. apply elem_of_app. right. left.
Qed.

Lemma discovered_module_registered_witness :
  discoverCustoms ([] ++ ("x.js", discoveredX) :: [("notes.md", inlineX)]) ∅ !! "x" =
  Some {| f_name := Some "x"; f_type := GraphQLString; f_args := ∅;
          f_resolve := Some (userFunction "discovered") |}.
Proof.
  apply (discovered_module_registered [] [("notes.md", inlineX)] "x.js" discoveredX ∅).
  - reflexivity.
  - intros file' objQuery' [[= -> ->]|Hin%not_elem_of_nil]%elem_of_cons; [|done].
    discriminate.
Defined.

(** ** More on the query root *)

Section QueryRootFacts.
Variable getProperTypeName : Model → ProperTypeName.
Variable defaultArgs : Model → gmap string GraphQLType.
Variable defaultListArgs : gmap string GraphQLType.
Variable models : gmap string Model.
Variable opts : SchemaOptions.
Variable dir : CustomsDir.

Abbreviation reduceQ :=
  (queryReduce getProperTypeName defaultArgs defaultListArgs models opts dir).
Abbreviation stepQ :=
  (queryStep getProperTypeName defaultArgs defaultListArgs models opts dir).

Lemma queryStep_Ok fields entry model :
  models !! entry.1 = Some model →
  stepQ fields entry =
  Ok (discoveredQueries opts dir ∪
      (inlineQueries defaultArgs defaultListArgs entry.2 model ∪
       (generatedQueryFields getProperTypeName defaultArgs defaultListArgs
          entry.1 entry.2 model ∪ fields))).
Proof.
  intros Hm. unfold queryStep. rewrite Hm, queryCustoms_layers.
  by rewrite (assoc_L (∪) (discoveredQueries opts dir)).
Qed.

(** A field, once there, stays under its name (whoever provides it). *)
Lemma queryReduce_keeps fields outputTypes fields' k :
  reduceQ fields outputTypes = Ok fields' →
  is_Some (fields !! k) → is_Some (fields' !! k).
Proof.
  revert fields. induction outputTypes as [|e rest IH]; intros fields; cbn.
  - by intros [= <-].
  - destruct (models !! e.1) as [model|] eqn:Hm.
    + rewrite (queryStep_Ok _ _ _ Hm). intros Hrest Hk. eapply IH; [done|].
      rewrite !lookup_union_is_Some. auto.
    + unfold queryStep. by rewrite Hm.
Qed.

Lemma queryReduce_result fields outputTypes :
  match reduceQ fields outputTypes with
  | Ok _ => Forall (λ e, is_Some (models !! e.1)) outputTypes
  | Throw => Exists (λ e, models !! e.1 = None) outputTypes
  | OutOfFuel => False
  end.
Proof.
  revert fields. induction outputTypes as [|e rest IH]; intros fields; cbn.
  - constructor.
  - destruct (models !! e.1) as [model|] eqn:Hm.
    + rewrite (queryStep_Ok _ _ _ Hm).
      specialize (IH (discoveredQueries opts dir ∪
        (inlineQueries defaultArgs defaultListArgs e.2 model ∪
         (generatedQueryFields getProperTypeName defaultArgs defaultListArgs
            e.1 e.2 model ∪ fields)))).
      destruct (reduceQ _ rest); [|by right|done].
      constructor; [by eexists|done].
    + unfold queryStep. rewrite Hm. by left.
Qed.

End QueryRootFacts.

(** X9. Building the query root succeeds exactly when every name of the
    output registry is a registered model; otherwise, some name is not
    and the build throws. It never fails to return. *)
Theorem query_root_needs_registered_models
    (getProperTypeName : Model → ProperTypeName)
    (defaultArgs : Model → gmap string GraphQLType)
    (defaultListArgs : gmap string GraphQLType)
    (models : gmap string Model) (opts : SchemaOptions) (dir : CustomsDir)
    (outputTypes : list (string * GeneratedType)) :
  match generateQueryRootType getProperTypeName defaultArgs defaultListArgs
          models opts dir outputTypes with
  | Ok _ => Forall (λ e, is_Some (models !! e.1)) outputTypes
  | Throw => Exists (λ e, models !! e.1 = None) outputTypes
  | OutOfFuel => False
  end.
Proof. apply queryReduce_result. Qed.

(** X10. The modules of the custom directory are merged once per entity:
    with at least one entity every discovered module is a field of the
    query root, under its name; with no entity the query root is empty,
    directory or not. *)
Theorem discovered_modules_need_an_entity
    (getProperTypeName : Model → ProperTypeName)
    (defaultArgs : Model → gmap string GraphQLType)
    (defaultListArgs : gmap string GraphQLType)
    (models : gmap string Model) (opts : SchemaOptions) (dir : CustomsDir)
    (outputTypes : list (string * GeneratedType)) (fields : gmap string Field) :
  generateQueryRootType getProperTypeName defaultArgs defaultListArgs
    models opts dir outputTypes = Ok fields →
  if bool_decide (outputTypes = [])
  then fields = ∅
  else ∀ x d, discoveredQueries opts dir !! x = Some d → fields !! x = Some d.
Proof.
  unfold generateQueryRootType.
  destruct outputTypes as [|e rest _] using rev_ind.
  - cbn. by intros [= <-].
  - rewrite bool_decide_eq_false_2 by (by destruct rest).
    rewrite queryReduce_snoc.
    destruct (queryReduce _ _ _ _ _ _ ∅ rest) as [earlier| |]; [|done..].
    destruct (models !! e.1) as [model|] eqn:Hm.
    + rewrite (queryStep_Ok _ _ _ _ _ _ _ _ _ Hm). intros [= <-] x d Hd.
      by apply lookup_union_Some_l.
    + unfold queryStep. by rewrite Hm.
Qed.

Lemma discovered_modules_need_an_entity_witness :
  [("X", generateGraphQLType sampleProperTypeName modelX false)] ≠ [] ∧
  ∀ x d, discoveredQueries customsOn dirX !! x = Some d →
    (discoveredQueries customsOn dirX ∪
     (inlineQueries sampleDefaultArgs sampleDefaultListArgs
        (generateGraphQLType sampleProperTypeName modelX false) modelX ∪
      (generatedQueryFields sampleProperTypeName sampleDefaultArgs
         sampleDefaultListArgs "X"
         (generateGraphQLType sampleProperTypeName modelX false) modelX ∪ ∅)))
      !! x = Some d.
Proof.
  split; [discriminate|].
  exact (discovered_modules_need_an_entity sampleProperTypeName sampleDefaultArgs
           sampleDefaultListArgs modelsX customsOn dirX
           [("X", generateGraphQLType sampleProperTypeName modelX false)] _ eq_refl).
Defined.

(** X11. Every entity of the output registry has its three query fields
    in the query root, under the singular name, the plural name and the
    singular name followed by [Restful]; who provides the field under a
    name is another matter. *)
Theorem query_root_has_the_generated_names
    (getProperTypeName : Model → ProperTypeName)
    (defaultArgs : Model → gmap string GraphQLType)
    (defaultListArgs : gmap string GraphQLType)
    (models : gmap string Model) (opts : SchemaOptions) (dir : CustomsDir)
    (outputTypes : list (string * GeneratedType)) (fields : gmap string Field)
    (modelTypeName : string) (modelType : GeneratedType) (model : Model) :
  generateQueryRootType getProperTypeName defaultArgs defaultListArgs
    models opts dir outputTypes = Ok fields →
  (modelTypeName, modelType) ∈ outputTypes →
  models !! modelTypeName = Some model →
  let lower := lowerFirst (getProperTypeName model) in
  is_Some (fields !! singular lower) ∧
  is_Some (fields !! plural lower) ∧
  is_Some (fields !! (singular lower ++ "Restful")).
Proof.
  intros Hok Hin Hm lower. revert Hok. unfold generateQueryRootType.
  generalize (∅ : gmap string Field).
  induction outputTypes as [|e rest IH]; intros start Hok.
  - by apply not_elem_of_nil in Hin.
  - cbn in Hok. apply elem_of_cons in Hin as [<-|Hin].
    + rewrite (queryStep_Ok _ _ _ _ _ _ start (modelTypeName, modelType) model Hm)
        in Hok.
      cbn [fst snd] in Hok.
      assert (∀ k, is_Some (generatedQueryFields getProperTypeName defaultArgs
                              defaultListArgs modelTypeName modelType model !! k) →
                   is_Some (fields !! k)) as Hkeep.
      { intros k Hk. eapply queryReduce_keeps; [exact Hok|].
        rewrite !lookup_union_is_Some. auto. }
      unfold generatedQueryFields in Hkeep. fold lower in Hkeep.
      repeat split; apply Hkeep; rewrite !lookup_insert_is_Some'; auto.
    + destruct (queryStep _ _ _ _ _ _ start e) as [next| |]; [|done..].
      by apply (IH Hin next).
Qed.

Lemma query_root_has_the_generated_names_witness :
  ∃ fields,
    generateQueryRootType sampleProperTypeName sampleDefaultArgs sampleDefaultListArgs
      modelsX customsOn dirX
      [("X", generateGraphQLType sampleProperTypeName modelX false)] = Ok fields ∧
    is_Some (fields !! "x") ∧ is_Some (fields !! "xs") ∧
    is_Some (fields !! "xRestful").
Proof.
  eexists. split; [reflexivity|].
  apply (query_root_has_the_generated_names sampleProperTypeName sampleDefaultArgs
           sampleDefaultListArgs modelsX customsOn dirX
           [("X", generateGraphQLType sampleProperTypeName modelX false)] _
           "X" (generateGraphQLType sampleProperTypeName modelX false) modelX).
  - reflexivity.
  - left.
  - reflexivity.
Defined.

Lemma inlineQueryCustoms_snoc defaultArgs defaultListArgs modelType model inline key query :
  inlineQueryCustoms defaultArgs defaultListArgs modelType model (inline ++ [(key, query)]) =
  <[key := match query with
           | overrideField f => f
           | overrideFunction id =>
               {| f_name := None;
                  f_type := GraphQLList (GraphQLNamed (g_name modelType));
                  f_args := defaultListArgs ∪ defaultArgs model;
                  f_resolve := Some (userFunction id) |}
           end]>
    (inlineQueryCustoms defaultArgs defaultListArgs modelType model inline).
Proof. unfold inlineQueryCustoms. rewrite foldl_snoc. by destruct query. Qed.

(** X12. An inline query override that is a field descriptor is used as
    it is; one that is a plain function becomes a field that returns a
    list of the entity's type, takes the entity's default arguments
    together with the default list arguments (these win on a shared
    name), and resolves with that function. *)
Theorem inline_query_override_wrapping
    (defaultArgs : Model → gmap string GraphQLType)
    (defaultListArgs : gmap string GraphQLType)
    (modelType : GeneratedType) (model : Model) (o : ModelOptions)
    (inline : list (string * InlineOverride)) (key : string) (query : InlineOverride) :
  options model = Some o →
  resolvers_query o = Some inline →
  NoDup inline.*1 →
  (key, query) ∈ inline →
  inlineQueries defaultArgs defaultListArgs modelType model !! key =
  Some match query with
       | overrideField f => f
       | overrideFunction id =>
           {| f_name := None;
              f_type := GraphQLList (GraphQLNamed (g_name modelType));
              f_args := defaultListArgs ∪ defaultArgs model;
              f_resolve := Some (userFunction id) |}
       end.
Proof.
  intros Ho Hq. unfold inlineQueries. rewrite Ho, Hq. clear Ho Hq.
  induction inline as [|[key' query'] rest IH] using rev_ind; intros Hnd Hin.
  - by apply not_elem_of_nil in Hin.
  - rewrite inlineQueryCustoms_snoc.
    rewrite fmap_app in Hnd. apply NoDup_app in Hnd as (Hnd & Hfresh & _).
    apply elem_of_app in Hin as [Hin|Hin].
    + assert (key ≠ key') as Hne.
      { intros ->. apply (Hfresh key'); [|cbn; left].
        apply list_elem_of_fmap. by exists (key', query). }
      rewrite lookup_insert_ne by done. by apply IH.
    + apply list_elem_of_singleton in Hin as [= -> ->].
      by rewrite lookup_insert_eq.
Qed.

Lemma inline_query_override_wrapping_witness :
  inlineQueries sampleDefaultArgs sampleDefaultListArgs
    (generateGraphQLType sampleProperTypeName modelX false) modelX !! "x" =
  Some inlineX.
Proof.
  apply (inline_query_override_wrapping sampleDefaultArgs sampleDefaultListArgs
           (generateGraphQLType sampleProperTypeName modelX false) modelX
           {| name_plural := None;
              resolvers_query := Some [("x", overrideField inlineX)];
              resolvers_mutation := None |}
           [("x", overrideField inlineX)] "x" (overrideField inlineX)).
  - reflexivity.
  - reflexivity.
  - apply (bool_decide_unpack _). vm_compute. exact I.
  - left.
Defined.

(** ** The mutation root *)

Section MutationRootFacts.
Variable getProperTypeName : Model → ProperTypeName.
Variable models : gmap string Model.
Variable outputTypes : gmap string GeneratedType.
Variable opts : SchemaOptions.
Variable dir : CustomsDir.

Abbreviation reduceM :=
  (mutationReduce getProperTypeName models outputTypes opts dir).
Abbreviation stepM :=
  (mutationStep getProperTypeName models outputTypes opts dir).

Lemma mutationCustoms_layers inputTypeName inputType model :
  mutationCustoms outputTypes opts dir inputTypeName inputType model =
  discoveredMutations opts dir ∪
  inlineMutations outputTypes inputTypeName inputType model.
Proof.
  unfold mutationCustoms, discoveredMutations.
  fold (inlineMutations outputTypes inputTypeName inputType model).
  destruct (truthyString (customsDirPath opts)); [|by rewrite (left_id_L ∅ (∪))].
  destruct (mutationFiles dir) as [files|]; [|by rewrite (left_id_L ∅ (∪))].
  apply discoverCustoms_union.
Qed.

Lemma mutationStep_Ok (fuel : nat) fields entry model l :
  models !! entry.1 = Some model →
  getDeepAssociations fuel entry.1 models = Ok l →
  stepM fuel fields entry =
  Ok (discoveredMutations opts dir ∪
      (inlineMutations outputTypes entry.1 entry.2 model ∪
       (generatedMutationFields getProperTypeName outputTypes entry.1 entry.2 model ∪
        fields))).
Proof.
  intros Hm Hl. unfold mutationStep. rewrite Hm, Hl, mutationCustoms_layers.
  by rewrite (assoc_L (∪) (discoveredMutations opts dir)).
Qed.

Lemma mutationReduce_snoc (fuel : nat) fields inputTypes entry :
  reduceM fuel fields (inputTypes ++ [entry]) =
  match reduceM fuel fields inputTypes with
  | Ok earlier => stepM fuel earlier entry
  | Throw => Throw
  | OutOfFuel => OutOfFuel
  end.
Proof.
  revert fields. induction inputTypes as [|e rest IH]; intros fields; cbn.
  - by destruct (stepM fuel fields entry).
  - destruct (stepM fuel fields e); [apply IH|done..].
Qed.

Lemma mutationReduce_result (fuel : nat) fields inputTypes :
  match reduceM fuel fields inputTypes with
  | Ok _ =>
      Forall (λ e, is_Some (models !! e.1) ∧
                   ∃ l, getDeepAssociations fuel e.1 models = Ok l) inputTypes
  | Throw =>
      Exists (λ e, models !! e.1 = None ∨
                   getDeepAssociations fuel e.1 models = Throw) inputTypes
  | OutOfFuel =>
      Exists (λ e, getDeepAssociations fuel e.1 models = OutOfFuel) inputTypes
  end.
Proof.
  revert fields. induction inputTypes as [|e rest IH]; intros fields; cbn.
  - constructor.
  - unfold mutationStep.
    destruct (models !! e.1) as [model|] eqn:Hm; [|left; by left].
    destruct (getDeepAssociations fuel e.1 models) as [l| |] eqn:Hl;
      [|left; by right|by left].
    match goal with |- context [reduceM fuel ?f rest] => specialize (IH f) end.
    destruct (reduceM fuel _ rest); [|by right|by right].
    constructor; [|done]. split; [by eexists|by eexists].
Qed.

End MutationRootFacts.

(** X13. The mutation root is layered as the query root is. After the
    step for an entity: on top the modules discovered in the [mutation]
    directory, below them the entity's inline mutation overrides, below
    them its generated [add], [update] and [delete] fields, below them
    what the earlier entities gave. *)
Theorem mutation_override_precedence
    (getProperTypeName : Model → ProperTypeName)
    (models : gmap string Model) (outputTypes : gmap string GeneratedType)
    (opts : SchemaOptions) (dir : CustomsDir) (fuel : nat)
    (earlierTypes : list (string * GeneratedType))
    (inputTypeName : string) (inputType : GeneratedType) (model : Model)
    (includeArrayModels : list Include) (earlier : gmap string Field) :
  models !! inputTypeName = Some model →
  getDeepAssociations fuel inputTypeName models = Ok includeArrayModels →
  generateMutationRootType getProperTypeName models outputTypes opts dir fuel
    earlierTypes = Ok earlier →
  let discovered := discoveredMutations opts dir in
  let inline := inlineMutations outputTypes inputTypeName inputType model in
  let generated := generatedMutationFields getProperTypeName outputTypes
                     inputTypeName inputType model in
  ∃ fields,
    generateMutationRootType getProperTypeName models outputTypes opts dir fuel
      (earlierTypes ++ [(inputTypeName, inputType)]) = Ok fields ∧
    fields = discovered ∪ (inline ∪ (generated ∪ earlier)) ∧
    ∀ x,
      (∀ d, discovered !! x = Some d → fields !! x = Some d) ∧
      (∀ q, discovered !! x = None → inline !! x = Some q → fields !! x = Some q) ∧
      (∀ f, discovered !! x = None → inline !! x = None →
            generated !! x = Some f → fields !! x = Some f).
Proof.
  intros Hmodel Hcascade Hearlier discovered inline generated.
  exists (discovered ∪ (inline ∪ (generated ∪ earlier))).
  split; [|split; [done|]].
  - unfold generateMutationRootType in *. rewrite mutationReduce_snoc, Hearlier.
    by rewrite (mutationStep_Ok _ _ _ _ _ _ _ (inputTypeName, inputType) model
                  includeArrayModels).
  - intros x. repeat split.
    + intros d Hd. by apply lookup_union_Some_l.
    + intros q Hd Hq. rewrite lookup_union_r by done. by apply lookup_union_Some_l.
    + intros f Hd Hq Hf. rewrite !lookup_union_r by done.
      by apply lookup_union_Some_l.
Qed.

(** X14. Building the mutation root computes the cascade of every entity
    of the input registry first: it succeeds exactly when every name is a
    registered model whose cascade returns; it throws when a name is not
    registered or a cascade throws, and it does not return when a cascade
    does not. *)
Theorem mutation_root_needs_every_cascade
    (getProperTypeName : Model → ProperTypeName)
    (models : gmap string Model) (outputTypes : gmap string GeneratedType)
    (opts : SchemaOptions) (dir : CustomsDir) (fuel : nat)
    (inputTypes : list (string * GeneratedType)) :
  match generateMutationRootType getProperTypeName models outputTypes opts dir fuel
          inputTypes with
  | Ok _ =>
      Forall (λ e, is_Some (models !! e.1) ∧
                   ∃ l, getDeepAssociations fuel e.1 models = Ok l) inputTypes
  | Throw =>
      Exists (λ e, models !! e.1 = None ∨
                   getDeepAssociations fuel e.1 models = Throw) inputTypes
  | OutOfFuel =>
      Exists (λ e, getDeepAssociations fuel e.1 models = OutOfFuel) inputTypes
  end.
Proof. apply mutationReduce_result. Qed.

Lemma mutation_override_precedence_witness :
  ∃ fields,
    generateMutationRootType sampleProperTypeName modelsM ∅ customsOn dirM 2
      ([] ++ [("M", generateGraphQLType sampleProperTypeName modelM true)])
      = Ok fields ∧
    fields !! "addM" =
      Some {| f_name := Some "addM"; f_type := GraphQLString; f_args := ∅;
              f_resolve := Some (userFunction "discovered") |} ∧
    fields !! "updateM" =
      Some {| f_name := None; f_type := GraphQLString; f_args := ∅;
              f_resolve := Some (userFunction "inline") |} ∧
    fields !! "deleteM" =
      Some {| f_name := None; f_type := GraphQLInt;
              f_args := {[ "id" := GraphQLNonNull GraphQLInt ]};
              f_resolve := Some (deleteResolve "M") |}.
Proof.
  destruct (mutation_override_precedence sampleProperTypeName modelsM ∅
              customsOn dirM 2 [] "M"
              (generateGraphQLType sampleProperTypeName modelM true) modelM [] ∅
              eq_refl eq_refl eq_refl)
    as (fields & Hroot & _ & Hlayers).
  exists fields. split; [exact Hroot|]. split; [|split].
  - apply (proj1 (Hlayers "addM")). reflexivity.
  - apply (proj1 (proj2 (Hlayers "updateM"))); reflexivity.
  - apply (proj2 (proj2 (Hlayers "deleteM"))); reflexivity.
Defined.

(** The three layers at work on the sample entity: the inline override
    named [addM] is in the inline layer, and it is the discovered module
    that the root has. *)
Example mutation_layers_of_M :
  discoveredMutations customsOn dirM !! "addM" =
    Some {| f_name := Some "addM"; f_type := GraphQLString; f_args := ∅;
            f_resolve := Some (userFunction "discovered") |} ∧
  inlineMutations ∅ "M" (generateGraphQLType sampleProperTypeName modelM true) modelM
    !! "addM" = Some inlineX ∧
  is_Some (generatedMutationFields sampleProperTypeName ∅ "M"
             (generateGraphQLType sampleProperTypeName modelM true) modelM
           !! "addM") ∧
  discoveredMutations customsOn dirM !! "updateM" = None ∧
  inlineMutations ∅ "M" (generateGraphQLType sampleProperTypeName modelM true) modelM
    !! "updateM" = Some inlineX ∧
  is_Some (generatedMutationFields sampleProperTypeName ∅ "M"
             (generateGraphQLType sampleProperTypeName modelM true) modelM
           !! "updateM").
Proof. repeat split; vm_compute; eauto. Qed.

(** ** The schema *)

Lemma cascade_returns_with_registry_fuel models a :
  closedFrom models a → acyclicFrom models a →
  ∃ l, getDeepAssociations (S (size models)) a models = Ok l.
Proof.
  intros Hclosed Hacyc.
  pose proof (getDeepAssociations_defined models (S (size models)) [] a Hacyc
                (NoDup_nil_2) (λ p Hp, False_ind _ (not_elem_of_nil p Hp))
                (λ p Hp, False_ind _ (not_elem_of_nil p Hp))
                ltac:(cbn; lia)) as Hdef.
  pose proof (getDeepAssociations_no_throw models (S (size models)) a Hclosed).
  destruct (getDeepAssociations (S (size models)) a models); [by eexists|done..].
Qed.

Lemma generated_registry_entries getProperTypeName (models : list (string * Model))
    (isInput : bool) (e : string * GeneratedType) :
  e ∈ map (λ p, (p.1, generateGraphQLType getProperTypeName p.2 isInput))
          (filter (λ p, p.1 ≠ "Sequelize" ∧ p.1 ≠ "sequelize" ∧ p.1 ≠ "Op") models) ↔
  ∃ m, (e.1, m) ∈ models ∧ isUserEntity e.1 ∧
       e.2 = generateGraphQLType getProperTypeName m isInput.
Proof.
  rewrite list_elem_of_fmap. split.
  - intros ([k m] & -> & [Hu Hin]%list_elem_of_filter). by exists m.
  - intros (m & Hin & Hu & He). exists (e.1, m). destruct e as [k g]. cbn in *.
    split; [by rewrite He|]. by apply list_elem_of_filter.
Qed.

(** X15. Without supplied types, the schema of a registry with distinct
    names can be built exactly when, for every entity of the user, the
    entities reachable through HasMany associations are all registered
    and none of them lies on a HasMany cycle. More fuel than the registry
    has entries is then enough, and the schema has a subscription root
    exactly when subscriptions are enabled. *)
Theorem schema_builds_iff_cascades_return
    (getProperTypeName : Model → ProperTypeName)
    (defaultArgs : Model → gmap string GraphQLType)
    (defaultListArgs : gmap string GraphQLType)
    (camelCase startCase toUpper : string → string)
    (models : list (string * Model)) (opts : SchemaOptions) (dir : CustomsDir) :
  NoDup models.*1 →
  let registry : gmap string Model := list_to_map models in
  let build fuel := generateSchema getProperTypeName defaultArgs defaultListArgs
                      camelCase startCase toUpper fuel models None opts dir in
  ((∃ (fuel : nat) schema, build fuel = Ok schema) ↔
   (∀ n m, (n, m) ∈ models → isUserEntity n →
           closedFrom registry n ∧ acyclicFrom registry n)) ∧
  ((∀ n m, (n, m) ∈ models → isUserEntity n →
           closedFrom registry n ∧ acyclicFrom registry n) →
   ∃ schema, build (S (size registry)) = Ok schema ∧
     (is_Some (schema_subscription schema) ↔ subscriptions opts = true)).
Proof.
  intros Hnd registry build.
  assert (∀ isInput e,
            e ∈ (if isInput : bool
                 then (generateModelTypes getProperTypeName models).2
                 else (generateModelTypes getProperTypeName models).1) →
            ∃ m, (e.1, m) ∈ models ∧ isUserEntity e.1 ∧ registry !! e.1 = Some m)
    as Hentries.
  { intros isInput e He.
    assert (e ∈ map (λ p, (p.1, generateGraphQLType getProperTypeName p.2 isInput))
              (filter (λ p, p.1 ≠ "Sequelize" ∧ p.1 ≠ "sequelize" ∧ p.1 ≠ "Op")
                 models)) as He' by (by destruct isInput).
    apply generated_registry_entries in He' as (m & Hin & Hu & _).
    exists m. split; [done|]. split; [done|].
    by apply elem_of_list_to_map_1. }
  assert ((∀ n m, (n, m) ∈ models → isUserEntity n →
                  closedFrom registry n ∧ acyclicFrom registry n) →
          ∃ schema, build (S (size registry)) = Ok schema ∧
            (is_Some (schema_subscription schema) ↔ subscriptions opts = true))
    as Hbuild.
  { intros Hgood. unfold build, generateSchema. cbn [default].
    pose proof (queryReduce_result getProperTypeName defaultArgs defaultListArgs
                  registry opts dir ∅
                  (generateModelTypes getProperTypeName models).1) as Hq.
    unfold generateQueryRootType. fold registry.
    destruct (queryReduce _ _ _ registry _ _ ∅ _) as [queries| |]; [| |done].
    2:{ apply Exists_exists in Hq as (e & He & Hnone).
        destruct (Hentries false e He) as (m & _ & _ & Hm). congruence. }
    pose proof (mutationReduce_result getProperTypeName registry
                  (list_to_map (generateModelTypes getProperTypeName models).1)
                  opts dir (S (size registry)) ∅
                  (generateModelTypes getProperTypeName models).2) as Hm.
    unfold generateMutationRootType.
    destruct (mutationReduce _ registry _ _ _ _ ∅ _) as [mutations| |].
    - eexists. split; [reflexivity|]. cbn [schema_subscription].
      destruct (subscriptions opts); split; try done; by intros [? ?].
    - apply Exists_exists in Hm as (e & He & Hbad).
      destruct (Hentries true e He) as (m & Hin & Hu & Hreg).
      destruct (Hgood _ _ Hin Hu) as [Hc Ha].
      destruct (cascade_returns_with_registry_fuel _ _ Hc Ha) as [l Hl].
      destruct Hbad; congruence.
    - apply Exists_exists in Hm as (e & He & Hbad).
      destruct (Hentries true e He) as (m & Hin & Hu & Hreg).
      destruct (Hgood _ _ Hin Hu) as [Hc Ha].
      destruct (cascade_returns_with_registry_fuel _ _ Hc Ha) as [l Hl].
      congruence. }
  split; [|done]. split.
  - intros (fuel & schema & Hok) n m Hin Hu.
    unfold build, generateSchema in Hok. cbn [default] in Hok.
    destruct (generateQueryRootType _ _ _ _ _ _ _) as [queries| |]; [|done..].
    pose proof (mutationReduce_result getProperTypeName registry
                  (list_to_map (generateModelTypes getProperTypeName models).1)
                  opts dir fuel ∅
                  (generateModelTypes getProperTypeName models).2) as Hm.
    unfold generateMutationRootType in Hok. fold registry in Hok.
    destruct (mutationReduce _ registry _ _ _ _ ∅ _) as [mutations| |]; [|done..].
    assert ((n, generateGraphQLType getProperTypeName m true)
            ∈ (generateModelTypes getProperTypeName models).2) as He.
    { unfold generateModelTypes. cbn [snd].
      apply generated_registry_entries. by exists m. }
    destruct (proj1 (Forall_forall _ _) Hm _ He) as [_ [l Hl]]. cbn [fst] in Hl.
    split.
    + by eapply getDeepAssociations_Ok_closed.
    + by eapply getDeepAssociations_Ok_acyclic.
  - intros Hgood. destruct (Hbuild Hgood) as (schema & Hok & _). by eauto.
Qed.

Lemma schema_builds_iff_cascades_return_witness :
  NoDup [("A", modelA); ("B", modelB); ("C", modelC)].*1 ∧
  ∃ schema,
    generateSchema sampleProperTypeName sampleDefaultArgs sampleDefaultListArgs
      lowerFirstOf lowerFirstOf (mapString upperChar)
      (S (size (list_to_map [("A", modelA); ("B", modelB); ("C", modelC)]
                : gmap string Model)))
      [("A", modelA); ("B", modelB); ("C", modelC)] None withSubscriptions dirX
      = Ok schema ∧
    (is_Some (schema_subscription schema) ↔ subscriptions withSubscriptions = true).
Proof.
  assert (NoDup [("A", modelA); ("B", modelB); ("C", modelC)].*1) as Hnd.
  { apply (bool_decide_unpack _). vm_compute. exact I. }
  split; [done|].
  apply (proj2 (schema_builds_iff_cascades_return sampleProperTypeName
                  sampleDefaultArgs sampleDefaultListArgs
                  lowerFirstOf lowerFirstOf (mapString upperChar)
                  [("A", modelA); ("B", modelB); ("C", modelC)]
                  withSubscriptions dirX Hnd)).
  intros n m Hin _. split.
  - apply targets_closed.
    + exists m. by apply elem_of_list_to_map_1.
    + vm_compute. repeat constructor; by eexists.
  - apply (ranked_acyclic _ sampleRank). vm_compute. repeat constructor.
Defined.

(** ** More on the mutations *)

Section MutationFacts.
Variable getProperTypeName : Model → ProperTypeName.
Variable orm : Orm.
Variable opts : SchemaOptions.
Variable inputTypeName : string.
Variable model : Model.
Variable includeArrayModels : list Include.

Abbreviation event := (eventOf getProperTypeName opts model).

Lemma addResolver_published arg :
  publishedEvents (effects (addResolver getProperTypeName orm opts inputTypeName
                              model includeArrayModels arg)) =
  match create orm inputTypeName arg includeArrayModels with
  | Fulfilled newObject =>
      if subscriptions opts
      then [event "_ADDED" "Added" (payloadInstance newObject)] else []
  | Rejected => []
  end.
Proof.
  unfold addResolver. async_simpl.
  destruct (create orm inputTypeName arg includeArrayModels); async_simpl;
    [|done].
  by destruct (subscriptions opts).
Qed.

Lemma deleteResolver_published where_ :
  publishedEvents (effects (deleteResolver getProperTypeName orm opts inputTypeName
                              model where_)) =
  match destroy orm inputTypeName where_ with
  | Fulfilled deletedRows =>
      if (0 <? deletedRows) && subscriptions opts
      then [event "_DELETED" "Deleted"
              (payloadValue (obj_get where_ (primaryKey model)))]
      else []
  | Rejected => []
  end.
Proof.
  unfold deleteResolver. async_simpl.
  destruct (destroy orm inputTypeName where_) as [rows|]; async_simpl; [|done].
  by destruct ((0 <? rows) && subscriptions opts).
Qed.

(** The effects of an update, once a record is found. *)
Lemma updateResolver_effects input context object2Update :
  let where_ := [(primaryKey model, obj_get input (primaryKey model))] in
  let ormOptions := {| u_where := where_; u_include := includeArrayModels;
                       u_dataloader := batchingOf context |} in
  findOne orm inputTypeName ormOptions = Fulfilled (Some object2Update) →
  let nested := omap (upsertOf inputTypeName model input (Some object2Update))
                     includeArrayModels in
  effects (updateResolver getProperTypeName orm opts inputTypeName model
             includeArrayModels (Some input) context) =
  (issued (callFindOne inputTypeName ormOptions) ::
   map (λ c, issued (callUpsertArray c)) nested ++
   issued (callUpdate object2Update input) ::
   match promiseAll (map (λ c, promiseResolve (upsertArray orm c)) nested ++
                     [settleWith updated (update orm object2Update input)]) with
   | Fulfilled ups =>
       (if subscriptions opts
        then [published (event "_UPDATED" "Updated"
                           (payloadObject (dataValuesAfter object2Update ups)))]
        else []) ++
       [issued (callResolver inputTypeName where_)]
   | Rejected => []
   end)%list.
Proof.
  intros where_ ormOptions Hfound nested.
  unfold updateResolver. fold where_. fold ormOptions.
  async_simpl. rewrite Hfound. async_simpl. fold nested.
  destruct (promiseAll _) as [ups|]; async_simpl; cbn [app]; reflexivity.
Qed.

Lemma updateResolver_published arg context :
  ∃ payload,
    publishedEvents (effects (updateResolver getProperTypeName orm opts inputTypeName
                                model includeArrayModels arg context)) =
    [event "_UPDATED" "Updated" payload] ∧ subscriptions opts = true
  ∨ publishedEvents (effects (updateResolver getProperTypeName orm opts inputTypeName
                                model includeArrayModels arg context)) = [].
Proof.
  destruct arg as [input|]; [|exists (payloadValue JNull); by right].
  destruct (findOne orm inputTypeName
              {| u_where := [(primaryKey model, obj_get input (primaryKey model))];
                 u_include := includeArrayModels;
                 u_dataloader := batchingOf context |})
    as [[object2Update|]|] eqn:Hfound.
  - rewrite (updateResolver_effects _ _ _ Hfound).
    rewrite publishedEvents_issued, publishedEvents_app, publishedEvents_upserts,
      publishedEvents_issued. cbn [app].
    destruct (promiseAll _) as [ups|]; [|exists (payloadValue JNull); by right].
    rewrite publishedEvents_app. destruct (subscriptions opts).
    + eexists. left. split; [reflexivity|done].
    + exists (payloadValue JNull). by right.
  - exists (payloadValue JNull). right.
    unfold updateResolver. async_simpl. rewrite Hfound. async_simpl.
    cbn [app]. rewrite ?app_nil_r.
    by rewrite publishedEvents_issued, publishedEvents_upserts.
  - exists (payloadValue JNull). right.
    unfold updateResolver. async_simpl. rewrite Hfound. async_simpl. done.
Qed.

End MutationFacts.

(** X16. With subscriptions disabled no mutation publishes anything,
    whatever the arguments and whatever the store answers. *)
Theorem no_event_without_subscriptions
    (getProperTypeName : Model → ProperTypeName) (orm : Orm) (opts : SchemaOptions)
    (inputTypeName : string) (model : Model) (includeArrayModels : list Include)
    (created : JValue) (changed : option JObject) (context : Context)
    (where_ : JObject) :
  subscriptions opts = false →
  publishedEvents (effects (addResolver getProperTypeName orm opts inputTypeName
                              model includeArrayModels created)) = [] ∧
  publishedEvents (effects (updateResolver getProperTypeName orm opts inputTypeName
                              model includeArrayModels changed context)) = [] ∧
  publishedEvents (effects (deleteResolver getProperTypeName orm opts inputTypeName
                              model where_)) = [].
Proof.
  intros Hoff. repeat split.
  - rewrite addResolver_published, Hoff. by destruct (create _ _ _ _).
  - destruct (updateResolver_published getProperTypeName orm opts inputTypeName
                model includeArrayModels changed context) as [payload [[_ Hon]|H]];
      [congruence|done].
  - rewrite deleteResolver_published, Hoff.
    destruct (destroy _ _ _); [|done]. by rewrite andb_false_r.
Qed.

Lemma no_event_without_subscriptions_witness :
  publishedEvents (effects (addResolver sampleProperTypeName sampleOrm
     withoutSubscriptions "A" modelA [] (JObj [("title", JStr "new")]))) = [] ∧
  publishedEvents (effects (updateResolver sampleProperTypeName sampleOrm
     withoutSubscriptions "A" modelA [] (Some [("id", JNum 7)]) noContext)) = [] ∧
  publishedEvents (effects (deleteResolver sampleProperTypeName sampleOrm
     withoutSubscriptions "A" modelA [("id", JNum 7)])) = [].
Proof.
  apply (no_event_without_subscriptions sampleProperTypeName sampleOrm
           withoutSubscriptions "A" modelA [] (JObj [("title", JStr "new")])
           (Some [("id", JNum 7)]) noContext [("id", JNum 7)]).
  reflexivity.
Defined.

(** X17. A mutation publishes at most one event per call, and always on
    the bus chosen by the options, on the topic and under the payload key
    made of the entity's names and the verb of the mutation. *)
Theorem at_most_one_event_per_mutation
    (getProperTypeName : Model → ProperTypeName) (orm : Orm) (opts : SchemaOptions)
    (inputTypeName : string) (model : Model) (includeArrayModels : list Include)
    (created : JValue) (changed : option JObject) (context : Context)
    (where_ : JObject) :
  let one verbUpper verb (events : list Event) :=
    events = [] ∨
    ∃ payload,
      events = [{| ev_bus := myPubSub opts;
                   ev_topic := singular (toUpperWithLodashes
                                           (getProperTypeName model)) ++ verbUpper;
                   ev_field := singular (lowerFirst (getProperTypeName model)) ++ verb;
                   ev_payload := payload |}] in
  one "_ADDED" "Added"
    (publishedEvents (effects (addResolver getProperTypeName orm opts inputTypeName
                                 model includeArrayModels created))) ∧
  one "_UPDATED" "Updated"
    (publishedEvents (effects (updateResolver getProperTypeName orm opts inputTypeName
                                 model includeArrayModels changed context))) ∧
  one "_DELETED" "Deleted"
    (publishedEvents (effects (deleteResolver getProperTypeName orm opts inputTypeName
                                 model where_))).
Proof.
  intros one. unfold one. repeat split.
  - rewrite addResolver_published.
    destruct (create _ _ _ _); [|by left].
    destruct (subscriptions opts); [right; by eexists|by left].
  - destruct (updateResolver_published getProperTypeName orm opts inputTypeName
                model includeArrayModels changed context) as [payload [[H _]|H]];
      [right; by eexists|by left].
  - rewrite deleteResolver_published.
    destruct (destroy _ _ _) as [rows|]; [|by left].
    destruct ((0 <? rows) && subscriptions opts); [right; by eexists|by left].
Qed.

(** X18. [delete<E>] returns whatever count the store reports and fails
    when the store fails; it publishes one event, not one per row, as soon
    as the count is positive and subscriptions are enabled, and none
    otherwise. *)
Theorem delete_follows_the_store
    (getProperTypeName : Model → ProperTypeName) (orm : Orm) (opts : SchemaOptions)
    (inputTypeName : string) (model : Model) (where_ : JObject) :
  let run := deleteResolver getProperTypeName orm opts inputTypeName model where_ in
  outcome run = destroy orm inputTypeName where_ ∧
  issuedCalls (effects run) = [callDestroy inputTypeName where_] ∧
  publishedEvents (effects run) =
    match destroy orm inputTypeName where_ with
    | Fulfilled deletedRows =>
        if (0 <? deletedRows) && subscriptions opts
        then [eventOf getProperTypeName opts model "_DELETED" "Deleted"
                (payloadValue (obj_get where_ (primaryKey model)))]
        else []
    | Rejected => []
    end.
Proof.
  intros run. split; [|split; [|apply deleteResolver_published]].
  - unfold run, deleteResolver. async_simpl.
    destruct (destroy orm inputTypeName where_) as [rows|]; async_simpl; done.
  - unfold run, deleteResolver. async_simpl.
    destruct (destroy orm inputTypeName where_) as [rows|]; async_simpl; [|done].
    by destruct ((0 <? rows) && subscriptions opts).
Qed.

Lemma issuedCalls_issued c (l : list Effect) :
  issuedCalls (issued c :: l) = c :: issuedCalls l.
Proof. done. Qed.

Lemma issuedCalls_app (l1 l2 : list Effect) :
  issuedCalls (l1 ++ l2) = (issuedCalls l1 ++ issuedCalls l2)%list.
Proof. apply omap_app. Qed.

Lemma issuedCalls_upserts (calls : list UpsertCall) :
  issuedCalls (map (λ c, issued (callUpsertArray c)) calls) = map callUpsertArray calls.
Proof.
  induction calls as [|c cs IH]; [done|].
  by rewrite !map_cons, issuedCalls_issued, IH.
Qed.

(** X19. In [update<E>], once the record is found, every entry of the
    cascade whose model has a plural name that is a key of the input gets
    its upsert: the call carries that plural name, the value of the input
    under it, the found record, the foreign key [<E>_id], the primary-key
    value of the input and the entry's own nested cascade. *)
Theorem update_upserts_named_collections
    (getProperTypeName : Model → ProperTypeName) (orm : Orm) (opts : SchemaOptions)
    (inputTypeName : string) (model : Model) (includeArrayModels : list Include)
    (input : JObject) (context : Context) (object2Update : Instance)
    (m : Include) (o : ModelOptions) (pl : string) :
  findOne orm inputTypeName
    {| u_where := [(primaryKey model, obj_get input (primaryKey model))];
       u_include := includeArrayModels;
       u_dataloader := batchingOf context |} = Fulfilled (Some object2Update) →
  m ∈ includeArrayModels →
  options (inc_model m) = Some o →
  name_plural o = Some pl →
  pl ≠ "" →
  obj_has input pl = true →
  callUpsertArray {| up_plural := pl;
                     up_array := obj_get input pl;
                     up_parent := Some object2Update;
                     up_foreignKey := inputTypeName ++ "_id";
                     up_parentKey := obj_get input (primaryKey model);
                     up_include := inc_include m |}
  ∈ issuedCalls (effects (updateResolver getProperTypeName orm opts inputTypeName
                            model includeArrayModels (Some input) context)).
Proof.
  intros Hfound Hin Ho Hpl Hne Hhas.
  rewrite (updateResolver_effects _ _ _ _ _ _ _ _ _ Hfound).
  rewrite issuedCalls_issued, issuedCalls_app, issuedCalls_upserts.
  right. apply elem_of_app. left.
  apply list_elem_of_fmap. eexists. split; [reflexivity|].
  apply list_elem_of_omap. exists m. split; [done|].
  unfold upsertOf. rewrite Ho, Hpl, Hhas.
  apply String.eqb_neq in Hne as ->. done.
Qed.

Lemma update_upserts_named_collections_witness :
  callUpsertArray {| up_plural := "Bs"; up_array := JArr [];
                     up_parent := Some sampleRow; up_foreignKey := "A_id";
                     up_parentKey := JNum 7; up_include := [] |}
  ∈ issuedCalls (effects (updateResolver sampleProperTypeName sampleOrm
       withSubscriptions "A" modelA [mkInclude modelB []]
       (Some [("id", JNum 7); ("Bs", JArr [])]) noContext)).
Proof.
  apply (update_upserts_named_collections sampleProperTypeName sampleOrm
           withSubscriptions "A" modelA [mkInclude modelB []]
           [("id", JNum 7); ("Bs", JArr [])] noContext sampleRow
           (mkInclude modelB [])
           {| name_plural := Some "Bs";
              resolvers_query := None; resolvers_mutation := None |} "Bs").
  - reflexivity.
  - left.
  - reflexivity.
  - reflexivity.
  - discriminate.
  - reflexivity.
Defined.

(** X20. In [update<E>], when the input has none of the plural names of
    the cascade's models among its keys, no upsert is issued: the nested
    collections that the input does not mention are left alone. *)
Theorem update_leaves_unnamed_collections
    (getProperTypeName : Model → ProperTypeName) (orm : Orm) (opts : SchemaOptions)
    (inputTypeName : string) (model : Model) (includeArrayModels : list Include)
    (input : JObject) (context : Context) :
  (∀ m o pl, m ∈ includeArrayModels → options (inc_model m) = Some o →
             name_plural o = Some pl → obj_has input pl = false) →
  ∀ c, callUpsertArray c ∉
       issuedCalls (effects (updateResolver getProperTypeName orm opts inputTypeName
                               model includeArrayModels (Some input) context)).
Proof.
  intros Hnone c.
  assert (∀ found, omap (upsertOf inputTypeName model input found)
                        includeArrayModels = []) as Hnested.
  { intros found.
    induction includeArrayModels as [|m rest IH]; [done|].
    cbn [omap list_omap]. 
    assert (upsertOf inputTypeName model input found m = None) as ->.
    { unfold upsertOf. destruct (options (inc_model m)) as [o|] eqn:Ho; [|done].
      destruct (name_plural o) as [pl|] eqn:Hpl; [|done].
      rewrite (Hnone m o pl); [by rewrite andb_false_r|left|done|done]. }
    apply IH. intros m' o pl Hin. apply Hnone. by right. }
  destruct (findOne orm inputTypeName
              {| u_where := [(primaryKey model, obj_get input (primaryKey model))];
                 u_include := includeArrayModels;
                 u_dataloader := batchingOf context |})
    as [[object2Update|]|] eqn:Hfound.
  - rewrite (updateResolver_effects _ _ _ _ _ _ _ _ _ Hfound), Hnested.
    cbn [map app]. rewrite !issuedCalls_issued.
    intros [?|[?|Hin]%elem_of_cons]%elem_of_cons; [done..|].
    destruct (promiseAll _); [|by apply not_elem_of_nil in Hin].
    rewrite issuedCalls_app in Hin.
    apply elem_of_app in Hin as [Hin|Hin].
    + destruct (subscriptions opts); by apply not_elem_of_nil in Hin.
    + by apply list_elem_of_singleton in Hin.
  - unfold updateResolver. async_simpl. rewrite Hfound. async_simpl.
    rewrite Hnested. cbn [map app]. rewrite issuedCalls_issued.
    intros [?|Hin%not_elem_of_nil]%elem_of_cons; done.
  - unfold updateResolver. async_simpl. rewrite Hfound. async_simpl.
    cbn [app]. rewrite issuedCalls_issued.
    intros [?|Hin%not_elem_of_nil]%elem_of_cons; done.
Qed.

Lemma update_leaves_unnamed_collections_witness :
  obj_has [("id", JNum 7); ("title", JStr "t")] "Bs" = false ∧
  ∀ c, callUpsertArray c ∉
       issuedCalls (effects (updateResolver sampleProperTypeName sampleOrm
          withSubscriptions "A" modelA [mkInclude modelB []]
          (Some [("id", JNum 7); ("title", JStr "t")]) noContext)).
Proof.
  split; [reflexivity|].
  apply (update_leaves_unnamed_collections sampleProperTypeName sampleOrm
           withSubscriptions "A" modelA [mkInclude modelB []]
           [("id", JNum 7); ("title", JStr "t")] noContext).
  intros m o pl [->|Hin%not_elem_of_nil]%elem_of_cons; [|done].
  intros [= <-] [= <-]. reflexivity.
Defined.

(** ** More on the [<e>Restful] resolver *)

(** X21. Pages tile the result: for a page size of at least 1 and a page
    of at least 1, as long as the products stay exact integers, page 1
    starts at offset 0 and each page starts where the one before ends. *)
Theorem restful_pages_are_contiguous (filter_ : option JObject)
    (order : option (list (list string))) (page pageSize : Z) (context : Context) :
  1 <= page → 1 <= pageSize → page * pageSize <= 2 ^ 53 →
  let options p := restfulOptions {| a_where := filter_; a_order := order;
                                     a_page := Some p; a_pageSize := Some pageSize |}
                                  context in
  o_offset (options 1) = 0 ∧
  o_limit (options page) = pageSize ∧
  o_offset (options (page + 1)) = o_offset (options page) + o_limit (options page).
Proof.
  intros Hp Hps Hexact options.
  assert (truthyInt (Some pageSize) = true) as Hl.
  { cbn. destruct (pageSize =? 0) eqn:E; [apply Z.eqb_eq in E; lia|done]. }
  assert (∀ p, 1 <= p → truthyInt (Some p) = true) as Ht.
  { intros p ?. cbn. destruct (p =? 0) eqn:E; [apply Z.eqb_eq in E; lia|done]. }
  unfold options, restfulOptions, restfulOffset, restfulLimit.
  cbn [o_offset o_limit a_page a_pageSize default]. rewrite Hl, !Ht by lia.
  cbn [default from_option id].
  rewrite !js_mul_exact by (rewrite Z.abs_eq by nia; nia).
  repeat split; lia.
Qed.

Lemma restful_pages_are_contiguous_witness :
  let options p := restfulOptions {| a_where := None; a_order := None;
                                     a_page := Some p; a_pageSize := Some 5 |}
                                  noContext in
  o_offset (options 1) = 0 ∧
  o_limit (options 3) = 5 ∧
  o_offset (options (3 + 1)) = o_offset (options 3) + o_limit (options 3).
Proof.
  apply (restful_pages_are_contiguous None None 3 5 noContext).
  - lia.
  - lia.
  - vm_compute. discriminate.
Defined.

(** X22. The resolver checks no sign: a negative page size reaches the
    store as a negative limit, and a negative page with a positive page
    size as a negative offset. *)
Theorem restful_passes_negative_arguments (filter_ : option JObject)
    (order : option (list (list string))) (page : option Z) (p pageSize : Z)
    (context : Context) :
  pageSize ≠ 0 → p < 0 → Z.abs ((p - 1) * pageSize) <= 2 ^ 53 →
  o_limit (restfulOptions {| a_where := filter_; a_order := order; a_page := page;
                             a_pageSize := Some pageSize |} context) = pageSize ∧
  o_offset (restfulOptions {| a_where := filter_; a_order := order; a_page := Some p;
                              a_pageSize := Some pageSize |} context)
    = (p - 1) * pageSize ∧
  (0 < pageSize →
   o_offset (restfulOptions {| a_where := filter_; a_order := order; a_page := Some p;
                               a_pageSize := Some pageSize |} context) < 0).
Proof.
  intros Hps Hp Hexact.
  assert (truthyInt (Some pageSize) = true) as Hl.
  { cbn. destruct (pageSize =? 0) eqn:E; [by apply Z.eqb_eq in E|done]. }
  assert (truthyInt (Some p) = true) as Ht.
  { cbn. destruct (p =? 0) eqn:E; [apply Z.eqb_eq in E; lia|done]. }
  unfold restfulOptions, restfulOffset, restfulLimit.
  cbn [o_offset o_limit a_page a_pageSize]. rewrite Hl, Ht.
  cbn [default from_option id]. rewrite js_mul_exact by done.
  repeat split. intros ?. nia.
Qed.

Lemma restful_passes_negative_arguments_witness :
  o_limit (restfulOptions {| a_where := None; a_order := None; a_page := None;
                             a_pageSize := Some 5 |} noContext) = 5 ∧
  o_offset (restfulOptions {| a_where := None; a_order := None; a_page := Some (-1);
                              a_pageSize := Some 5 |} noContext)
    = (-1 - 1) * 5 ∧
  (0 < 5 →
   o_offset (restfulOptions {| a_where := None; a_order := None; a_page := Some (-1);
                               a_pageSize := Some 5 |} noContext) < 0).
Proof.
  apply (restful_passes_negative_arguments None None None (-1) 5 noContext).
  - discriminate.
  - lia.
  - vm_compute. discriminate.
Defined.

Example restful_negative_page_size :
  o_limit (restfulOptions {| a_where := None; a_order := None; a_page := Some 2;
                             a_pageSize := Some (-5) |} noContext) = -5 ∧
  o_offset (restfulOptions {| a_where := None; a_order := None; a_page := Some 2;
                              a_pageSize := Some (-5) |} noContext) = -5.
Proof. split; reflexivity. Qed.

Lemma parseWhere_unchanged keys o :
  (∀ k, k ∈ keys → includes "%" (toString (obj_get o k)) = false) →
  parseWhere keys o = o.
Proof.
  induction keys as [|k rest IH]; intros Hclean; [done|].
  cbn [parseWhere]. rewrite (Hclean k) by left.
  apply IH. intros k' Hk'. apply Hclean. by right.
Qed.

Lemma likeIfWildcard_clean v : includes "%" (toString (likeIfWildcard v)) = false.
Proof.
  unfold likeIfWildcard.
  destruct (includes "%" (toString v)) eqn:E; [reflexivity|done].
Qed.

(** X23. The rewrite of the filter is idempotent: the resolver changes
    the [where] object of its arguments in place, and running the loop
    again over the changed object changes nothing more. *)
Theorem restful_filter_rewrite_is_idempotent (filter_ : JObject) :
  let parsed := parseWhere (obj_keys filter_) filter_ in
  parseWhere (obj_keys parsed) parsed = parsed.
Proof.
  intros parsed.
  destruct (parseWhere_spec (obj_keys filter_) filter_) as [Hkeys Hget]; [done|].
  apply parseWhere_unchanged. intros k Hk.
  unfold parsed in *. rewrite Hkeys in Hk.
  rewrite Hget, decide_True by done. apply likeIfWildcard_clean.
Qed.

(** ** The subscription root *)

Lemma string_app_length (a b : string) :
  String.length (a ++ b) = (String.length a + String.length b)%nat.
Proof. induction a as [|c a IH]; [done|]. simpl. f_equal. exact IH. Qed.

(** Two strings with the same suffix appended are equal only when they
    are equal. *)
Lemma string_app_inv_tail (a b s : string) : a ++ s = b ++ s → a = b.
Proof.
  revert b. induction a as [|c a IH]; intros [|c' b] H.
  - done.
  - apply (f_equal String.length) in H.
    rewrite !string_app_length in H. simpl in H. lia.
  - apply (f_equal String.length) in H.
    rewrite !string_app_length in H. simpl in H. lia.
  - simpl in H. injection H as -> H. f_equal. by apply IH.
Qed.

Lemma removeSpaces_cons c (s : string) :
  removeSpaces (String c s) =
  if Ascii.eqb c " " then removeSpaces s else String c (removeSpaces s).
Proof. reflexivity. Qed.

Lemma removeSpaces_app (a b : string) :
  removeSpaces (a ++ b) = removeSpaces a ++ removeSpaces b.
Proof.
  induction a as [|c a IH]; [done|].
  change (String c a ++ b) with (String c (a ++ b)).
  rewrite !removeSpaces_cons, IH. by destruct (Ascii.eqb c " ").
Qed.

(** What is left of the longer of two suffixes of one string. *)
Lemma string_app_suffix (a b s t : string) :
  a ++ s = b ++ t → (String.length s ≤ String.length t)%nat →
  ∃ c, t = c ++ s.
Proof.
  revert a. induction b as [|x b IH]; intros a Heq Hlen.
  - exists a. symmetry. exact Heq.
  - destruct a as [|y a].
    + apply (f_equal String.length) in Heq. rewrite !string_app_length in Heq.
      cbn [String.length] in Heq. lia.
    + change (String y (a ++ s) = String x (b ++ t)) in Heq.
      injection Heq as _ Heq. by apply (IH a).
Qed.

(** No name with one verb appended is another name with another verb. *)
Lemma verb_suffixes_differ (a b : string) :
  a ++ "Added" ≠ b ++ "Updated" ∧ a ++ "Added" ≠ b ++ "Deleted" ∧
  a ++ "Updated" ≠ b ++ "Added" ∧ a ++ "Updated" ≠ b ++ "Deleted" ∧
  a ++ "Deleted" ≠ b ++ "Added" ∧ a ++ "Deleted" ≠ b ++ "Updated".
Proof.
  assert (∀ c : string, "Updated" ≠ c ++ "Added") as HUA.
  { intros [|? [|? [|? c]]]; try discriminate.
    intros H. apply (f_equal String.length) in H.
    rewrite string_app_length in H. cbn [String.length] in H. lia. }
  assert (∀ c : string, "Deleted" ≠ c ++ "Added") as HDA.
  { intros [|? [|? [|? c]]]; try discriminate.
    intros H. apply (f_equal String.length) in H.
    rewrite string_app_length in H. cbn [String.length] in H. lia. }
  assert (∀ c : string, "Deleted" ≠ c ++ "Updated") as HDU.
  { intros [|? c]; try discriminate.
    intros H. apply (f_equal String.length) in H.
    rewrite string_app_length in H. cbn [String.length] in H. lia. }
  assert (∀ c : string, "Updated" ≠ c ++ "Deleted") as HUD.
  { intros [|? c]; try discriminate.
    intros H. apply (f_equal String.length) in H.
    rewrite string_app_length in H. cbn [String.length] in H. lia. }
  repeat split; intros H.
  - apply string_app_suffix in H as [c Hc]; [by apply HUA in Hc|cbn; lia].
  - apply string_app_suffix in H as [c Hc]; [by apply HDA in Hc|cbn; lia].
  - symmetry in H.
    apply string_app_suffix in H as [c Hc]; [by apply HUA in Hc|cbn; lia].
  - apply string_app_suffix in H as [c Hc]; [by apply HDU in Hc|cbn; lia].
  - symmetry in H.
    apply string_app_suffix in H as [c Hc]; [by apply HDA in Hc|cbn; lia].
  - apply string_app_suffix in H as [c Hc]; [by apply HUD in Hc|cbn; lia].
Qed.

Section SubscriptionFacts.
Variable camelCase startCase toUpper : string → string.
Variable outputTypes : gmap string GeneratedType.
Variable opts : SchemaOptions.

Abbreviation fieldsOfEntity :=
  (subscriptionFieldsOf camelCase startCase toUpper outputTypes opts).

Lemma subscription_keys_differ n :
  removeSpaces (camelCase n ++ "Added") ≠ removeSpaces (camelCase n ++ "Updated") ∧
  removeSpaces (camelCase n ++ "Added") ≠ removeSpaces (camelCase n ++ "Deleted") ∧
  removeSpaces (camelCase n ++ "Updated") ≠ removeSpaces (camelCase n ++ "Deleted").
Proof.
  rewrite !removeSpaces_app. cbn.
  repeat split; intros H; by apply (inj (String.app _)) in H.
Qed.

Lemma subscriptionFieldsOf_lookup n :
  fieldsOfEntity n !! removeSpaces (camelCase n ++ "Added") =
    Some {| s_type := typeRef outputTypes n;
            s_description := startCase (camelCase n) ++ " subscription for added event";
            s_bus := myPubSub opts;
            s_topics := [toUpper n ++ "_ADDED"] |} ∧
  fieldsOfEntity n !! removeSpaces (camelCase n ++ "Updated") =
    Some {| s_type := typeRef outputTypes n;
            s_description := startCase (camelCase n) ++ " subscription for updated event";
            s_bus := myPubSub opts;
            s_topics := [toUpper n ++ "_UPDATED"] |} ∧
  fieldsOfEntity n !! removeSpaces (camelCase n ++ "Deleted") =
    Some {| s_type := GraphQLInt;
            s_description := startCase (camelCase n) ++ " subscription for deleted event";
            s_bus := myPubSub opts;
            s_topics := [toUpper n ++ "_DELETED"] |}.
Proof.
  destruct (subscription_keys_differ n) as (H1 & H2 & H3).
  unfold subscriptionFieldsOf. repeat split.
  - rewrite lookup_insert_ne, lookup_insert_ne, lookup_insert_eq by done. done.
  - rewrite lookup_insert_ne, lookup_insert_eq by done. done.
  - by rewrite lookup_insert_eq.
Qed.

Lemma subscriptionFieldsOf_inv n k f :
  fieldsOfEntity n !! k = Some f →
  s_bus f = myPubSub opts ∧
  (s_topics f = [toUpper n ++ "_ADDED"] ∨
   s_topics f = [toUpper n ++ "_UPDATED"] ∨
   s_topics f = [toUpper n ++ "_DELETED"]).
Proof.
  unfold subscriptionFieldsOf.
  rewrite !lookup_insert_Some, lookup_empty.
  intros [[_ <-]|[_ [[_ <-]|[_ [[_ <-]|[_ ?]]]]]]; cbn; auto. done.
Qed.

(** An entity with another camel-cased name has no field under one of the
    three names. *)
Lemma subscriptionFieldsOf_other n later k :
  isSubscriptionKey camelCase n k →
  removeSpaces (camelCase later) ≠ removeSpaces (camelCase n) →
  fieldsOfEntity later !! k = None.
Proof.
  intros Hk Hne. unfold subscriptionFieldsOf.
  rewrite !lookup_insert_None, lookup_empty, !removeSpaces_app.
  change (removeSpaces "Added") with "Added".
  change (removeSpaces "Updated") with "Updated".
  change (removeSpaces "Deleted") with "Deleted".
  unfold isSubscriptionKey in Hk. rewrite !removeSpaces_app in Hk.
  change (removeSpaces "Added") with "Added" in Hk.
  change (removeSpaces "Updated") with "Updated" in Hk.
  change (removeSpaces "Deleted") with "Deleted" in Hk.
  destruct (verb_suffixes_differ (removeSpaces (camelCase later))
              (removeSpaces (camelCase n))) as (E1 & E2 & E3 & E4 & E5 & E6).
  repeat split; intros Heq; subst k;
    destruct Hk as [Hk|[Hk|Hk]];
    try (apply string_app_inv_tail in Hk; congruence);
    first [by apply E1 in Hk | by apply E2 in Hk | by apply E3 in Hk
          | by apply E4 in Hk | by apply E5 in Hk | by apply E6 in Hk
          | by symmetry in Hk; apply E1 in Hk | by symmetry in Hk; apply E2 in Hk
          | by symmetry in Hk; apply E3 in Hk | by symmetry in Hk; apply E4 in Hk
          | by symmetry in Hk; apply E5 in Hk | by symmetry in Hk; apply E6 in Hk].
Qed.

(** The entities that have no field under a name leave it as it is. *)
Lemma subscriptionRoot_keeps (inputTypes : list (string * GeneratedType))
    (init : gmap string SubscriptionField) k :
  (∀ n, n ∈ inputTypes.*1 → fieldsOfEntity n !! k = None) →
  foldl (λ fields entry, fieldsOfEntity entry.1 ∪ fields) init inputTypes !! k
  = init !! k.
Proof.
  revert init. induction inputTypes as [|[n t] rest IH]; intros init Hnone;
    cbn [foldl fst]; [done|].
  rewrite IH.
  - apply lookup_union_r, Hnone. left.
  - intros n' Hin. apply Hnone. by right.
Qed.

End SubscriptionFacts.

(** X24. An entity of the input registry that no later entity shares its
    camel-cased name with gives the subscription root three fields under
    three different names: the added and the updated one carry the
    entity's output type, the deleted one an [Int]; each listens, on the
    bus chosen by the options, to the one topic made of the upper-cased
    registry name and its verb. Of several entities with one camel-cased
    name, the root has the fields of the last. *)
Theorem subscription_root_has_the_fields_of_an_entity
    (camelCase startCase toUpper : string → string)
    (outputTypes : gmap string GeneratedType) (opts : SchemaOptions)
    (before after : list (string * GeneratedType))
    (inputTypeName : string) (inputType : GeneratedType) :
  (∀ later, later ∈ after.*1 →
     removeSpaces (camelCase later) ≠ removeSpaces (camelCase inputTypeName)) →
  let fields := generateSubscriptionRootType camelCase startCase toUpper outputTypes
                  opts (before ++ (inputTypeName, inputType) :: after) in
  removeSpaces (camelCase inputTypeName ++ "Added")
    ≠ removeSpaces (camelCase inputTypeName ++ "Updated") ∧
  removeSpaces (camelCase inputTypeName ++ "Added")
    ≠ removeSpaces (camelCase inputTypeName ++ "Deleted") ∧
  removeSpaces (camelCase inputTypeName ++ "Updated")
    ≠ removeSpaces (camelCase inputTypeName ++ "Deleted") ∧
  fields !! removeSpaces (camelCase inputTypeName ++ "Added") =
    Some {| s_type := typeRef outputTypes inputTypeName;
            s_description := startCase (camelCase inputTypeName) ++
                             " subscription for added event";
            s_bus := myPubSub opts;
            s_topics := [toUpper inputTypeName ++ "_ADDED"] |} ∧
  fields !! removeSpaces (camelCase inputTypeName ++ "Updated") =
    Some {| s_type := typeRef outputTypes inputTypeName;
            s_description := startCase (camelCase inputTypeName) ++
                             " subscription for updated event";
            s_bus := myPubSub opts;
            s_topics := [toUpper inputTypeName ++ "_UPDATED"] |} ∧
  fields !! removeSpaces (camelCase inputTypeName ++ "Deleted") =
    Some {| s_type := GraphQLInt;
            s_description := startCase (camelCase inputTypeName) ++
                             " subscription for deleted event";
            s_bus := myPubSub opts;
            s_topics := [toUpper inputTypeName ++ "_DELETED"] |}.
Proof.
  intros Hlast fields.
  destruct (subscription_keys_differ camelCase inputTypeName) as (H1 & H2 & H3).
  destruct (subscriptionFieldsOf_lookup camelCase startCase toUpper outputTypes opts
              inputTypeName) as (Ha & Hu & Hd).
  assert (∀ k f, isSubscriptionKey camelCase inputTypeName k →
            subscriptionFieldsOf camelCase startCase toUpper outputTypes opts
              inputTypeName !! k = Some f →
            fields !! k = Some f) as Hkeep.
  { intros k f Hk Hf. unfold fields, generateSubscriptionRootType.
    rewrite foldl_app. cbn [foldl fst].
    rewrite (subscriptionRoot_keeps camelCase startCase toUpper outputTypes opts
               after _ k).
    - by apply lookup_union_Some_l.
    - intros later Hin.
      apply (subscriptionFieldsOf_other camelCase startCase toUpper outputTypes opts
               inputTypeName later k Hk).
      by apply Hlast. }
  split; [done|]. split; [done|]. split; [done|].
  split; [|split]; apply Hkeep; try done.
  - by left.
  - right. by left.
  - right. by right.
Qed.

Lemma subscription_root_has_the_fields_of_an_entity_witness :
  "aAdded" ≠ "aUpdated" ∧ "aAdded" ≠ "aDeleted" ∧ "aUpdated" ≠ "aDeleted" ∧
  generateSubscriptionRootType lowerFirstOf lowerFirstOf (mapString upperChar)
     ∅ withSubscriptions
     ([] ++ ("A", generateGraphQLType sampleProperTypeName modelA true)
         :: [("B", generateGraphQLType sampleProperTypeName modelB true)])
    !! "aAdded" =
    Some {| s_type := GraphQLUndefined;
            s_description := "a subscription for added event";
            s_bus := defaultPubSub; s_topics := ["A_ADDED"] |} ∧
  generateSubscriptionRootType lowerFirstOf lowerFirstOf (mapString upperChar)
     ∅ withSubscriptions
     ([] ++ ("A", generateGraphQLType sampleProperTypeName modelA true)
         :: [("B", generateGraphQLType sampleProperTypeName modelB true)])
    !! "aUpdated" =
    Some {| s_type := GraphQLUndefined;
            s_description := "a subscription for updated event";
            s_bus := defaultPubSub; s_topics := ["A_UPDATED"] |} ∧
  generateSubscriptionRootType lowerFirstOf lowerFirstOf (mapString upperChar)
     ∅ withSubscriptions
     ([] ++ ("A", generateGraphQLType sampleProperTypeName modelA true)
         :: [("B", generateGraphQLType sampleProperTypeName modelB true)])
    !! "aDeleted" =
    Some {| s_type := GraphQLInt;
            s_description := "a subscription for deleted event";
            s_bus := defaultPubSub; s_topics := ["A_DELETED"] |}.
Proof.
  assert (∀ later,
            later ∈ [("B", generateGraphQLType sampleProperTypeName modelB true)].*1 →
            removeSpaces (lowerFirstOf later) ≠ removeSpaces (lowerFirstOf "A"))
    as Hlast.
  { intros later Hin. apply list_elem_of_singleton in Hin as ->. discriminate. }
  exact (subscription_root_has_the_fields_of_an_entity lowerFirstOf lowerFirstOf
           (mapString upperChar) ∅ withSubscriptions []
           [("B", generateGraphQLType sampleProperTypeName modelB true)]
           "A" (generateGraphQLType sampleProperTypeName modelA true) Hlast).
Defined.

(** Two entities with one camel-cased name: the root has three fields,
    not six, and they listen to the topics of the second entity. *)
Example subscription_root_collision :
  let fields :=
    generateSubscriptionRootType lowerFirstOf lowerFirstOf (λ s, s)
      ∅ withSubscriptions
      [("Item", generateGraphQLType sampleProperTypeName modelA true);
       ("item", generateGraphQLType sampleProperTypeName modelA true)] in
  size fields = 3%nat ∧
  s_topics <$> fields !! "itemAdded" = Some ["item_ADDED"].
Proof. vm_compute. done. Qed.

(** X25. Every field of the subscription root belongs to an entity of the
    input registry: it listens on the bus chosen by the options to exactly
    one topic, the upper-cased name of that entity followed by [_ADDED],
    [_UPDATED] or [_DELETED]. *)
Theorem subscription_root_listens_to_entity_topics
    (camelCase startCase toUpper : string → string)
    (outputTypes : gmap string GeneratedType) (opts : SchemaOptions)
    (inputTypes : list (string * GeneratedType)) (k : string) (f : SubscriptionField) :
  generateSubscriptionRootType camelCase startCase toUpper outputTypes opts inputTypes
    !! k = Some f →
  s_bus f = myPubSub opts ∧
  ∃ n, n ∈ inputTypes.*1 ∧
       (s_topics f = [toUpper n ++ "_ADDED"] ∨
        s_topics f = [toUpper n ++ "_UPDATED"] ∨
        s_topics f = [toUpper n ++ "_DELETED"]).
Proof.
  unfold generateSubscriptionRootType.
  induction inputTypes as [|[n t] rest IH] using rev_ind.
  - cbn. by rewrite lookup_empty.
  - rewrite foldl_snoc, fmap_app. cbn [fst fmap list_fmap].
    intros [Hf|[_ Hf]]%lookup_union_Some_raw.
    + destruct (subscriptionFieldsOf_inv _ _ _ _ _ _ _ _ Hf) as [Hbus Htopics].
      split; [done|]. exists n. split; [|done].
      apply elem_of_app. right. left.
    + destruct (IH Hf) as (Hbus & n' & Hin & Htopics).
      split; [done|]. exists n'. split; [|done]. apply elem_of_app. by left.
Qed.

Lemma subscription_root_listens_to_entity_topics_witness :
  s_bus {| s_type := GraphQLInt; s_description := "a subscription for deleted event";
           s_bus := defaultPubSub; s_topics := ["A_DELETED"] |}
    = myPubSub withSubscriptions ∧
  ∃ n, n ∈ [("A", generateGraphQLType sampleProperTypeName modelA true)].*1 ∧
       (["A_DELETED"] = [mapString upperChar n ++ "_ADDED"] ∨
        ["A_DELETED"] = [mapString upperChar n ++ "_UPDATED"] ∨
        ["A_DELETED"] = [mapString upperChar n ++ "_DELETED"]).
Proof.
  apply (subscription_root_listens_to_entity_topics lowerFirstOf lowerFirstOf
           (mapString upperChar) ∅ withSubscriptions
           [("A", generateGraphQLType sampleProperTypeName modelA true)]
           "aDeleted").
  vm_compute. reflexivity.
Defined.

(** X26. An event that a mutation of an entity publishes is on the bus of
    the entity's subscription fields. It is on the topic of the field of
    its verb exactly when the helper's upper-case name of the model is
    lodash's upper-casing of the registry name, and its payload key is the
    name of that field exactly when the helper's lower-case name is the
    camel-cased registry name without spaces. *)
Theorem event_reaches_subscription_iff_names_agree
    (getProperTypeName : Model → ProperTypeName)
    (camelCase startCase toUpper : string → string)
    (outputTypes : gmap string GeneratedType) (opts : SchemaOptions)
    (inputTypeName : string) (model : Model) (payload : Payload) :
  let routed verbUpper verb :=
    ∃ f, subscriptionFieldsOf camelCase startCase toUpper outputTypes opts
           inputTypeName !! removeSpaces (camelCase inputTypeName ++ verb) = Some f ∧
         let e := eventOf getProperTypeName opts model verbUpper verb payload in
         ev_bus e = s_bus f ∧
         (ev_topic e ∈ s_topics f ↔
          singular (toUpperWithLodashes (getProperTypeName model))
            = toUpper inputTypeName) ∧
         (ev_field e = removeSpaces (camelCase inputTypeName ++ verb) ↔
          singular (lowerFirst (getProperTypeName model))
            = removeSpaces (camelCase inputTypeName)) in
  routed "_ADDED" "Added" ∧ routed "_UPDATED" "Updated" ∧ routed "_DELETED" "Deleted".
Proof.
  intros routed.
  destruct (subscriptionFieldsOf_lookup camelCase startCase toUpper outputTypes opts
              inputTypeName) as (Ha & Hu & Hd).
  unfold routed, eventOf. repeat split.
  all: eexists; split; [eassumption|]; cbn [ev_bus ev_topic ev_field s_bus s_topics].
  all: split; [done|]; split.
  all: rewrite ?list_elem_of_singleton, ?removeSpaces_app; cbn [removeSpaces Ascii.eqb].
  all: split; [apply string_app_inv_tail|by intros ->].
Qed.
